(** * P-384 scalar-multiplication core (crypto/fipsmodule/ec/p384.c)

    A shallow embedding of the 64-bit configuration of p384.c
    (BORINGSSL_NISTP384_64BIT: six 64-bit limbs per field element) together
    with the properties of its point arithmetic, scalar recoding and table
    lookups.

    Conventions.
    - A C function that writes through output pointers is a function that
      returns the values written.
    - Machine integers are [Z]; every conversion to a narrower or unsigned
      type is written out ([to_int8], [to_word]).
    - A byte buffer is a [list Z]; a read outside the buffer is [None]. *)

From Stdlib Require Import ZArith List Lia Bool Znumtheory Zpow_facts Zmod.
From Stdlib Require Import Ring Field.
Import ListNotations.
Local Open Scope Z_scope.

(** ** Machine integers *)

(** Conversion to [int8_t] (two's complement wrap-around). *)
Definition to_int8 (z : Z) : Z := (z + 128) mod 256 - 128.

(** Conversion to [crypto_word_t] / [fiat_p384_limb_t] / [size_t]
    (64-bit unsigned). *)
Definition to_word (z : Z) : Z := z mod 2 ^ 64.

Definition word_max : Z := 2 ^ 64 - 1.

(** [~x] on a 64-bit word. *)
Definition word_not (x : Z) : Z := Z.lxor x word_max.

(** C's [!x] and [!!x]. *)
Definition lnot (x : Z) : Z := if x =? 0 then 1 else 0.
Definition lnotnot (x : Z) : Z := if x =? 0 then 0 else 1.

(** Modelled from the spec: [constant_time_is_zero_w] of crypto/internal.h is
    not among the sources; it returns the all-ones word when its argument is
    zero and the zero word otherwise. *)
Definition constant_time_is_zero_w (a : Z) : Z :=
  if a =? 0 then word_max else 0.

(** ** The field-primitive library (fiat) *)

Definition FIAT_P384_NLIMBS : nat := 6.

(** [fiat_p384_felem]: an array of [FIAT_P384_NLIMBS] limbs, least
    significant first. *)
Definition fiat_p384_felem : Type := list Z.

(** The field prime [p = 2^384 - 2^128 - 2^96 + 2^32 - 1]. *)
Definition p384 : Z :=
  39402006196394479212279040100143613805079739270465446667948293404245721771496870329047266088258938001861606973112319.

(** The Montgomery radix [R = 2^384] and its inverse modulo [p]. *)
Definition mont_R : Z := 2 ^ 384.
Definition mont_Rinv : Z :=
  0x14000000140000000c00000002fffffffcfffffffafffffffbfffffffdffffffebffffffd8ffffffe100000006.

(** The integer held by a limb array. *)
Fixpoint limbs_eval (l : list Z) : Z :=
  match l with
  | [] => 0
  | x :: l' => x + 2 ^ 64 * limbs_eval l'
  end.

(** The [n]-limb array holding the integer [v]. *)
Fixpoint limbs_of (n : nat) (v : Z) : list Z :=
  match n with
  | O => []
  | S n' => v mod 2 ^ 64 :: limbs_of n' (v / 2 ^ 64)
  end.

Definition feval (a : fiat_p384_felem) : Z := limbs_eval a.

(** The reduced limb array of the residue of [v] modulo [p]. *)
Definition fe (v : Z) : fiat_p384_felem :=
  limbs_of FIAT_P384_NLIMBS (v mod p384).

(** A well-formed field element: six 64-bit limbs holding a value below [p]. *)
Definition felem_ok (a : fiat_p384_felem) : Prop :=
  length a = FIAT_P384_NLIMBS /\
  Forall (fun x => 0 <= x < 2 ^ 64) a /\
  feval a < p384.

(** Modelled from the spec: the field primitives of third_party/fiat/p384_64.h
    are not among the sources.  They compute modulo [p] on values in
    Montgomery form: addition, subtraction and negation act on the stored
    integers, multiplication divides the product by the radix [R]. *)
Definition fiat_p384_add (a b : fiat_p384_felem) : fiat_p384_felem :=
  fe (feval a + feval b).
Definition fiat_p384_sub (a b : fiat_p384_felem) : fiat_p384_felem :=
  fe (feval a - feval b).
Definition fiat_p384_opp (a : fiat_p384_felem) : fiat_p384_felem :=
  fe (- feval a).
Definition fiat_p384_mul (a b : fiat_p384_felem) : fiat_p384_felem :=
  fe (feval a * feval b * mont_Rinv).
Definition fiat_p384_square (a : fiat_p384_felem) : fiat_p384_felem :=
  fe (feval a * feval a * mont_Rinv).
Definition fiat_p384_to_montgomery (a : fiat_p384_felem) : fiat_p384_felem :=
  fe (feval a * mont_R).
Definition fiat_p384_from_montgomery (a : fiat_p384_felem) : fiat_p384_felem :=
  fe (feval a * mont_Rinv).

(** Modelled from the spec: [fiat_p384_nonzero] returns a limb-wide word that
    is zero iff the element is zero (the bitwise or of the six limbs). *)
Definition fiat_p384_nonzero (a : fiat_p384_felem) : Z :=
  fold_right Z.lor 0 (firstn FIAT_P384_NLIMBS a).

(** Modelled from the spec: [fiat_p384_selectznz out c a b]: if [c = 0] then
    [out <- a] else [out <- b]. *)
Definition fiat_p384_selectznz (c : Z) (a b : fiat_p384_felem)
  : fiat_p384_felem :=
  if c =? 0 then a else b.

(** Little-endian value of a byte string. *)
Fixpoint bytes_eval (bs : list Z) : Z :=
  match bs with
  | [] => 0
  | b :: bs' => b + 256 * bytes_eval bs'
  end.

(** The [n] little-endian bytes of [v]. *)
Fixpoint bytes_of (n : nat) (v : Z) : list Z :=
  match n with
  | O => []
  | S n' => v mod 256 :: bytes_of n' (v / 256)
  end.

(** Modelled from the spec: [fiat_p384_from_bytes] / [fiat_p384_to_bytes]
    convert a little-endian 48-byte integer to and from limbs (no Montgomery
    conversion). *)
Definition fiat_p384_from_bytes (bs : list Z) : fiat_p384_felem :=
  limbs_of FIAT_P384_NLIMBS (bytes_eval (firstn 48 bs)).
Definition fiat_p384_to_bytes (a : fiat_p384_felem) : list Z :=
  bytes_of 48 (feval a).

(** [fiat_p384_one]: the Montgomery form of 1. *)
Definition fiat_p384_one : fiat_p384_felem :=
  [0xffffffff00000001; 0xffffffff; 0x1; 0x0; 0x0; 0x0].

(** ** Wrappers of p384.c *)

Definition fiat_p384_nz (in1 : fiat_p384_felem) : Z :=
  fiat_p384_nonzero in1.

(** [fiat_p384_copy]: [out[i] = in1[i]] for [i < FIAT_P384_NLIMBS]. *)
Definition fiat_p384_copy (in1 : fiat_p384_felem) : fiat_p384_felem :=
  map (fun i => nth i in1 0) (seq 0 FIAT_P384_NLIMBS).

Definition fiat_p384_cmovznz (t : Z) (z nz : fiat_p384_felem)
  : fiat_p384_felem :=
  fiat_p384_selectznz (lnotnot t) z nz.

(** [EC_FELEM] and [EC_SCALAR]: byte buffers (little-endian). *)
Definition EC_FELEM : Type := list Z.
Definition EC_SCALAR : Type := list Z.

Record EC_RAW_POINT : Type := mkPoint {
  X : EC_FELEM;
  Y : EC_FELEM;
  Z_ : EC_FELEM
}.

Definition fiat_p384_from_generic (a : EC_FELEM) : fiat_p384_felem :=
  fiat_p384_from_bytes a.

Definition fiat_p384_to_generic (a : fiat_p384_felem) : EC_FELEM :=
  fiat_p384_to_bytes a.

(** Jacobian points as three limb arrays. *)
Definition jac : Type := (fiat_p384_felem * fiat_p384_felem * fiat_p384_felem)%type.

(** ** Point doubling *)

Definition fiat_p384_point_double (x_in y_in z_in : fiat_p384_felem) : jac :=
  (* delta = z^2 *)
  let delta := fiat_p384_square z_in in
  (* gamma = y^2 *)
  let gamma := fiat_p384_square y_in in
  (* beta = x*gamma *)
  let beta := fiat_p384_mul x_in gamma in
  (* alpha = 3*(x-delta)*(x+delta) *)
  let ftmp := fiat_p384_sub x_in delta in
  let ftmp2 := fiat_p384_add x_in delta in
  let tmptmp := fiat_p384_add ftmp2 ftmp2 in
  let ftmp2 := fiat_p384_add ftmp2 tmptmp in
  let alpha := fiat_p384_mul ftmp ftmp2 in
  (* x' = alpha^2 - 8*beta *)
  let x_out := fiat_p384_square alpha in
  let fourbeta := fiat_p384_add beta beta in
  let fourbeta := fiat_p384_add fourbeta fourbeta in
  let tmptmp := fiat_p384_add fourbeta fourbeta in
  let x_out := fiat_p384_sub x_out tmptmp in
  (* z' = (y + z)^2 - gamma - delta *)
  let ftmp := fiat_p384_add y_in z_in in
  let z_out := fiat_p384_square ftmp in
  let z_out := fiat_p384_sub z_out gamma in
  let z_out := fiat_p384_sub z_out delta in
  (* y' = alpha*(4*beta - x') - 8*gamma^2 *)
  let y_out := fiat_p384_sub fourbeta x_out in
  let gamma := fiat_p384_add gamma gamma in
  let gamma := fiat_p384_square gamma in
  let y_out := fiat_p384_mul alpha y_out in
  let gamma := fiat_p384_add gamma gamma in
  let y_out := fiat_p384_sub y_out gamma in
  (x_out, y_out, z_out).

(** ** Point addition *)

(** The values [u1], [s1], [two_z1z2] of the two branches on [mixed]. *)
Definition point_add_u1_s1_2z1z2 (mixed : Z)
    (x1 y1 z1 z2 z1z1 : fiat_p384_felem)
  : fiat_p384_felem * fiat_p384_felem * fiat_p384_felem :=
  if negb (lnot mixed =? 0) then
    (* z2z2 = z2**2 *)
    let z2z2 := fiat_p384_square z2 in
    (* u1 = x1*z2z2 *)
    let u1 := fiat_p384_mul x1 z2z2 in
    (* two_z1z2 = (z1 + z2)**2 - (z1z1 + z2z2) = 2z1z2 *)
    let two_z1z2 := fiat_p384_add z1 z2 in
    let two_z1z2 := fiat_p384_square two_z1z2 in
    let two_z1z2 := fiat_p384_sub two_z1z2 z1z1 in
    let two_z1z2 := fiat_p384_sub two_z1z2 z2z2 in
    (* s1 = y1 * z2**3 *)
    let s1 := fiat_p384_mul z2 z2z2 in
    let s1 := fiat_p384_mul s1 y1 in
    (u1, s1, two_z1z2)
  else
    (* We'll assume z2 = 1 (special case z2 = 0 is handled later). *)
    let u1 := fiat_p384_copy x1 in
    let two_z1z2 := fiat_p384_add z1 z1 in
    let s1 := fiat_p384_copy y1 in
    (u1, s1, two_z1z2).

(** The values [h = u2 - u1] and [r = 2*(s2 - s1)] as the function computes
    them before it tests for the doubling case. *)
Definition point_add_h (mixed : Z) (x1 y1 z1 x2 y2 z2 : fiat_p384_felem)
  : fiat_p384_felem :=
  let z1z1 := fiat_p384_square z1 in
  let '(u1, s1, two_z1z2) := point_add_u1_s1_2z1z2 mixed x1 y1 z1 z2 z1z1 in
  let u2 := fiat_p384_mul x2 z1z1 in
  fiat_p384_sub u2 u1.

Definition point_add_r (mixed : Z) (x1 y1 z1 x2 y2 z2 : fiat_p384_felem)
  : fiat_p384_felem :=
  let z1z1 := fiat_p384_square z1 in
  let '(u1, s1, two_z1z2) := point_add_u1_s1_2z1z2 mixed x1 y1 z1 z2 z1z1 in
  let z1z1z1 := fiat_p384_mul z1 z1z1 in
  let s2 := fiat_p384_mul y2 z1z1z1 in
  let r := fiat_p384_sub s2 s1 in
  fiat_p384_add r r.

Definition fiat_p384_point_add (x1 y1 z1 : fiat_p384_felem) (mixed : Z)
    (x2 y2 z2 : fiat_p384_felem) : jac :=
  let z1nz := fiat_p384_nz z1 in
  let z2nz := fiat_p384_nz z2 in
  (* z1z1 = z1**2 *)
  let z1z1 := fiat_p384_square z1 in
  let '(u1, s1, two_z1z2) := point_add_u1_s1_2z1z2 mixed x1 y1 z1 z2 z1z1 in
  (* u2 = x2*z1z1 *)
  let u2 := fiat_p384_mul x2 z1z1 in
  (* h = u2 - u1 *)
  let h := fiat_p384_sub u2 u1 in
  let xneq := fiat_p384_nz h in
  (* z_out = two_z1z2 * h *)
  let z_out := fiat_p384_mul h two_z1z2 in
  (* z1z1z1 = z1 * z1z1 *)
  let z1z1z1 := fiat_p384_mul z1 z1z1 in
  (* s2 = y2 * z1**3 *)
  let s2 := fiat_p384_mul y2 z1z1z1 in
  (* r = (s2 - s1)*2 *)
  let r := fiat_p384_sub s2 s1 in
  let r := fiat_p384_add r r in
  let yneq := fiat_p384_nz r in
  let is_nontrivial_double :=
    Z.land (Z.land (constant_time_is_zero_w (Z.lor xneq yneq))
                   (word_not (constant_time_is_zero_w z1nz)))
           (word_not (constant_time_is_zero_w z2nz)) in
  if negb (is_nontrivial_double =? 0) then
    fiat_p384_point_double x1 y1 z1
  else
    (* I = (2h)**2 *)
    let i := fiat_p384_add h h in
    let i := fiat_p384_square i in
    (* J = h * I *)
    let j := fiat_p384_mul h i in
    (* V = U1 * I *)
    let v := fiat_p384_mul u1 i in
    (* x_out = r**2 - J - 2V *)
    let x_out := fiat_p384_square r in
    let x_out := fiat_p384_sub x_out j in
    let x_out := fiat_p384_sub x_out v in
    let x_out := fiat_p384_sub x_out v in
    (* y_out = r(V-x_out) - 2 * s1 * J *)
    let y_out := fiat_p384_sub v x_out in
    let y_out := fiat_p384_mul y_out r in
    let s1j := fiat_p384_mul s1 j in
    let y_out := fiat_p384_sub y_out s1j in
    let y_out := fiat_p384_sub y_out s1j in
    let x_out := fiat_p384_cmovznz z1nz x2 x_out in
    let x3 := fiat_p384_cmovznz z2nz x1 x_out in
    let y_out := fiat_p384_cmovznz z1nz y2 y_out in
    let y3 := fiat_p384_cmovznz z2nz y1 y_out in
    let z_out := fiat_p384_cmovznz z1nz z2 z_out in
    let z3 := fiat_p384_cmovznz z2nz z1 z_out in
    (x3, y3, z3).

(** ** Field inversion *)

(** [for (i = 0; i < n; i++) fiat_p384_square(x, x);] *)
Fixpoint square_loop (n : nat) (x : fiat_p384_felem) : fiat_p384_felem :=
  match n with
  | O => x
  | S n' => square_loop n' (fiat_p384_square x)
  end.

(** [fiat_p384_inv_square] calculates [out = in^{-2}] by the addition chain
    for the exponent [p - 3]. *)
Definition fiat_p384_inv_square (in_ : fiat_p384_felem) : fiat_p384_felem :=
  let x2 := fiat_p384_square in_ in               (* 2^2 - 2^1 *)
  let x2 := fiat_p384_mul x2 in_ in               (* 2^2 - 2^0 *)
  let x3 := fiat_p384_square x2 in                (* 2^3 - 2^1 *)
  let x3 := fiat_p384_mul x3 in_ in               (* 2^3 - 2^0 *)
  let x6 := fiat_p384_square x3 in
  let x6 := square_loop 2 x6 in                   (* 2^6 - 2^3 *)
  let x6 := fiat_p384_mul x6 x3 in                (* 2^6 - 2^0 *)
  let x12 := fiat_p384_square x6 in
  let x12 := square_loop 5 x12 in                 (* 2^12 - 2^6 *)
  let x12 := fiat_p384_mul x12 x6 in              (* 2^12 - 2^0 *)
  let x15 := fiat_p384_square x12 in
  let x15 := square_loop 2 x15 in                 (* 2^15 - 2^3 *)
  let x15 := fiat_p384_mul x15 x3 in              (* 2^15 - 2^0 *)
  let x30 := fiat_p384_square x15 in
  let x30 := square_loop 14 x30 in                (* 2^30 - 2^15 *)
  let x30 := fiat_p384_mul x30 x15 in             (* 2^30 - 2^0 *)
  let x60 := fiat_p384_square x30 in
  let x60 := square_loop 29 x60 in                (* 2^60 - 2^30 *)
  let x60 := fiat_p384_mul x60 x30 in             (* 2^60 - 2^0 *)
  let x120 := fiat_p384_square x60 in
  let x120 := square_loop 59 x120 in              (* 2^120 - 2^60 *)
  let x120 := fiat_p384_mul x120 x60 in           (* 2^120 - 2^0 *)
  let ret := fiat_p384_square x120 in
  let ret := square_loop 119 ret in               (* 2^240 - 2^120 *)
  let ret := fiat_p384_mul ret x120 in            (* 2^240 - 2^0 *)
  let ret := square_loop 15 ret in                (* 2^255 - 2^15 *)
  let ret := fiat_p384_mul ret x15 in             (* 2^255 - 2^0 *)
  let ret := square_loop (1 + 30) ret in          (* 2^286 - 2^31 *)
  let ret := fiat_p384_mul ret x30 in             (* 2^286 - 2^30 - 2^0 *)
  let ret := fiat_p384_square ret in
  let ret := fiat_p384_square ret in              (* 2^288 - 2^32 - 2^2 *)
  let ret := fiat_p384_mul ret x2 in              (* 2^288 - 2^32 - 2^0 *)
  let ret := square_loop (64 + 30) ret in         (* 2^382 - 2^126 - 2^94 *)
  let ret := fiat_p384_mul ret x30 in   (* 2^382 - 2^126 - 2^94 + 2^30 - 2^0 *)
  let ret := fiat_p384_square ret in
  fiat_p384_square ret.     (* 2^384 - 2^128 - 2^96 + 2^32 - 2^2 = p - 3 *)

(** ** EC_METHOD functions *)

(** The parts of [EC_GROUP] the functions read: the field prime, the group
    order and their difference, as the integers their words hold. *)
Record EC_GROUP : Type := mkGroup {
  field : Z;
  order : Z;
  field_minus_order : Z
}.

(** The order [n] of the P-384 group. *)
Definition n384 : Z :=
  0xffffffffffffffffffffffffffffffffffffffffffffffffc7634d81f4372ddf581a0db248b0a77aecec196accc52973.

Definition p384_group : EC_GROUP := mkGroup p384 n384 (p384 - n384).

(** Modelled from the spec: [ec_GFp_simple_is_at_infinity] of simple.c is not
    among the sources; the point at infinity is any triple with [Z = 0]. *)
Definition ec_GFp_simple_is_at_infinity (group : EC_GROUP)
    (point : EC_RAW_POINT) : bool :=
  bytes_eval (firstn 48 (Z_ point)) =? 0.

Inductive ec_error : Type := EC_R_POINT_AT_INFINITY.

(** The result of a function that returns 0 after [OPENSSL_PUT_ERROR] or 1
    with its outputs written. *)
Definition ec_return {A} (r : ec_error + A) : Z :=
  match r with inl _ => 0 | inr _ => 1 end.

(** [x_out] and [y_out] may be NULL: [want_x] and [want_y] say which are
    not; an output is [Some] when it is written. *)
Definition ec_GFp_nistp384_point_get_affine_coordinates (group : EC_GROUP)
    (point : EC_RAW_POINT) (want_x want_y : bool)
  : ec_error + (option EC_FELEM * option EC_FELEM) :=
  if ec_GFp_simple_is_at_infinity group point then
    inl EC_R_POINT_AT_INFINITY
  else
    let z1 := fiat_p384_from_generic (Z_ point) in
    let z2 := fiat_p384_inv_square z1 in
    let x_out :=
      if want_x then
        let x := fiat_p384_from_generic (X point) in
        let x := fiat_p384_mul x z2 in
        Some (fiat_p384_to_generic x)
      else None in
    let y_out :=
      if want_y then
        let y := fiat_p384_from_generic (Y point) in
        let z2 := fiat_p384_square z2 in  (* z^-4 *)
        let y := fiat_p384_mul y z1 in    (* y * z *)
        let y := fiat_p384_mul y z2 in    (* y * z^-3 *)
        Some (fiat_p384_to_generic y)
      else None in
    inr (x_out, y_out).

Definition ec_GFp_nistp384_add (group : EC_GROUP) (a b : EC_RAW_POINT)
  : EC_RAW_POINT :=
  let x1 := fiat_p384_from_generic (X a) in
  let y1 := fiat_p384_from_generic (Y a) in
  let z1 := fiat_p384_from_generic (Z_ a) in
  let x2 := fiat_p384_from_generic (X b) in
  let y2 := fiat_p384_from_generic (Y b) in
  let z2 := fiat_p384_from_generic (Z_ b) in
  let '(x1, y1, z1) := fiat_p384_point_add x1 y1 z1 0 x2 y2 z2 in
  mkPoint (fiat_p384_to_generic x1) (fiat_p384_to_generic y1)
          (fiat_p384_to_generic z1).

Definition ec_GFp_nistp384_dbl (group : EC_GROUP) (a : EC_RAW_POINT)
  : EC_RAW_POINT :=
  let x := fiat_p384_from_generic (X a) in
  let y := fiat_p384_from_generic (Y a) in
  let z := fiat_p384_from_generic (Z_ a) in
  let '(x, y, z) := fiat_p384_point_double x y z in
  mkPoint (fiat_p384_to_generic x) (fiat_p384_to_generic y)
          (fiat_p384_to_generic z).

(** [OPENSSL_memcmp(&a, &b, sizeof(a)) == 0] on two limb arrays. *)
Definition felem_memeq (a b : fiat_p384_felem) : bool :=
  if list_eq_dec Z.eq_dec (firstn FIAT_P384_NLIMBS a)
                          (firstn FIAT_P384_NLIMBS b)
  then true else false.

(** Modelled from the spec: [bn_less_than_words] and [bn_add_words] of
    crypto/fipsmodule/bn are not among the sources; they compare and add the
    integers held by [width] words (here six words, 48 bytes), the sum
    dropping its carry. *)
Definition bn_less_than_words (a : list Z) (b : Z) : bool :=
  bytes_eval (firstn 48 a) <? b.
Definition bn_add_words (a : list Z) (b : Z) : list Z :=
  bytes_of 48 ((bytes_eval (firstn 48 a) + b) mod 2 ^ 384).

Definition ec_GFp_nistp384_cmp_x_coordinate (group : EC_GROUP)
    (p : EC_RAW_POINT) (r : EC_SCALAR) : Z :=
  if ec_GFp_simple_is_at_infinity group p then 0
  else
    (* We wish to compare X/Z^2 with r.  This is equivalent to comparing X
       with r*Z^2.  X and Z are in Montgomery form, r is not. *)
    let Z2_mont := fiat_p384_from_generic (Z_ p) in
    let Z2_mont := fiat_p384_mul Z2_mont Z2_mont in
    let r_Z2 := fiat_p384_from_bytes r in
    let r_Z2 := fiat_p384_mul r_Z2 Z2_mont in
    let X_ := fiat_p384_from_generic (X p) in
    let X_ := fiat_p384_from_montgomery X_ in
    if felem_memeq r_Z2 X_ then 1
    else
      if bn_less_than_words r (field_minus_order group) then
        let tmp := bn_add_words r (order group) in
        let r_Z2 := fiat_p384_from_generic tmp in
        let r_Z2 := fiat_p384_mul r_Z2 Z2_mont in
        if felem_memeq r_Z2 X_ then 1 else 0
      else 0.

(** ** Scalar recoding *)

Definition bind {A B : Type} (c : option A) (k : A -> option B) : option B :=
  match c with
  | Some a => k a
  | None => None
  end.

Notation "x <- c ;; k" := (bind c (fun x => k))
  (at level 61, c at next level, right associativity).
Notation "' pat <- c ;; k" :=
  (bind c (fun x => match x with pat => k end))
  (at level 61, pat pattern, c at next level, right associativity).

(** [in[k]]: a read outside the buffer is [None]. *)
Definition read_byte (inb : list Z) (k : Z) : option Z :=
  if k <? 0 then None else nth_error inb (Z.to_nat k).

(** [out[i] = v]: a write outside the buffer is [None]. *)
Fixpoint write_at (out : list Z) (i : nat) (v : Z) : option (list Z) :=
  match out, i with
  | [], _ => None
  | _ :: t, O => Some (v :: t)
  | h :: t, S i' => t' <- write_at t i' v ;; Some (h :: t')
  end.

(** [fiat_p384_get_bit] returns the [i]-th bit in [in]. *)
Definition fiat_p384_get_bit (inb : list Z) (i : Z) : option Z :=
  if (i <? 0) || (i >=? 384) then Some 0
  else
    b <- read_byte inb (Z.shiftr i 3) ;;
    Some (Z.land (Z.shiftr b (Z.land i 7)) 1).

Definition FIAT_P384_SCALAR_RADIX : Z := 5.
Definition FIAT_P384_SCALAR_DRADIX : Z := Z.shiftl 1 FIAT_P384_SCALAR_RADIX.
Definition FIAT_P384_SCALAR_DRADIX_WNAF : Z :=
  Z.shiftl FIAT_P384_SCALAR_DRADIX 1.
Definition FIAT_P384_MUL_TABLE_SIZE : Z :=
  Z.shiftr FIAT_P384_SCALAR_DRADIX 1.

(** [window += w] for an [int8_t window] and a [crypto_word_t w]: the sum is
    taken in [crypto_word_t] and converted back. *)
Definition window_add (window w : Z) : Z :=
  to_int8 (to_word (to_word window + w)).

(** One iteration of the loop of [fiat_p384_mul_scalar_rwnaf]. *)
Definition rwnaf_step (inb : list Z) (i : Z) (st : Z * list Z)
  : option (Z * list Z) :=
  let '(window, out) := st in
  let d := to_int8 (Z.land window (FIAT_P384_SCALAR_DRADIX_WNAF - 1)
                    - FIAT_P384_SCALAR_DRADIX) in
  out <- write_at out (Z.to_nat i) d ;;
  let window := to_int8 (Z.shiftr (window - d) FIAT_P384_SCALAR_RADIX) in
  b <- fiat_p384_get_bit inb ((i + 1) * FIAT_P384_SCALAR_RADIX + 1) ;;
  let window := window_add window (to_word (Z.shiftl b 1)) in
  b <- fiat_p384_get_bit inb ((i + 1) * FIAT_P384_SCALAR_RADIX + 2) ;;
  let window := window_add window (to_word (Z.shiftl b 2)) in
  b <- fiat_p384_get_bit inb ((i + 1) * FIAT_P384_SCALAR_RADIX + 3) ;;
  let window := window_add window (to_word (Z.shiftl b 3)) in
  b <- fiat_p384_get_bit inb ((i + 1) * FIAT_P384_SCALAR_RADIX + 4) ;;
  let window := window_add window (to_word (Z.shiftl b 4)) in
  b <- fiat_p384_get_bit inb ((i + 1) * FIAT_P384_SCALAR_RADIX + 5) ;;
  let window := window_add window (to_word (Z.shiftl b 5)) in
  Some (window, out).

(** [for (i = from; i < from + n; i++) body]. *)
Fixpoint for_loop {S : Type} (body : Z -> S -> option S) (n : nat) (from : Z)
    (st : S) : option S :=
  match n with
  | O => Some st
  | S n' => st' <- body from st ;; for_loop body n' (from + 1) st'
  end.

(** Compute the "regular" wNAF representation of a scalar: [out] is the
    caller's buffer, the result is the buffer after the call. *)
Definition fiat_p384_mul_scalar_rwnaf (out : list Z) (inb : list Z)
  : option (list Z) :=
  in0 <- read_byte inb 0 ;;
  let window :=
    to_int8 (Z.lor (Z.land in0 (FIAT_P384_SCALAR_DRADIX_WNAF - 1)) 1) in
  '(window, out) <- for_loop (rwnaf_step inb) 76 0 (window, out) ;;
  write_at out 76 window.

(** One iteration of the loop of [fiat_p384_mul_scalar_wnaf]. *)
Definition wnaf_step (inb : list Z) (i : Z) (st : Z * list Z)
  : option (Z * list Z) :=
  let '(window, out) := st in
  let d := 0 in
  let d :=
    if negb (Z.land window 1 =? 0) then
      let d := to_int8 (Z.land window (FIAT_P384_SCALAR_DRADIX_WNAF - 1)) in
      if negb (Z.land d FIAT_P384_SCALAR_DRADIX =? 0) then
        to_int8 (d - FIAT_P384_SCALAR_DRADIX_WNAF)
      else d
    else d in
  out <- write_at out (Z.to_nat i) d ;;
  let window := to_int8 (Z.shiftr (window - d) 1) in
  b <- fiat_p384_get_bit inb (i + 1 + FIAT_P384_SCALAR_RADIX) ;;
  let window :=
    window_add window (to_word (Z.shiftl b FIAT_P384_SCALAR_RADIX)) in
  Some (window, out).

(** Compute the "textbook" wNAF representation of a scalar. *)
Definition fiat_p384_mul_scalar_wnaf (out : list Z) (inb : list Z)
  : option (list Z) :=
  in0 <- read_byte inb 0 ;;
  let window := to_int8 (Z.land in0 (FIAT_P384_SCALAR_DRADIX_WNAF - 1)) in
  '(window, out) <- for_loop (wnaf_step inb) 385 0 (window, out) ;;
  Some out.

(** ** Constant-time table lookups *)

(** [OPENSSL_memset(out, 0, sizeof(fiat_p384_felem))]. *)
Definition felem_zero : fiat_p384_felem := repeat 0 FIAT_P384_NLIMBS.

(** [fiat_p384_select_point] selects the [idx]-th projective point of the
    table; entry [i] of the table is read for every [i < table_size]. *)
Fixpoint select_point_loop (n : nat) (i : Z) (idx : Z) (table : list jac)
    (out : jac) : jac :=
  match n with
  | O => out
  | S n' =>
      let '(o0, o1, o2) := out in
      let '(t0, t1, t2) := nth (Z.to_nat i) table
                             (felem_zero, felem_zero, felem_zero) in
      let mismatch := Z.lxor i idx in
      let o0 := fiat_p384_cmovznz mismatch t0 o0 in
      let o1 := fiat_p384_cmovznz mismatch t1 o1 in
      let o2 := fiat_p384_cmovznz mismatch t2 o2 in
      select_point_loop n' (i + 1) idx table (o0, o1, o2)
  end.

Definition fiat_p384_select_point (idx : Z) (table : list jac)
    (table_size : Z) : jac :=
  select_point_loop (Z.to_nat table_size) 0 idx table
    (felem_zero, felem_zero, felem_zero).

Definition aff : Type := (fiat_p384_felem * fiat_p384_felem)%type.

Fixpoint select_point_affine_loop (n : nat) (i : Z) (idx : Z)
    (table : list aff) (out : aff) : aff :=
  match n with
  | O => out
  | S n' =>
      let '(o0, o1) := out in
      let '(t0, t1) := nth (Z.to_nat i) table (felem_zero, felem_zero) in
      let mismatch := Z.lxor i idx in
      let o0 := fiat_p384_cmovznz mismatch t0 o0 in
      let o1 := fiat_p384_cmovznz mismatch t1 o1 in
      select_point_affine_loop n' (i + 1) idx table (o0, o1)
  end.

Definition fiat_p384_select_point_affine (idx : Z) (table : list aff)
    (table_size : Z) : aff :=
  select_point_affine_loop (Z.to_nat table_size) 0 idx table
    (felem_zero, felem_zero).

(** ** Reference sequences for the recodings *)

(** Bit [i] of [s]. *)
Definition bit (s i : Z) : Z := (s / 2 ^ i) mod 2.

(** Value of a digit string in radix [b], least significant digit first. *)
Fixpoint digits_eval (b : Z) (ds : list Z) : Z :=
  match ds with
  | [] => 0
  | d :: ds' => d + b * digits_eval b ds'
  end.

(** The window of the regular recoding before digit [i]: bit 0 forced to 1,
    bits 1..5 the bits [5i+1 .. 5i+5] of the scalar. *)
Definition rwnaf_window (s : Z) (i : Z) : Z :=
  1 + 2 * ((s / 2 ^ (5 * i + 1)) mod 32).

Definition rwnaf_digit (s : Z) (i : Z) : Z := rwnaf_window s i - 32.

Definition rwnaf_digits (s : Z) : list Z :=
  map (fun k => rwnaf_digit s (Z.of_nat k)) (seq 0 76) ++ [rwnaf_window s 76].

(** The digit the textbook recoding takes out of a window. *)
Definition wnaf_digit_of (window : Z) : Z :=
  if Z.odd window then
    if window mod 64 <? 32 then window mod 64 else window mod 64 - 64
  else 0.

(** The window of the textbook recoding before digit [i]. *)
Fixpoint wnaf_window (s : Z) (i : nat) : Z :=
  match i with
  | O => s mod 64
  | S i' =>
      let w := wnaf_window s i' in
      (w - wnaf_digit_of w) / 2 + 32 * bit s (Z.of_nat i' + 6)
  end.

Definition wnaf_digit (s : Z) (i : nat) : Z := wnaf_digit_of (wnaf_window s i).

Definition wnaf_digits (s : Z) : list Z := map (wnaf_digit s) (seq 0 385).

(** What one step does to a window in [0, 64]. *)
Definition wnaf_step_facts (w : Z) : bool :=
  let d := wnaf_digit_of w in
  let f := (w - d) / 2 in
  (* the digit is zero or odd in [-31, 31] *)
  ((d =? 0) || (Z.odd d && (-31 <=? d) && (d <=? 31)))
  (* the difference is even and its half is in [0, 32] *)
  && (2 * f =? w - d) && (0 <=? f) && (f <=? 32)
  (* a non-zero digit leaves a multiple of 64 *)
  && ((d =? 0) || ((w - d) mod 64 =? 0))
  (* an even window gives the digit zero *)
  && (Z.odd w || (d =? 0))
  (* a window of at most 32 at most halves *)
  && ((32 <? w) || (f <=? w / 2)).

(** A 48-byte scalar buffer. *)
Definition scalar_ok (inb : list Z) : Prop :=
  length inb = 48%nat /\ Forall (fun b => 0 <= b < 256) inb.


(** Boolean form of [scalar_ok]. *)
Definition scalar_okb (inb : list Z) : bool :=
  (length inb =? 48)%nat && forallb (fun b => (0 <=? b) && (b <? 256)) inb.

(** The scalar of the CAVP vector, as 48 little-endian bytes. *)
Definition cavp_scalar : list Z :=
  bytes_of 48
    0xa4ebcae5a665983493ab3e626085a24c104311a761b5a8fdac052ed1f111a5c44aa32a62a4e3a0b8e1dc4a1e84c3c44d.


(** ** Primality certificates *)

(** Trial division: [d], [d+1], ... until [d*d > n]. *)
Fixpoint trial_division (fuel : nat) (d n : Z) : bool :=
  match fuel with
  | O => false
  | S fuel' =>
      if n <? d * d then true
      else if n mod d =? 0 then false
      else trial_division fuel' (d + 1) n
  end.

Definition prime_by_trial (n : Z) : bool :=
  (1 <? n) && trial_division (Z.to_nat (Z.sqrt n)) 2 n.

(** One line of a Pocklington certificate for [N]: a prime [q] dividing
    [N - 1] and a base [a], with [c = a^((N-1)/q)]: [c^q = 1] and
    [gcd (c - 1, N) = 1]. *)
Definition pock_line (N : Z) (qa : Z * Z) : bool :=
  let '(q, a) := qa in
  let c := Zpow_mod a ((N - 1) / q) N in
  ((N - 1) mod q =? 0) && (Zpow_mod c q N =? 1) && (Z.gcd (c - 1) N =? 1).

Definition not_square (d : Z) : bool :=
  (d <? 0) || negb (Z.sqrt d * Z.sqrt d =? d).

(** The certificate is accepted when the certified part [L] of [N - 1]
    exceeds the cube root of [N] and [N] cannot be a product
    [(a L + 1) (b L + 1)]. *)
Definition pock_check (N : Z) (cert : list (Z * Z)) : bool :=
  let L := fold_right Z.lcm 1 (map fst cert) in
  let R := (N - 1) / L in
  let s := R / L in
  let r := R mod L in
  (1 <? N) && forallb (pock_line N) cert
  && ((N - 1) mod L =? 0) && (N <? L * L * L)
  && ((s =? 0) || (negb (r =? 0) && not_square (r * r - 4 * s))).

(** A chain of certificates: each number is certified by trial division
    (empty certificate) or by Pocklington lines whose primes come earlier in
    the chain. *)
Fixpoint check_chain (known : list Z) (chain : list (Z * list (Z * Z)))
  : bool :=
  match chain with
  | [] => true
  | (N, cert) :: rest =>
      (match cert with
       | [] => prime_by_trial N
       | _ => forallb (fun qa => existsb (Z.eqb (fst qa)) known) cert
              && pock_check N cert
       end)
      && check_chain (N :: known) rest
  end.

Definition p384_certificate : list (Z * list (Z * Z)) :=
  [
    (105957871,
     []);
    (529709925838459440593,
     [(105957871, 2)]);
    (513928823,
     []);
    (53448597593,
     [(513928823, 2)]);
    (1357291859799823621,
     [(53448597593, 2)]);
    (19173790298027098165721053155794528970226934547887232785722672956982046098136719667167519737147526097,
     [(529709925838459440593, 2); (1357291859799823621, 2)]);
    (p384,
     [(19173790298027098165721053155794528970226934547887232785722672956982046098136719667167519737147526097, 2)])
  ].

(** ** The field of residues modulo [p] and Montgomery forms *)

Abbreviation Fp := (Zmod p384).

(** The field element a limb array in Montgomery form stands for. *)
Definition fval (a : fiat_p384_felem) : Fp :=
  Zmod.of_Z p384 (feval a * mont_Rinv).

(** The field element of an [EC_FELEM] holding a Montgomery form. *)
Definition bval (bs : EC_FELEM) : Fp := fval (fiat_p384_from_generic bs).

Definition Rinv_F : Fp := Zmod.of_Z p384 mont_Rinv.

(** [e] doubled [n] times. *)
Fixpoint double_n (n : nat) (e : positive) : positive :=
  match n with
  | O => e
  | S n' => double_n n' (e~0)
  end.

(** [a] stands for the power [x^e]. *)
Definition is_pow (x : Fp) (a : fiat_p384_felem) (e : positive) : Prop :=
  fval a = Zmod.pow x (Z.pos e).

(** A well-formed [EC_FELEM]: 48 bytes holding a value below [p]. *)
Definition felem_bytes_ok (bs : EC_FELEM) : Prop :=
  scalar_ok bs /\ bytes_eval bs < p384.

Definition point_ok (P : EC_RAW_POINT) : Prop :=
  felem_bytes_ok (X P) /\ felem_bytes_ok (Y P) /\ felem_bytes_ok (Z_ P).

(** The affine x-coordinate [X/Z^2] of a Jacobian point. *)
Definition affine_x (P : EC_RAW_POINT) : Fp :=
  Zmod.mdiv (bval (X P)) (Zmod.pow (bval (Z_ P)) 2).

(** Boolean form of [felem_bytes_ok]. *)
Definition felem_bytes_okb (bs : EC_FELEM) : bool :=
  scalar_okb bs && (bytes_eval bs <? p384).

(** A sample point (not on the curve) with [Z <> 0]: the Montgomery forms
    5, 7 and 3. *)
Definition sample_point : EC_RAW_POINT :=
  mkPoint (fiat_p384_to_generic (fe 5)) (fiat_p384_to_generic (fe 7))
          (fiat_p384_to_generic (fe 3)).


(** The all-zero entries written by [OPENSSL_memset]. *)
Definition jac_zero : jac := (felem_zero, felem_zero, felem_zero).
Definition aff_zero : aff := (felem_zero, felem_zero).

(** ** The affine addition law *)

(** An affine point of the curve [y^2 = x^3 - 3 x + b]: [None] is the point
    at infinity. *)
Definition affine : Type := option (Fp * Fp).

Definition F_two : Fp := (1 + 1)%Zmod.
Definition F_three : Fp := (1 + 1 + 1)%Zmod.

(** The affine point a Jacobian triple [(X, Y, Z)] of Montgomery forms stands
    for: [(X/Z^2, Y/Z^3)], the point at infinity when [Z = 0]. *)
Definition to_affine (P : jac) : affine :=
  let '(x, y, z) := P in
  if Zmod.eqb (fval z) Zmod.zero then None
  else Some (Zmod.mdiv (fval x) (fval z * fval z)%Zmod,
             Zmod.mdiv (fval y) (fval z * fval z * fval z)%Zmod).

(** The tangent rule for [a = -3]. *)
Definition affine_double (P : affine) : affine :=
  match P with
  | None => None
  | Some (x, y) =>
      if Zmod.eqb y Zmod.zero then None
      else
        let l := Zmod.mdiv (F_three * (x * x - 1))%Zmod (F_two * y)%Zmod in
        let x3 := (l * l - x - x)%Zmod in
        Some (x3, (l * (x - x3) - y)%Zmod)
  end.

(** The chord rule, the tangent rule for equal points, the point at infinity
    for points with the same [x] otherwise. *)
Definition affine_add (P Q : affine) : affine :=
  match P, Q with
  | None, _ => Q
  | _, None => P
  | Some (x1, y1), Some (x2, y2) =>
      if Zmod.eqb x1 x2 then
        if Zmod.eqb y1 y2 then affine_double P else None
      else
        let l := Zmod.mdiv (y2 - y1)%Zmod (x2 - x1)%Zmod in
        let x3 := (l * l - x1 - x2)%Zmod in
        Some (x3, (l * (x1 - x3) - y1)%Zmod)
  end.

(** The affine point of an [EC_RAW_POINT]. *)
Definition affine_of (P : EC_RAW_POINT) : affine :=
  to_affine (fiat_p384_from_generic (X P), fiat_p384_from_generic (Y P),
             fiat_p384_from_generic (Z_ P)).

(** ** Scalar multiplication *)

(** [in[k]] on an array of any element type. *)
Definition read_at {A : Type} (l : list A) (k : Z) : option A :=
  if k <? 0 then None else nth_error l (Z.to_nat k).

(** [for (i = n - 1; i < n; i--) body] on a [size_t i]: the indices
    [n - 1], ..., [0]. *)
Fixpoint for_loop_down {S : Type} (body : Z -> S -> option S) (n : nat)
    (st : S) : option S :=
  match n with
  | O => Some st
  | S n' => st' <- body (Z.of_nat n') st ;; for_loop_down body n' st'
  end.

(** [fiat_p384_point_double(res, res)], [n] times. *)
Fixpoint double_loop (n : nat) (res : jac) : jac :=
  match n with
  | O => res
  | S n' =>
      let '(x, y, z) := res in
      double_loop n' (fiat_p384_point_double x y z)
  end.

(** The loop that generates the remaining multiples of P:
    [p_pre_comp[i] = tmp + p_pre_comp[i - 1]]. *)
Fixpoint pre_comp_loop (n : nat) (tmp prev : jac) : list jac :=
  match n with
  | O => []
  | S n' =>
      let '(t0, t1, t2) := tmp in
      let '(p0, p1, p2) := prev in
      let e := fiat_p384_point_add t0 t1 t2 0 p0 p1 p2 in
      e :: pre_comp_loop n' tmp e
  end.

(** The table [p_pre_comp] of multiples of P: [2i + 1]P for [i] in
    [0, 15]. *)
Definition p_pre_comp (x y z : fiat_p384_felem) : list jac :=
  (* Compute tmp = [2]P. *)
  let tmp := fiat_p384_point_double x y z in
  (x, y, z) :: pre_comp_loop (Z.to_nat FIAT_P384_MUL_TABLE_SIZE - 1) tmp (x, y, z).

(** The sign and the table index of a digit, in constant time:
    [is_neg = (d >> 7) & 1; d = (d ^ -is_neg) + is_neg; idx = d >> 1]. *)
Definition digit_sign_idx (d : Z) : Z * Z :=
  let is_neg := to_int8 (Z.land (Z.shiftr d 7) 1) in
  let d := to_int8 (Z.lxor d (- is_neg) + is_neg) in
  let idx := to_int8 (Z.shiftr d 1) in
  (is_neg, idx).

(** One iteration of the main loop of [ec_GFp_nistp384_point_mul]. *)
Definition point_mul_step (rnaf : list Z) (table : list jac) (i : Z)
    (res : jac) : option jac :=
  (* Double res 5 times in each iteration. *)
  let res := double_loop (Z.to_nat FIAT_P384_SCALAR_RADIX) res in
  d <- read_at rnaf i ;;
  let '(is_neg, idx) := digit_sign_idx d in
  (* Select the point to add, in constant time. *)
  let '(t0, t1, t2) :=
    fiat_p384_select_point (to_word idx) table FIAT_P384_MUL_TABLE_SIZE in
  (* Negate y coordinate of the point tmp = (x, y); ftmp = -y. *)
  let ftmp := fiat_p384_opp t1 in
  (* Conditionally select y or -y depending on the sign of the digit. *)
  let t1 := fiat_p384_cmovznz (to_word is_neg) t1 ftmp in
  (* Add the point to the accumulator res. *)
  let '(r0, r1, r2) := res in
  Some (fiat_p384_point_add r0 r1 r2 0 t0 t1 t2).

(** Multiplication of a point by a scalar, [r = [scalar]P]. *)
Definition ec_GFp_nistp384_point_mul (group : EC_GROUP) (p : EC_RAW_POINT)
    (scalar : EC_SCALAR) : option EC_RAW_POINT :=
  (* Set the first point in the table to P. *)
  let x := fiat_p384_from_generic (X p) in
  let y := fiat_p384_from_generic (Y p) in
  let z := fiat_p384_from_generic (Z_ p) in
  let table := p_pre_comp x y z in
  (* Recode the scalar. *)
  rnaf <- fiat_p384_mul_scalar_rwnaf (repeat 0 77%nat) scalar ;;
  (* Initialize the accumulator with the table entry of the most
     significant digit. *)
  d76 <- read_at rnaf 76 ;;
  let idx := to_int8 (Z.shiftr d76 1) in
  let res :=
    fiat_p384_select_point (to_word idx) table FIAT_P384_MUL_TABLE_SIZE in
  (* Process the remaining digits of the scalar. *)
  res <- for_loop_down (point_mul_step rnaf table) 76 res ;;
  (* Conditionally subtract P if the scalar is even: tmp = res + (-P). *)
  let tmp0 := fiat_p384_copy x in
  let tmp1 := fiat_p384_opp y in
  let tmp2 := fiat_p384_copy z in
  let '(r0, r1, r2) := res in
  let '(tmp0, tmp1, tmp2) :=
    fiat_p384_point_add r0 r1 r2 0 tmp0 tmp1 tmp2 in
  (* Select res or tmp based on the scalar parity. *)
  s0 <- read_byte scalar 0 ;;
  let r0 := fiat_p384_cmovznz (Z.land s0 1) tmp0 r0 in
  let r1 := fiat_p384_cmovznz (Z.land s0 1) tmp1 r1 in
  let r2 := fiat_p384_cmovznz (Z.land s0 1) tmp2 r2 in
  (* Copy the result to the output. *)
  Some (mkPoint (fiat_p384_to_generic r0) (fiat_p384_to_generic r1)
                (fiat_p384_to_generic r2)).

(** *** The double-and-add ladder on affine points *)

Definition affine_opp (P : affine) : affine :=
  match P with
  | None => None
  | Some (x, y) => Some (x, Zmod.opp y)
  end.

Fixpoint affine_double_n (n : nat) (P : affine) : affine :=
  match n with
  | O => P
  | S n' => affine_double_n n' (affine_double P)
  end.

(** The odd multiples [P, 3P, 5P, ...] as the table builds them:
    each entry is [2P] plus the entry before. *)
Fixpoint affine_multiples (n : nat) (P2 prev : affine) : list affine :=
  match n with
  | O => []
  | S n' =>
      let e := affine_add P2 prev in
      e :: affine_multiples n' P2 e
  end.

Definition affine_pre_comp (P : affine) : list affine :=
  P :: affine_multiples 15 (affine_double P) P.

(** The point an odd digit [d] stands for: entry [(|d| - 1) / 2] of the
    table, negated when [d < 0]. *)
Definition affine_digit (T : list affine) (d : Z) : affine :=
  let Q := nth (Z.to_nat ((Z.abs d - 1) / 2)) T None in
  if d <? 0 then affine_opp Q else Q.

(** The digits [n - 1], ..., [0] of the ladder: five doublings, then the
    point of the digit is added. *)
Fixpoint affine_ladder (T : list affine) (ds : list Z) (n : nat)
    (acc : affine) : affine :=
  match n with
  | O => acc
  | S n' =>
      affine_ladder T ds n'
        (affine_add (affine_double_n 5 acc) (affine_digit T (nth n' ds 0)))
  end.

(** The algorithm of [ec_GFp_nistp384_point_mul] on affine points: the
    ladder over the regular-wNAF digits of [s], then [- P] is added when [s]
    is even. *)
Definition affine_point_mul (P : affine) (s : Z) : affine :=
  let T := affine_pre_comp P in
  let ds := rwnaf_digits s in
  let acc := affine_ladder T ds 76 (affine_digit T (nth 76 ds 0)) in
  if Z.odd s then acc else affine_add acc (affine_opp P).

(** A Jacobian triple of well-formed field elements. *)
Definition jac_ok (P : jac) : Prop :=
  let '(x, y, z) := P in felem_ok x /\ felem_ok y /\ felem_ok z.

(** *** Multiplication of the base point *)

(** [for (j = from; j < stop; j += step) body]; [fuel] bounds the number of
    iterations, the loop has no result when it is too small. *)
Fixpoint for_loop_step {S : Type} (body : Z -> S -> option S) (fuel : nat)
    (j stop step : Z) (st : S) : option S :=
  if j <? stop then
    match fuel with
    | O => None
    | S fuel' =>
        st' <- body j st ;; for_loop_step body fuel' (j + step) stop step st'
    end
  else Some st.

(** One digit of [ec_GFp_nistp384_point_mul_base]: the point of digit [j] is
    read from sub-table [j / 4] and added to [res].  The table
    [fiat_p384_g_pre_comp] of p384_table.h is not among the sources: it is
    the parameter [g_pre_comp]. *)
Definition point_mul_base_step (g_pre_comp : list (list aff))
    (rnaf : list Z) (j : Z) (res : jac) : option jac :=
  d <- read_at rnaf j ;;
  let '(is_neg, idx) := digit_sign_idx d in
  (* Select the point to add, in constant time. *)
  subtable <- read_at g_pre_comp (j / 4) ;;
  let '(t0, t1) := fiat_p384_select_point_affine (to_word idx) subtable 16 in
  (* Negate y coordinate of the point tmp = (x, y); ftmp = -y. *)
  let ftmp := fiat_p384_opp t1 in
  (* Conditionally select y or -y depending on the sign of the digit. *)
  let t1 := fiat_p384_cmovznz (to_word is_neg) t1 ftmp in
  (* Add the point to the accumulator res. *)
  let '(r0, r1, r2) := res in
  Some (fiat_p384_point_add r0 r1 r2 1 t0 t1 fiat_p384_one).

(** One group of digits: [res] is doubled five times except for the first
    group, then the digits [i], [i + 4], ... are processed. *)
Definition point_mul_base_group (g_pre_comp : list (list aff))
    (rnaf : list Z) (i : Z) (res : jac) : option jac :=
  let res :=
    if negb (i =? 3) then double_loop (Z.to_nat FIAT_P384_SCALAR_RADIX) res
    else res in
  for_loop_step (point_mul_base_step g_pre_comp rnaf) 20 i 77 4 res.

(** Multiplication of the base point G of the P-384 curve with the given
    scalar, by the comb method. *)
Definition ec_GFp_nistp384_point_mul_base (g_pre_comp : list (list aff))
    (group : EC_GROUP) (scalar : EC_SCALAR) : option EC_RAW_POINT :=
  let res := (felem_zero, felem_zero, felem_zero) in
  (* Recode the scalar. *)
  rnaf <- fiat_p384_mul_scalar_rwnaf (repeat 0 77%nat) scalar ;;
  (* Process the 4 groups of digits starting from group (3) down to
     group (0). *)
  res <- for_loop_down (point_mul_base_group g_pre_comp rnaf) 4 res ;;
  (* Conditionally subtract G if the scalar is even: tmp = res + (-G). *)
  sub0 <- read_at g_pre_comp 0 ;;
  '(g0, g1) <- read_at sub0 0 ;;
  let tmp0 := fiat_p384_copy g0 in
  let tmp1 := fiat_p384_opp g1 in
  let '(r0, r1, r2) := res in
  let '(tmp0, tmp1, tmp2) :=
    fiat_p384_point_add r0 r1 r2 1 tmp0 tmp1 fiat_p384_one in
  (* Select res or tmp based on the scalar parity. *)
  s0 <- read_byte scalar 0 ;;
  let r0 := fiat_p384_cmovznz (Z.land s0 1) tmp0 r0 in
  let r1 := fiat_p384_cmovznz (Z.land s0 1) tmp1 r1 in
  let r2 := fiat_p384_cmovznz (Z.land s0 1) tmp2 r2 in
  (* Copy the result to the output. *)
  Some (mkPoint (fiat_p384_to_generic r0) (fiat_p384_to_generic r1)
                (fiat_p384_to_generic r2)).

(** *** Multiplication with public scalars *)

(** The sign and the table index of a non-zero digit:
    [is_neg = d < 0 ? 1 : 0; idx = is_neg ? (-d - 1) >> 1 : (d - 1) >> 1]. *)
Definition digit_sign_idx_vartime (d : Z) : Z * Z :=
  let is_neg := if d <? 0 then 1 else 0 in
  let idx :=
    to_int8 (if negb (is_neg =? 0) then Z.shiftr (- d - 1) 1
             else Z.shiftr (d - 1) 1) in
  (is_neg, idx).

(** "Process the p_scalar digit": the point of a non-zero digit [d] is
    copied into [res] when [res_is_inf] is set, and added otherwise. *)
Definition point_mul_public_p_digit (p_pre_comp : list jac) (d : Z)
    (st : jac * Z) : option (jac * Z) :=
  let '(res, res_is_inf) := st in
  if negb (d =? 0) then
    let '(is_neg, idx) := digit_sign_idx_vartime d in
    '(e0, e1, e2) <- read_at p_pre_comp idx ;;
    if negb (res_is_inf =? 0) then
      (* res is point-at-infinity: simply copy the new point. *)
      Some ((fiat_p384_copy e0, fiat_p384_copy e1, fiat_p384_copy e2), 0)
    else
      (* Otherwise add the point of the table or its negation. *)
      let ftmp :=
        if negb (is_neg =? 0) then fiat_p384_opp e1
        else fiat_p384_copy e1 in
      let '(r0, r1, r2) := res in
      Some (fiat_p384_point_add r0 r1 r2 0 e0 ftmp e2, res_is_inf)
  else Some (res, res_is_inf).

(** "Process the g_scalar digit": the same with the first sub-table of
    [fiat_p384_g_pre_comp], whose entries are affine. *)
Definition point_mul_public_g_digit (g_pre_comp : list (list aff)) (d : Z)
    (st : jac * Z) : option (jac * Z) :=
  let '(res, res_is_inf) := st in
  if negb (d =? 0) then
    let '(is_neg, idx) := digit_sign_idx_vartime d in
    sub0 <- read_at g_pre_comp 0 ;;
    '(e0, e1) <- read_at sub0 idx ;;
    if negb (res_is_inf =? 0) then
      Some ((fiat_p384_copy e0, fiat_p384_copy e1,
             fiat_p384_copy fiat_p384_one), 0)
    else
      let ftmp :=
        if negb (is_neg =? 0) then fiat_p384_opp e1
        else fiat_p384_copy e1 in
      let '(r0, r1, r2) := res in
      Some (fiat_p384_point_add r0 r1 r2 1 e0 ftmp fiat_p384_one, res_is_inf)
  else Some (res, res_is_inf).

(** One iteration of the loop of [ec_GFp_nistp384_point_mul_public]; the
    state is [res] and the flag [res_is_inf]. *)
Definition point_mul_public_step (g_pre_comp : list (list aff))
    (p_pre_comp : list jac) (p_wnaf g_wnaf : list Z) (i : Z)
    (st : jac * Z) : option (jac * Z) :=
  let '(res, res_is_inf) := st in
  (* If res is point-at-infinity there is no point in doubling so skip it. *)
  let res :=
    if negb (lnot res_is_inf =? 0) then
      let '(r0, r1, r2) := res in fiat_p384_point_double r0 r1 r2
    else res in
  (* Process the p_scalar digit. *)
  d <- read_at p_wnaf i ;;
  st <- point_mul_public_p_digit p_pre_comp d (res, res_is_inf) ;;
  (* Process the g_scalar digit. *)
  d <- read_at g_wnaf i ;;
  point_mul_public_g_digit g_pre_comp d st.

(** Computes [[g_scalar]G + [p_scalar]P]. *)
Definition ec_GFp_nistp384_point_mul_public (g_pre_comp : list (list aff))
    (group : EC_GROUP) (g_scalar : EC_SCALAR) (p : EC_RAW_POINT)
    (p_scalar : EC_SCALAR) : option EC_RAW_POINT :=
  let res := (felem_zero, felem_zero, felem_zero) in
  (* Set the first point in the table to P. *)
  let x := fiat_p384_from_generic (X p) in
  let y := fiat_p384_from_generic (Y p) in
  let z := fiat_p384_from_generic (Z_ p) in
  let table := p_pre_comp x y z in
  (* Recode the scalars. *)
  p_wnaf <- fiat_p384_mul_scalar_wnaf (repeat 0 385%nat) p_scalar ;;
  g_wnaf <- fiat_p384_mul_scalar_wnaf (repeat 0 385%nat) g_scalar ;;
  (* In the beginning res is set to point-at-infinity so we set the flag. *)
  let res_is_inf := 1 in
  '(res, res_is_inf) <-
    for_loop_down (point_mul_public_step g_pre_comp table p_wnaf g_wnaf)
      385 (res, res_is_inf) ;;
  (* Copy the result to the output. *)
  let '(r0, r1, r2) := res in
  Some (mkPoint (fiat_p384_to_generic r0) (fiat_p384_to_generic r1)
                (fiat_p384_to_generic r2)).

(** *** The two algorithms on affine points *)

(** The affine point of a table entry [(x, y)]: the Jacobian triple
    [(x, y, 1)]. *)
Definition affine_of_aff (e : aff) : affine :=
  Some (fval (fst e), fval (snd e)).

(** The digits [j], [j + 4], ... below 77 of the comb: the point of digit
    [j] comes from sub-table [j / 4]. *)
Fixpoint affine_comb_group (G : list (list affine)) (ds : list Z)
    (fuel : nat) (j : Z) (acc : affine) : affine :=
  if j <? 77 then
    match fuel with
    | O => acc
    | S fuel' =>
        affine_comb_group G ds fuel' (j + 4)
          (affine_add acc
             (affine_digit (nth (Z.to_nat (j / 4)) G [])
                           (nth (Z.to_nat j) ds 0)))
    end
  else acc.

(** The groups [n - 1], ..., [0]: five doublings before every group but
    group 3. *)
Fixpoint affine_comb (G : list (list affine)) (ds : list Z) (n : nat)
    (acc : affine) : affine :=
  match n with
  | O => acc
  | S n' =>
      let acc := if (n' =? 3)%nat then acc else affine_double_n 5 acc in
      affine_comb G ds n' (affine_comb_group G ds 20 (Z.of_nat n') acc)
  end.

Definition affine_point_mul_base (G : list (list affine)) (s : Z) : affine :=
  let acc := affine_comb G (rwnaf_digits s) 4 None in
  if Z.odd s then acc
  else affine_add acc (affine_opp (nth 0 (nth 0 G []) None)).

(** The point of a digit of the textbook recoding: nothing for the digit
    zero. *)
Definition affine_digit0 (T : list affine) (d : Z) : affine :=
  if d =? 0 then None else affine_digit T d.

(** The digits [n - 1], ..., [0] of the interleaved ladder: a doubling, then
    the points of the digits of the two scalars. *)
Fixpoint affine_ladder_public (Tp Tg : list affine) (dp dg : list Z)
    (n : nat) (acc : affine) : affine :=
  match n with
  | O => acc
  | S n' =>
      affine_ladder_public Tp Tg dp dg n'
        (affine_add
           (affine_add (affine_double acc) (affine_digit0 Tp (nth n' dp 0)))
           (affine_digit0 Tg (nth n' dg 0)))
  end.

Definition affine_point_mul_public (G : list (list affine)) (sg : Z)
    (P : affine) (sp : Z) : affine :=
  affine_ladder_public (affine_pre_comp P) (nth 0 G [])
    (wnaf_digits sp) (wnaf_digits sg) 385 None.

(** A table of [n] sub-tables of 16 well-formed affine entries. *)
Definition aff_ok (e : aff) : Prop := felem_ok (fst e) /\ felem_ok (snd e).

Definition g_pre_comp_ok (n : nat) (G : list (list aff)) : Prop :=
  length G = n /\
  Forall (fun sub => length sub = 16%nat /\ Forall aff_ok sub) G.

(** ** Field elements as big-endian byte strings *)

(** Modelled from the spec: [BN_num_bytes] of crypto/fipsmodule/bn is not
    among the sources; the number of bytes of a non-negative integer. *)
Definition BN_num_bytes (n : Z) : Z :=
  if n =? 0 then 0 else Z.log2 n / 8 + 1.

(** [out] is the caller's buffer: the result is the [len] bytes written and
    [*out_len]. *)
Definition ec_GFp_nistp384_mont_felem_to_bytes (group : EC_GROUP)
    (in_ : EC_FELEM) : option (list Z * Z) :=
  let len := BN_num_bytes (field group) in
  let tmp := fiat_p384_from_generic in_ in
  let tmp := fiat_p384_from_montgomery tmp in
  let felem_tmp := fiat_p384_to_generic tmp in
  (* Convert to a big-endian byte array. *)
  out <- for_loop
           (fun i out =>
              b <- read_byte felem_tmp (len - 1 - i) ;; Some (out ++ [b]))
           (Z.to_nat len) 0 [] ;;
  Some (out, len).

(** Modelled from the spec: [ec_GFp_simple_felem_from_bytes] is not among
    the sources; it fails unless [len] is the byte length of the field prime
    and the big-endian integer of [in] is below the prime, and stores that
    integer in little-endian order. *)
Definition ec_GFp_simple_felem_from_bytes (group : EC_GROUP) (inb : list Z)
    (len : Z) : option EC_FELEM :=
  if negb (len =? BN_num_bytes (field group)) then None
  else
    let out := rev (firstn (Z.to_nat len) inb) in
    if bytes_eval out <? field group then Some out else None.

Definition ec_GFp_nistp384_mont_felem_from_bytes (group : EC_GROUP)
    (inb : list Z) (len : Z) : option EC_FELEM :=
  match ec_GFp_simple_felem_from_bytes group inb len with
  | None => None
  | Some felem_tmp =>
      let tmp := fiat_p384_from_generic felem_tmp in
      let tmp := fiat_p384_to_montgomery tmp in
      Some (fiat_p384_to_generic tmp)
  end.

(** ** The curve *)

(** The affine point is on the curve [y^2 = x^3 - 3 x + b]. *)
Definition on_curve (b : Fp) (P : affine) : Prop :=
  match P with
  | None => True
  | Some (x, y) => (y * y = x * x * x - F_three * x + b)%Zmod
  end.

(** ** Sample inputs *)

(** The coefficient [b] and the generator of the NIST P-384 curve
    (FIPS 186-4, D.1.2.4). *)
Definition p384_b : Z :=
  0xb3312fa7e23ee7e4988e056be3f82d19181d9c6efe8141120314088f5013875ac656398d8a2ed19d2a85c8edd3ec2aef.
Definition p384_Gx : Z :=
  0xaa87ca22be8b05378eb1c71ef320ad746e1d3b628ba79b9859f741e082542a385502f25dbf55296c3a545e3872760ab7.
Definition p384_Gy : Z :=
  0x3617de4a96262c6f5d9e98bf9292dc29f8f41dbd289a147ce9da3113b5f0b8c00a60b1ce1d7e819d7a431d7c90ea0e5f.

(** The generator as a Jacobian point with [Z = 1], in Montgomery form. *)
Definition generator : EC_RAW_POINT :=
  mkPoint (fiat_p384_to_generic (fe (p384_Gx * mont_R)))
          (fiat_p384_to_generic (fe (p384_Gy * mont_R)))
          (fiat_p384_to_generic fiat_p384_one).

(** Its negative. *)
Definition generator_neg : EC_RAW_POINT :=
  mkPoint (fiat_p384_to_generic (fe (p384_Gx * mont_R)))
          (fiat_p384_to_generic (fe (- (p384_Gy * mont_R))))
          (fiat_p384_to_generic fiat_p384_one).

(** A triple of the point at infinity. *)
Definition infinity_point : EC_RAW_POINT :=
  mkPoint (fiat_p384_to_generic (fe 5)) (fiat_p384_to_generic (fe 7))
          (fiat_p384_to_generic (fe 0)).

(** A table of the shape of [fiat_p384_g_pre_comp] (its entries are not
    those of p384_table.h). *)
Definition sample_table : list (list aff) :=
  repeat (repeat (fe (p384_Gx * mont_R), fe (p384_Gy * mont_R)) 16) 20.

(** The even scalar below the scalar of the CAVP vector. *)
Definition even_scalar : list Z :=
  bytes_of 48
    0xa4ebcae5a665983493ab3e626085a24c104311a761b5a8fdac052ed1f111a5c44aa32a62a4e3a0b8e1dc4a1e84c3c44c.


(** * Properties *)

(** ** Basic facts about limbs and the field primitives *)

Lemma limbs_of_length n v : length (limbs_of n v) = n.
Proof. revert v; induction n; simpl; intros; auto. Qed.

Lemma limbs_of_range n v :
  Forall (fun x => 0 <= x < 2 ^ 64) (limbs_of n v).
Proof.
  revert v; induction n; simpl; intros; constructor; auto.
  apply Z.mod_pos_bound; lia.
Qed.

Lemma limbs_eval_of n v :
  0 <= v < 2 ^ (64 * Z.of_nat n) -> limbs_eval (limbs_of n v) = v.
Proof.
  revert v; induction n; intros v Hv.
  - simpl in *. lia.
  - cbn [limbs_of limbs_eval].
    rewrite IHn.
    + pose proof (Z.div_mod v (2 ^ 64)). lia.
    + replace (64 * Z.of_nat (S n)) with (64 + 64 * Z.of_nat n) in Hv by lia.
      rewrite Z.pow_add_r in Hv by lia.
      split; [apply Z.div_pos; lia|].
      apply Z.div_lt_upper_bound; lia.
Qed.

Lemma limbs_eval_nonneg l :
  Forall (fun x => 0 <= x < 2 ^ 64) l -> 0 <= limbs_eval l.
Proof. induction 1; cbn [limbs_eval]; lia. Qed.

Lemma limbs_eval_zero l :
  Forall (fun x => 0 <= x < 2 ^ 64) l ->
  limbs_eval l = 0 -> Forall (fun x => x = 0) l.
Proof.
  induction 1 as [|x l Hx Hl IH]; cbn [limbs_eval]; intros He; constructor.
  - pose proof (limbs_eval_nonneg l Hl). lia.
  - apply IH. pose proof (limbs_eval_nonneg l Hl). lia.
Qed.

Lemma p384_pos : 0 < p384.
Proof. reflexivity. Qed.

Lemma p384_lt_R : p384 < 2 ^ (64 * Z.of_nat FIAT_P384_NLIMBS).
Proof. reflexivity. Qed.

Lemma feval_fe v : feval (fe v) = v mod p384.
Proof.
  unfold feval, fe. apply limbs_eval_of.
  pose proof (Z.mod_pos_bound v p384 p384_pos). pose proof p384_lt_R. lia.
Qed.

Lemma fe_ok v : felem_ok (fe v).
Proof.
  split; [apply limbs_of_length|split; [apply limbs_of_range|]].
  rewrite feval_fe. apply Z.mod_pos_bound, p384_pos.
Qed.

Lemma lor_list_zero l :
  Forall (fun x => 0 <= x < 2 ^ 64) l ->
  (fold_right Z.lor 0 l = 0 <-> limbs_eval l = 0).
Proof.
  induction 1 as [|x l Hx Hl IH]; cbn [fold_right limbs_eval]; [tauto|].
  rewrite Z.lor_eq_0_iff, IH.
  pose proof (limbs_eval_nonneg l Hl). lia.
Qed.

Lemma nz_zero_iff a :
  felem_ok a -> (fiat_p384_nz a = 0 <-> feval a = 0).
Proof.
  intros (Hl & Hr & _). unfold fiat_p384_nz, fiat_p384_nonzero.
  rewrite firstn_all2 by lia. now apply lor_list_zero.
Qed.

Lemma copy_id a : length a = FIAT_P384_NLIMBS -> fiat_p384_copy a = a.
Proof.
  unfold FIAT_P384_NLIMBS, fiat_p384_copy.
  do 7 (destruct a as [|? a]; simpl; try discriminate); auto.
Qed.

Lemma felem_zero_ok : felem_ok felem_zero.
Proof.
  split; [reflexivity|split; [|reflexivity]].
  repeat constructor; lia.
Qed.

Lemma feval_nonneg a : felem_ok a -> 0 <= feval a.
Proof. intros (_ & H & _). now apply limbs_eval_nonneg. Qed.

(** ** Conditional moves and the doubling test *)

Lemma cmovznz_zero z nz : fiat_p384_cmovznz 0 z nz = z.
Proof. reflexivity. Qed.

Lemma cmovznz_nonzero t z nz : t <> 0 -> fiat_p384_cmovznz t z nz = nz.
Proof.
  intros Ht. unfold fiat_p384_cmovznz, lnotnot, fiat_p384_selectznz.
  destruct (Z.eqb_spec t 0); [contradiction|reflexivity].
Qed.

Lemma is_zero_w_zero : constant_time_is_zero_w 0 = word_max.
Proof. reflexivity. Qed.

Lemma is_zero_w_nonzero a : a <> 0 -> constant_time_is_zero_w a = 0.
Proof.
  intros Ha. unfold constant_time_is_zero_w.
  destruct (Z.eqb_spec a 0); [contradiction|reflexivity].
Qed.

(** The doubling test is off as soon as one operand has [z = 0]. *)
Lemma no_double_z1 a z2nz :
  Z.land (Z.land a (word_not (constant_time_is_zero_w 0)))
         (word_not (constant_time_is_zero_w z2nz)) = 0.
Proof.
  rewrite is_zero_w_zero. unfold word_not. rewrite Z.lxor_nilpotent.
  now rewrite Z.land_0_r, Z.land_0_l.
Qed.

Lemma no_double_z2 a z1nz :
  Z.land (Z.land a (word_not (constant_time_is_zero_w z1nz)))
         (word_not (constant_time_is_zero_w 0)) = 0.
Proof.
  rewrite is_zero_w_zero. unfold word_not. rewrite Z.lxor_nilpotent.
  now rewrite Z.land_0_r.
Qed.

(** The doubling test is on when both operands are finite and [h = r = 0]. *)
Lemma double_taken z1nz z2nz :
  z1nz <> 0 -> z2nz <> 0 ->
  Z.land (Z.land (constant_time_is_zero_w (Z.lor 0 0))
                 (word_not (constant_time_is_zero_w z1nz)))
         (word_not (constant_time_is_zero_w z2nz)) = word_max.
Proof.
  intros H1 H2.
  rewrite (is_zero_w_nonzero z1nz), (is_zero_w_nonzero z2nz) by assumption.
  reflexivity.
Qed.

(** ** C3: the identity operands of [fiat_p384_point_add] *)

Lemma point_add_z1_zero x1 y1 z1 mixed x2 y2 z2 :
  fiat_p384_nz z1 = 0 -> fiat_p384_nz z2 <> 0 ->
  fiat_p384_point_add x1 y1 z1 mixed x2 y2 z2 = (x2, y2, z2).
Proof.
  intros H1 H2. unfold fiat_p384_point_add.
  destruct (point_add_u1_s1_2z1z2 _ _ _ _ _ _) as [[u1 s1] tz].
  cbv zeta. rewrite H1, no_double_z1. cbn [Z.eqb negb].
  rewrite !cmovznz_zero, !cmovznz_nonzero by assumption. reflexivity.
Qed.

Lemma point_add_z2_zero x1 y1 z1 mixed x2 y2 z2 :
  fiat_p384_nz z2 = 0 ->
  fiat_p384_point_add x1 y1 z1 mixed x2 y2 z2 = (x1, y1, z1).
Proof.
  intros H2. unfold fiat_p384_point_add.
  destruct (point_add_u1_s1_2z1z2 _ _ _ _ _ _) as [[u1 s1] tz].
  cbv zeta. rewrite H2, no_double_z2. cbn [Z.eqb negb].
  rewrite !cmovznz_zero. reflexivity.
Qed.

(** C3, as amended: if [z1 = 0] and [z2 <> 0] the output of
    [fiat_p384_point_add] is the second operand [(x2, y2, z2)]; if [z2 = 0]
    the output is the first operand [(x1, y1, z1)], also when [z1 = 0]. *)
Theorem point_add_identity_operands x1 y1 z1 mixed x2 y2 z2 :
  felem_ok z1 -> felem_ok z2 ->
  (feval z1 = 0 -> feval z2 <> 0 ->
   fiat_p384_point_add x1 y1 z1 mixed x2 y2 z2 = (x2, y2, z2)) /\
  (feval z2 = 0 ->
   fiat_p384_point_add x1 y1 z1 mixed x2 y2 z2 = (x1, y1, z1)).
Proof.
  intros Hz1 Hz2. split.
  - intros H1 H2. apply point_add_z1_zero.
    + now apply nz_zero_iff.
    + now rewrite nz_zero_iff.
  - intros H2. apply point_add_z2_zero. now apply nz_zero_iff.
Qed.

Lemma point_add_identity_operands_witness :
  fiat_p384_point_add (fe 1) (fe 2) (fe 0) 0 (fe 3) (fe 4) (fe 5)
    = (fe 3, fe 4, fe 5) /\
  fiat_p384_point_add (fe 1) (fe 2) (fe 0) 0 (fe 3) (fe 4) (fe 0)
    = (fe 1, fe 2, fe 0).
Proof.
  split.
  - apply (point_add_identity_operands (fe 1) (fe 2) (fe 0) 0
             (fe 3) (fe 4) (fe 5) (fe_ok 0) (fe_ok 5)).
    + reflexivity.
    + vm_compute. discriminate.
  - apply (point_add_identity_operands (fe 1) (fe 2) (fe 0) 0
             (fe 3) (fe 4) (fe 0) (fe_ok 0) (fe_ok 0)).
    reflexivity.
Defined.

(** C3 as stated fails when both operands have [z = 0]: the output is the
    first operand, not the second. *)
Lemma point_add_z1_zero_counterexample :
  ~ (forall x1 y1 z1 mixed x2 y2 z2,
       felem_ok x1 -> felem_ok y1 -> felem_ok z1 ->
       felem_ok x2 -> felem_ok y2 -> felem_ok z2 ->
       feval z1 = 0 ->
       fiat_p384_point_add x1 y1 z1 mixed x2 y2 z2 = (x2, y2, z2)).
Proof.
  intros H.
  specialize (H (fe 1) (fe 2) (fe 0) 0 (fe 3) (fe 4) (fe 0)
                (fe_ok 1) (fe_ok 2) (fe_ok 0) (fe_ok 3) (fe_ok 4) (fe_ok 0)
                eq_refl).
  rewrite point_add_z2_zero in H by reflexivity.
  vm_compute in H. discriminate H.
Qed.

(** ** C5: the doubling case of [fiat_p384_point_add] *)

Lemma nz_sub_zero a b :
  feval (fiat_p384_sub a b) = 0 -> fiat_p384_nz (fiat_p384_sub a b) = 0.
Proof. intros H. apply nz_zero_iff; [apply fe_ok|exact H]. Qed.

Lemma nz_add_zero a b :
  feval (fiat_p384_add a b) = 0 -> fiat_p384_nz (fiat_p384_add a b) = 0.
Proof. intros H. apply nz_zero_iff; [apply fe_ok|exact H]. Qed.

(** C5: for Jacobian inputs with [z1 <> 0], [z2 <> 0], [h = u2 - u1 = 0] and
    [r = 2*(s2 - s1) = 0], [fiat_p384_point_add] returns exactly the output of
    [fiat_p384_point_double] on the first operand. *)
Theorem point_add_equal_is_double mixed x1 y1 z1 x2 y2 z2 :
  felem_ok z1 -> felem_ok z2 ->
  feval z1 <> 0 -> feval z2 <> 0 ->
  feval (point_add_h mixed x1 y1 z1 x2 y2 z2) = 0 ->
  feval (point_add_r mixed x1 y1 z1 x2 y2 z2) = 0 ->
  fiat_p384_point_add x1 y1 z1 mixed x2 y2 z2
    = fiat_p384_point_double x1 y1 z1.
Proof.
  intros Hz1 Hz2 N1 N2 Hh Hr.
  unfold fiat_p384_point_add, point_add_h, point_add_r in *.
  destruct (point_add_u1_s1_2z1z2 _ _ _ _ _ _) as [[u1 s1] tz].
  cbv zeta in *.
  rewrite (nz_sub_zero _ _ Hh), (nz_add_zero _ _ Hr).
  rewrite double_taken by (rewrite nz_zero_iff; assumption).
  reflexivity.
Qed.

Lemma point_add_equal_is_double_witness :
  fiat_p384_point_add (fe 5) (fe 7) (fe 3) 0 (fe 5) (fe 7) (fe 3)
    = fiat_p384_point_double (fe 5) (fe 7) (fe 3).
Proof.
  apply (point_add_equal_is_double 0 (fe 5) (fe 7) (fe 3) (fe 5) (fe 7) (fe 3)
           (fe_ok 3) (fe_ok 3)).
  - vm_compute; discriminate.
  - vm_compute; discriminate.
  - vm_compute; reflexivity.
  - vm_compute; reflexivity.
Defined.

(** ** C8: doubling the identity *)

Lemma mod_sub_self_sq y z m :
  z mod m = 0 ->
  ((((((y + z) mod m) * ((y + z) mod m) * mont_Rinv) mod m
      - (y * y * mont_Rinv) mod m) mod m
     - (z * z * mont_Rinv) mod m) mod m) = 0.
Proof.
  intros Hz.
  assert (E0 : (y + z) mod m = y mod m).
  { now rewrite <- Zplus_mod_idemp_r, Hz, Z.add_0_r. }
  assert (E1 : (((y + z) mod m) * ((y + z) mod m) * mont_Rinv) mod m
               = (y * y * mont_Rinv) mod m).
  { rewrite E0.
    transitivity ((((y mod m) * (y mod m)) mod m * mont_Rinv) mod m).
    - symmetry; apply Zmult_mod_idemp_l.
    - rewrite <- Zmult_mod. apply Zmult_mod_idemp_l. }
  assert (E2 : (z * z * mont_Rinv) mod m = 0).
  { rewrite <- Z.mul_assoc, <- Zmult_mod_idemp_l, Hz. apply Zmod_0_l. }
  rewrite E1, E2, Z.sub_diag, Zmod_0_l. reflexivity.
Qed.

(** C8: [fiat_p384_point_double] is a total function, and for every input
    with [z_in = 0] the computed [z_out = (y+z)^2 - gamma - delta] is 0:
    doubling the identity yields the identity. *)
Theorem point_double_identity x y z :
  feval z = 0 ->
  exists x' y' z',
    fiat_p384_point_double x y z = (x', y', z') /\
    feval z' = 0 /\ fiat_p384_nz z' = 0.
Proof.
  intros Hz. unfold fiat_p384_point_double. cbv zeta.
  do 3 eexists. split; [reflexivity|].
  assert (E : feval (fiat_p384_sub
                       (fiat_p384_sub
                          (fiat_p384_square (fiat_p384_add y z))
                          (fiat_p384_square y))
                       (fiat_p384_square z)) = 0).
  { unfold fiat_p384_sub, fiat_p384_square, fiat_p384_add.
    rewrite !feval_fe. apply mod_sub_self_sq. rewrite Hz. reflexivity. }
  split; [exact E|]. apply nz_zero_iff; [apply fe_ok|exact E].
Qed.

Lemma point_double_identity_witness :
  exists x' y' z',
    fiat_p384_point_double (fe 5) (fe 7) (fe 0) = (x', y', z') /\
    feval z' = 0 /\ fiat_p384_nz z' = 0.
Proof.
  apply (point_double_identity (fe 5) (fe 7) (fe 0)). reflexivity.
Defined.

(** ** C9: constant-time table lookups *)

Lemma lxor_zero_iff i idx : Z.lxor i idx = 0 <-> i = idx.
Proof. apply Z.lxor_eq_0_iff. Qed.

Lemma select_point_loop_spec n : forall i idx table out,
  0 <= i ->
  select_point_loop n i idx table out
  = if (i <=? idx) && (idx <? i + Z.of_nat n)
    then nth (Z.to_nat idx) table jac_zero else out.
Proof.
  induction n as [|n IH]; intros i idx table out Hi.
  - cbn [select_point_loop]. 
    destruct (Z.leb_spec i idx), (Z.ltb_spec idx (i + Z.of_nat 0));
      cbn [andb]; try reflexivity; lia.
  - cbn [select_point_loop]. destruct out as [[o0 o1] o2].
    fold jac_zero.
    destruct (nth (Z.to_nat i) table jac_zero) as [[t0 t1] t2] eqn:Et.
    cbv zeta. rewrite IH by lia.
    destruct (Z.eq_dec i idx) as [->|Hne].
    + rewrite Z.lxor_nilpotent, !cmovznz_zero, Et.
      destruct (Z.leb_spec (idx + 1) idx); [lia|].
      destruct (Z.leb_spec idx idx); [|lia].
      destruct (Z.ltb_spec idx (idx + Z.of_nat (S n))); [|lia].
      reflexivity.
    + assert (Z.lxor i idx <> 0) by (rewrite lxor_zero_iff; exact Hne).
      rewrite !cmovznz_nonzero by assumption.
      destruct (Z.leb_spec (i + 1) idx), (Z.leb_spec i idx),
        (Z.ltb_spec idx (i + 1 + Z.of_nat n)),
        (Z.ltb_spec idx (i + Z.of_nat (S n)));
        cbn [andb]; try reflexivity; lia.
Qed.

Lemma select_point_affine_loop_spec n : forall i idx table out,
  0 <= i ->
  select_point_affine_loop n i idx table out
  = if (i <=? idx) && (idx <? i + Z.of_nat n)
    then nth (Z.to_nat idx) table aff_zero else out.
Proof.
  induction n as [|n IH]; intros i idx table out Hi.
  - cbn [select_point_affine_loop]. 
    destruct (Z.leb_spec i idx), (Z.ltb_spec idx (i + Z.of_nat 0));
      cbn [andb]; try reflexivity; lia.
  - cbn [select_point_affine_loop]. destruct out as [o0 o1].
    fold aff_zero.
    destruct (nth (Z.to_nat i) table aff_zero) as [t0 t1] eqn:Et.
    cbv zeta. rewrite IH by lia.
    destruct (Z.eq_dec i idx) as [->|Hne].
    + rewrite Z.lxor_nilpotent, !cmovznz_zero, Et.
      destruct (Z.leb_spec (idx + 1) idx); [lia|].
      destruct (Z.leb_spec idx idx); [|lia].
      destruct (Z.ltb_spec idx (idx + Z.of_nat (S n))); [|lia].
      reflexivity.
    + assert (Z.lxor i idx <> 0) by (rewrite lxor_zero_iff; exact Hne).
      rewrite !cmovznz_nonzero by assumption.
      destruct (Z.leb_spec (i + 1) idx), (Z.leb_spec i idx),
        (Z.ltb_spec idx (i + 1 + Z.of_nat n)),
        (Z.ltb_spec idx (i + Z.of_nat (S n)));
        cbn [andb]; try reflexivity; lia.
Qed.

(** C9: for a table of [table_size] entries and an index [idx],
    [fiat_p384_select_point] and [fiat_p384_select_point_affine] return the
    entry [table[idx]] if [idx < table_size] and the all-zero point (every
    limb 0, so [Z = 0]: the point at infinity) if [idx >= table_size]. *)
Theorem select_point_spec :
  (forall (table : list jac) idx, 0 <= idx ->
     let table_size := Z.of_nat (length table) in
     (idx < table_size ->
      nth_error table (Z.to_nat idx)
        = Some (fiat_p384_select_point idx table table_size)) /\
     (table_size <= idx ->
      fiat_p384_select_point idx table table_size
        = (repeat 0 6%nat, repeat 0 6%nat, repeat 0 6%nat))) /\
  (forall (table : list aff) idx, 0 <= idx ->
     let table_size := Z.of_nat (length table) in
     (idx < table_size ->
      nth_error table (Z.to_nat idx)
        = Some (fiat_p384_select_point_affine idx table table_size)) /\
     (table_size <= idx ->
      fiat_p384_select_point_affine idx table table_size
        = (repeat 0 6%nat, repeat 0 6%nat))).
Proof.
  split; intros table idx Hidx table_size; subst table_size.
  - unfold fiat_p384_select_point. rewrite Nat2Z.id.
    fold jac_zero. rewrite select_point_loop_spec by lia.
    split; intros H.
    + destruct (Z.leb_spec 0 idx); [|lia].
      destruct (Z.ltb_spec idx (0 + Z.of_nat (length table))); [|lia].
      cbn [andb]. apply nth_error_nth'. lia.
    + destruct (Z.ltb_spec idx (0 + Z.of_nat (length table))); [lia|].
      rewrite andb_false_r. reflexivity.
  - unfold fiat_p384_select_point_affine. rewrite Nat2Z.id.
    fold aff_zero. rewrite select_point_affine_loop_spec by lia.
    split; intros H.
    + destruct (Z.leb_spec 0 idx); [|lia].
      destruct (Z.ltb_spec idx (0 + Z.of_nat (length table))); [|lia].
      cbn [andb]. apply nth_error_nth'. lia.
    + destruct (Z.ltb_spec idx (0 + Z.of_nat (length table))); [lia|].
      rewrite andb_false_r. reflexivity.
Qed.

(** ** Bits of a byte buffer *)

Lemma bytes_eval_range l :
  Forall (fun b => 0 <= b < 256) l ->
  0 <= bytes_eval l < 256 ^ Z.of_nat (length l).
Proof.
  induction 1 as [|b l Hb Hl IH].
  - cbn. lia.
  - cbn [bytes_eval length]. rewrite Nat2Z.inj_succ, Z.pow_succ_r by lia. lia.
Qed.

Lemma bytes_eval_nth l : Forall (fun b => 0 <= b < 256) l ->
  forall k, (k < length l)%nat ->
  (bytes_eval l / 256 ^ Z.of_nat k) mod 256 = nth k l 0.
Proof.
  induction 1 as [|b l Hb Hl IH]; intros k Hk; [cbn in Hk; lia|].
  cbn [bytes_eval]. destruct k as [|k].
  - cbn [nth Z.of_nat]. rewrite Z.pow_0_r, Z.div_1_r.
    replace (b + 256 * bytes_eval l) with (b + bytes_eval l * 256) by lia.
    rewrite Z.mod_add by lia. apply Z.mod_small; lia.
  - cbn [nth length] in *. rewrite Nat2Z.inj_succ, Z.pow_succ_r by lia.
    rewrite <- Z.div_div by lia.
    replace ((b + 256 * bytes_eval l) / 256) with (bytes_eval l).
    + apply IH; lia.
    + replace (b + 256 * bytes_eval l) with (b + bytes_eval l * 256) by lia.
      rewrite Z.div_add by lia.
      rewrite (Z.div_small b 256) by lia. lia.
Qed.

Lemma bit_testbit s i : 0 <= i -> bit s i = Z.b2z (Z.testbit s i).
Proof. intros Hi. unfold bit. symmetry. now apply Z.testbit_spec'. Qed.

Lemma bit_range s i : 0 <= bit s i <= 1.
Proof. unfold bit. pose proof (Z.mod_pos_bound (s / 2 ^ i) 2). lia. Qed.

Lemma bit_high s i n : 0 <= s < 2 ^ n -> n <= i -> bit s i = 0.
Proof.
  intros Hs Hi. unfold bit. rewrite Z.div_small; [reflexivity|].
  split; [lia|]. apply Z.lt_le_trans with (2 ^ n); [lia|].
  apply Z.pow_le_mono_r; lia.
Qed.

Lemma bit_split s i :
  0 <= i ->
  bit s i = bit ((s / 256 ^ (i / 8)) mod 256) (i mod 8).
Proof.
  intros Hi.
  pose proof (Z.mod_pos_bound i 8 ltac:(lia)) as Hr.
  pose proof (Z.div_pos i 8 Hi ltac:(lia)) as Hq.
  rewrite (bit_testbit _ (i mod 8)) by lia.
  change 256 with (2 ^ 8) at 2.
  rewrite Z.mod_pow2_bits_low by lia.
  rewrite <- bit_testbit by lia. unfold bit.
  rewrite Z.div_div by (try apply Z.pow_pos_nonneg; lia).
  change 256 with (2 ^ 8). rewrite <- Z.pow_mul_r, <- Z.pow_add_r by lia.
  do 3 f_equal. pose proof (Z.div_mod i 8). lia.
Qed.

Lemma read_byte_ok inb k :
  0 <= k < Z.of_nat (length inb) ->
  read_byte inb k = Some (nth (Z.to_nat k) inb 0).
Proof.
  intros Hk. unfold read_byte.
  destruct (Z.ltb_spec k 0); [lia|]. apply nth_error_nth'. lia.
Qed.

Lemma get_bit_outside inb i :
  i < 0 \/ 384 <= i -> fiat_p384_get_bit inb i = Some 0.
Proof.
  intros H. unfold fiat_p384_get_bit.
  destruct (Z.ltb_spec i 0); [reflexivity|].
  destruct (Z.geb_spec i 384); [reflexivity|lia].
Qed.

Lemma get_bit_inside inb i :
  scalar_ok inb -> 0 <= i < 384 ->
  fiat_p384_get_bit inb i = Some (bit (bytes_eval inb) i).
Proof.
  intros [Hlen Hb] Hi. unfold fiat_p384_get_bit.
  destruct (Z.ltb_spec i 0); [lia|].
  destruct (Z.geb_spec i 384); [lia|]. cbn [orb].
  rewrite Z.shiftr_div_pow2 by lia. change (2 ^ 3) with 8.
  assert (Hq : 0 <= i / 8 < 48).
  { split; [apply Z.div_pos; lia|apply Z.div_lt_upper_bound; lia]. }
  rewrite read_byte_ok by lia. cbn [bind]. f_equal.
  change 7 with (Z.ones 3). rewrite Z.land_ones by lia. change (2 ^ 3) with 8.
  pose proof (Z.mod_pos_bound i 8 ltac:(lia)) as Hr.
  rewrite Z.shiftr_div_pow2 by lia.
  change 1 with (Z.ones 1). rewrite Z.land_ones by lia. change (2 ^ 1) with 2.
  rewrite (bit_split _ i) by lia.
  replace (i / 8) with (Z.of_nat (Z.to_nat (i / 8))) at 2 by lia.
  rewrite bytes_eval_nth by (try assumption; lia).
  reflexivity.
Qed.

Lemma scalar_range inb : scalar_ok inb -> 0 <= bytes_eval inb < 2 ^ 384.
Proof.
  intros [Hlen Hb]. pose proof (bytes_eval_range inb Hb) as H.
  rewrite Hlen in H. exact H.
Qed.

(** Every bit the recoders ask for is the bit of the scalar, zero from
    position 384 on. *)
Lemma get_bit_scalar inb i :
  scalar_ok inb -> 0 <= i ->
  fiat_p384_get_bit inb i = Some (bit (bytes_eval inb) i).
Proof.
  intros Hok Hi. destruct (Z.lt_ge_cases i 384).
  - apply get_bit_inside; [assumption|lia].
  - rewrite get_bit_outside by lia.
    now rewrite (bit_high _ i 384) by (try apply scalar_range; assumption).
Qed.

(** ** Machine-integer conversions on small values *)

Lemma to_int8_small z : -128 <= z <= 127 -> to_int8 z = z.
Proof. intros H. unfold to_int8. rewrite Z.mod_small; lia. Qed.

Lemma to_word_small z : 0 <= z < 2 ^ 64 -> to_word z = z.
Proof. intros H. unfold to_word. apply Z.mod_small; lia. Qed.

Lemma window_add_small w x :
  0 <= w -> 0 <= x -> w + x <= 127 ->
  window_add w (to_word x) = w + x.
Proof.
  intros Hw Hx Hs. unfold window_add.
  rewrite (to_word_small x), (to_word_small w), to_word_small, to_int8_small;
    lia.
Qed.

Lemma write_at_app pre x suf v :
  write_at (pre ++ x :: suf) (length pre) v = Some (pre ++ v :: suf).
Proof.
  induction pre as [|a pre IH]; cbn [app length write_at]; [reflexivity|].
  rewrite IH. reflexivity.
Qed.

Lemma lor_1 x : 0 <= x -> Z.lor x 1 = 2 * (x / 2) + 1.
Proof.
  intros Hx. apply Z.bits_inj'. intros n Hn. rewrite Z.lor_spec.
  destruct (Z.eq_dec n 0) as [->|Hn0].
  - rewrite Z.testbit_odd_0. cbn. apply orb_true_r.
  - replace n with (Z.succ (n - 1)) by lia.
    rewrite Z.testbit_odd_succ by lia.
    replace (x / 2) with (Z.shiftr x 1)
      by (rewrite Z.shiftr_div_pow2 by lia; reflexivity).
    rewrite Z.shiftr_spec by lia.
    replace (n - 1 + 1) with (Z.succ (n - 1)) by lia.
    replace (Z.testbit 1 (Z.succ (n - 1))) with false.
    + now rewrite orb_false_r.
    + symmetry. apply Z.bits_above_log2; cbn; lia.
Qed.

Lemma land_63 x : Z.land x 63 = x mod 64.
Proof. change 63 with (Z.ones 6). now rewrite Z.land_ones by lia. Qed.

Lemma bit_shift s a k :
  0 <= a -> 0 <= k -> bit s (a + k) = (s / 2 ^ a / 2 ^ k) mod 2.
Proof.
  intros Ha Hk. unfold bit.
  rewrite Z.div_div
    by (try apply Z.pow_nonzero; try apply Z.pow_pos_nonneg; lia).
  now rewrite Z.pow_add_r by lia.
Qed.

(** ** C2: the regular recoding *)

Lemma rwnaf_window_range s i : 1 <= rwnaf_window s i <= 63.
Proof.
  unfold rwnaf_window.
  pose proof (Z.mod_pos_bound (s / 2 ^ (5 * i + 1)) 32). lia.
Qed.

Lemma rwnaf_window_odd s i : Z.odd (rwnaf_window s i) = true.
Proof.
  unfold rwnaf_window. now rewrite Z.odd_add_mul_2.
Qed.

Lemma rwnaf_window_init inb :
  scalar_ok inb ->
  to_int8 (Z.lor (Z.land (nth 0 inb 0) (FIAT_P384_SCALAR_DRADIX_WNAF - 1)) 1)
  = rwnaf_window (bytes_eval inb) 0.
Proof.
  intros [Hlen Hb]. change (FIAT_P384_SCALAR_DRADIX_WNAF - 1) with 63.
  rewrite <- (bytes_eval_nth inb Hb 0) by lia.
  cbn [Z.of_nat]. rewrite Z.pow_0_r, Z.div_1_r.
  rewrite land_63. 
  set (s := bytes_eval inb).
  rewrite lor_1 by (apply Z.mod_pos_bound; lia).
  unfold rwnaf_window. change (2 ^ (5 * 0 + 1)) with 2.
  assert (E : (s mod 256) mod 64 / 2 = (s / 2) mod 32).
  { Z.div_mod_to_equations. lia. }
  rewrite E. rewrite to_int8_small.
  - lia.
  - pose proof (Z.mod_pos_bound (s / 2) 32). lia.
Qed.

Lemma rwnaf_refill s i :
  0 <= i ->
  1 + 2 * bit s (5 * i + 1) + 4 * bit s (5 * i + 2)
    + 8 * bit s (5 * i + 3) + 16 * bit s (5 * i + 4)
    + 32 * bit s (5 * i + 5)
  = rwnaf_window s i.
Proof.
  intros Hi. unfold rwnaf_window.
  replace (5 * i + 2) with (5 * i + 1 + 1) by lia.
  replace (5 * i + 3) with (5 * i + 1 + 2) by lia.
  replace (5 * i + 4) with (5 * i + 1 + 3) by lia.
  replace (5 * i + 5) with (5 * i + 1 + 4) by lia.
  rewrite !(bit_shift s (5 * i + 1)) by lia.
  replace (bit s (5 * i + 1)) with ((s / 2 ^ (5 * i + 1) / 2 ^ 0) mod 2)
    by (rewrite <- bit_shift by lia; f_equal; lia).
  set (x := s / 2 ^ (5 * i + 1)).
  change (2 ^ 0) with 1; change (2 ^ 1) with 2; change (2 ^ 2) with 4;
    change (2 ^ 3) with 8; change (2 ^ 4) with 16.
  Z.div_mod_to_equations. lia.
Qed.

Lemma rwnaf_step_spec inb i pre x suf :
  scalar_ok inb -> 0 <= i -> Z.of_nat (length pre) = i ->
  rwnaf_step inb i (rwnaf_window (bytes_eval inb) i, pre ++ x :: suf)
  = Some (rwnaf_window (bytes_eval inb) (i + 1),
          pre ++ rwnaf_digit (bytes_eval inb) i :: suf).
Proof.
  intros Hok Hi Hlen. set (s := bytes_eval inb).
  pose proof (rwnaf_window_range s i) as HW.
  unfold rwnaf_step.
  change (FIAT_P384_SCALAR_DRADIX_WNAF - 1) with 63.
  change FIAT_P384_SCALAR_DRADIX with 32.
  change FIAT_P384_SCALAR_RADIX with 5.
  rewrite land_63, (Z.mod_small (rwnaf_window s i)) by lia.
  rewrite (to_int8_small (rwnaf_window s i - 32)) by lia.
  replace (Z.to_nat i) with (length pre) by lia.
  rewrite write_at_app. cbn [bind].
  replace (rwnaf_window s i - (rwnaf_window s i - 32)) with 32 by lia.
  change (to_int8 (Z.shiftr 32 5)) with 1.
  rewrite !(get_bit_scalar inb) by (try assumption; lia).
  cbn [bind]. fold s.
  rewrite !Z.shiftl_mul_pow2 by lia.
  rewrite <- (rwnaf_refill s (i + 1)) by lia.
  replace (5 * (i + 1)) with ((i + 1) * 5) by lia.
  pose proof (bit_range s ((i + 1) * 5 + 1)).
  pose proof (bit_range s ((i + 1) * 5 + 2)).
  pose proof (bit_range s ((i + 1) * 5 + 3)).
  pose proof (bit_range s ((i + 1) * 5 + 4)).
  pose proof (bit_range s ((i + 1) * 5 + 5)).
  set (b1 := bit s ((i + 1) * 5 + 1)) in *.
  set (b2 := bit s ((i + 1) * 5 + 2)) in *.
  set (b3 := bit s ((i + 1) * 5 + 3)) in *.
  set (b4 := bit s ((i + 1) * 5 + 4)) in *.
  set (b5 := bit s ((i + 1) * 5 + 5)) in *.
  change (2 ^ 1) with 2; change (2 ^ 2) with 4; change (2 ^ 3) with 8;
    change (2 ^ 4) with 16; change (2 ^ 5) with 32.
  rewrite (window_add_small 1 (b1 * 2)) by lia.
  rewrite (window_add_small _ (b2 * 4)) by lia.
  rewrite (window_add_small _ (b3 * 8)) by lia.
  rewrite (window_add_small _ (b4 * 16)) by lia.
  rewrite (window_add_small _ (b5 * 32)) by lia.
  unfold rwnaf_digit. do 2 f_equal. lia.
Qed.

Lemma rwnaf_loop_spec inb n : forall i pre mid rest,
  scalar_ok inb -> 0 <= i -> Z.of_nat (length pre) = i -> length mid = n ->
  for_loop (rwnaf_step inb) n i
    (rwnaf_window (bytes_eval inb) i, pre ++ mid ++ rest)
  = Some (rwnaf_window (bytes_eval inb) (i + Z.of_nat n),
          pre ++ map (fun k => rwnaf_digit (bytes_eval inb) (i + Z.of_nat k))
                     (seq 0 n) ++ rest).
Proof.
  induction n as [|n IH]; intros i pre mid rest Hok Hi Hpre Hmid.
  - destruct mid; [|discriminate]. cbn [for_loop seq map app Z.of_nat].
    now rewrite Z.add_0_r.
  - destruct mid as [|x mid]; [discriminate|]. cbn [for_loop].
    cbn [app]. rewrite rwnaf_step_spec by assumption. cbn [bind].
    replace (pre ++ rwnaf_digit (bytes_eval inb) i :: mid ++ rest)
      with ((pre ++ [rwnaf_digit (bytes_eval inb) i]) ++ mid ++ rest)
      by (rewrite <- app_assoc; reflexivity).
    rewrite IH; try assumption; try lia.
    + rewrite <- app_assoc. cbn [seq map app].
      rewrite <- seq_shift, map_map.
      replace (i + Z.of_nat (S n)) with (i + 1 + Z.of_nat n) by lia.
      rewrite (map_ext
                 (fun k => rwnaf_digit (bytes_eval inb) (i + Z.of_nat (S k)))
                 (fun k => rwnaf_digit (bytes_eval inb) (i + 1 + Z.of_nat k)))
        by (intros k; f_equal; lia).
      cbn [Z.of_nat]. now rewrite Z.add_0_r.
    + rewrite length_app. cbn [length]. lia.
    + cbn [length] in Hmid. lia.
Qed.

(** The regular recoding of a 48-byte scalar into a 77-digit buffer succeeds
    and writes the reference digits. *)
Lemma rwnaf_computes out inb :
  scalar_ok inb -> length out = 77%nat ->
  fiat_p384_mul_scalar_rwnaf out inb = Some (rwnaf_digits (bytes_eval inb)).
Proof.
  intros Hok Hout. unfold fiat_p384_mul_scalar_rwnaf.
  rewrite read_byte_ok by (destruct Hok as [-> _]; lia).
  cbn [bind]. change (Z.to_nat 0) with 0%nat.
  rewrite rwnaf_window_init by assumption.
  assert (Hsplit : exists mid x, out = mid ++ [x] /\ length mid = 76%nat).
  { exists (firstn 76 out), (nth 76 out 0). split.
    - rewrite <- (firstn_skipn 76 out) at 1. f_equal.
      do 77 (destruct out as [|? out]; [discriminate|]).
      destruct out; [reflexivity|discriminate].
    - rewrite length_firstn. lia. }
  destruct Hsplit as (mid & x & -> & Hmid).
  change (mid ++ [x]) with ([] ++ mid ++ [x]).
  rewrite rwnaf_loop_spec by (try assumption; cbn; lia).
  cbn [bind app]. 
  set (ds := map _ (seq 0 76)).
  replace 76%nat with (length ds) at 1 by (subst ds; now rewrite length_map, length_seq).
  rewrite write_at_app. unfold rwnaf_digits. subst ds.
  do 2 f_equal. 
Qed.

Lemma rwnaf_digit_props s i :
  Z.odd (rwnaf_digit s i) = true /\ -31 <= rwnaf_digit s i <= 31 /\
  rwnaf_digit s i <> 0.
Proof.
  unfold rwnaf_digit. pose proof (rwnaf_window_range s i).
  assert (Ho : Z.odd (rwnaf_window s i - 32) = true).
  { replace (rwnaf_window s i - 32) with (rwnaf_window s i + 2 * (-16)) by lia.
    rewrite Z.odd_add_mul_2. apply rwnaf_window_odd. }
  split; [exact Ho|split; [lia|]].
  intros E. rewrite E in Ho. discriminate.
Qed.

Lemma rwnaf_last_props s :
  0 <= s < 2 ^ 384 ->
  Z.odd (rwnaf_window s 76) = true /\ 1 <= rwnaf_window s 76 <= 15.
Proof.
  intros Hs. split; [apply rwnaf_window_odd|].
  unfold rwnaf_window. change (5 * 76 + 1) with 381.
  assert (0 <= s / 2 ^ 381 < 8).
  { split; [apply Z.div_pos; lia|apply Z.div_lt_upper_bound; lia]. }
  rewrite Z.mod_small by lia. lia.
Qed.

Lemma rwnaf_sum_from s n : forall i, 0 <= i ->
  digits_eval 32
    (map (fun k => rwnaf_digit s (i + Z.of_nat k)) (seq 0 n)
     ++ [rwnaf_window s (i + Z.of_nat n)])
  = 1 + 2 * ((s / 2 ^ (5 * i + 1)) mod 32 ^ (Z.of_nat n + 1)).
Proof.
  induction n as [|n IH]; intros i Hi.
  - cbn [seq map app digits_eval Z.of_nat]. rewrite Z.mul_0_r, !Z.add_0_r.
    unfold rwnaf_window. change (32 ^ (0 + 1)) with 32. lia.
  - replace (Z.of_nat (S n) + 1) with (1 + (Z.of_nat n + 1)) by lia.
    cbn [seq map app digits_eval]. rewrite <- seq_shift, map_map.
    rewrite (map_ext (fun k => rwnaf_digit s (i + Z.of_nat (S k)))
                     (fun k => rwnaf_digit s (i + 1 + Z.of_nat k)))
      by (intros k; f_equal; lia).
    replace (i + Z.of_nat (S n)) with (i + 1 + Z.of_nat n) by lia.
    rewrite IH by lia. change (Z.of_nat 0) with 0. rewrite Z.add_0_r.
    unfold rwnaf_digit, rwnaf_window.
    replace (5 * (i + 1) + 1) with (5 * i + 1 + 5) by lia.
    rewrite (Z.pow_add_r 2 (5 * i + 1) 5) by lia.
    rewrite <- Z.div_div
      by (try apply Z.pow_nonzero; try apply Z.pow_pos_nonneg; lia).
    set (x := s / 2 ^ (5 * i + 1)). change (2 ^ 5) with 32.
    rewrite (Z.pow_add_r 32 1 (Z.of_nat n + 1)) by lia.
    change (32 ^ 1) with 32.
    rewrite (Z.rem_mul_r x 32 (32 ^ (Z.of_nat n + 1)))
      by (try apply Z.pow_pos_nonneg; lia).
    lia.
Qed.

Lemma rwnaf_digits_sum s :
  0 <= s < 2 ^ 384 ->
  digits_eval 32 (rwnaf_digits s) = s + (1 - s mod 2).
Proof.
  intros Hs. unfold rwnaf_digits.
  pose proof (rwnaf_sum_from s 76 0 ltac:(lia)) as H.
  change (0 + Z.of_nat 76) with 76 in H.
  rewrite (map_ext (fun k => rwnaf_digit s (Z.of_nat k))
                   (fun k => rwnaf_digit s (0 + Z.of_nat k)))
    by (intros k; f_equal; lia).
  rewrite H.
  change (2 ^ (5 * 0 + 1)) with 2.
  clear H. change (32 ^ (Z.of_nat 76 + 1)) with (2 * 2 ^ 384).
  rewrite Z.mod_small.
  - clear Hs. Z.div_mod_to_equations. lia.
  - Z.div_mod_to_equations. lia.
Qed.

Lemma rwnaf_digits_length s : length (rwnaf_digits s) = 77%nat.
Proof.
  unfold rwnaf_digits. now rewrite length_app, length_map, length_seq.
Qed.

Lemma rwnaf_digits_last s : nth 76 (rwnaf_digits s) 0 = rwnaf_window s 76.
Proof.
  unfold rwnaf_digits. rewrite app_nth2; rewrite length_map, length_seq;
    [reflexivity|lia].
Qed.

Lemma rwnaf_digits_Forall s :
  0 <= s < 2 ^ 384 ->
  Forall (fun d => Z.odd d = true /\ -31 <= d <= 31 /\ d <> 0)
         (rwnaf_digits s).
Proof.
  intros Hs. unfold rwnaf_digits. apply Forall_app. split.
  - apply Forall_forall. intros d Hd. apply in_map_iff in Hd.
    destruct Hd as (k & <- & _). apply rwnaf_digit_props.
  - constructor; [|constructor].
    destruct (rwnaf_last_props s Hs) as [Ho Hr].
    split; [exact Ho|lia].
Qed.

(** C2: for every 48-byte scalar [s], [fiat_p384_mul_scalar_rwnaf] writes
    exactly 77 digits, every digit an odd (hence non-zero) integer in
    [-31, 31], the final digit non-negative, with
    [sum d_i * 2^(5 i) = s + (1 - s mod 2)]. *)
Theorem rwnaf_correct (out inb : list Z) :
  scalar_ok inb -> length out = 77%nat ->
  exists ds,
    fiat_p384_mul_scalar_rwnaf out inb = Some ds /\
    length ds = 77%nat /\
    Forall (fun d => Z.odd d = true /\ -31 <= d <= 31 /\ d <> 0) ds /\
    0 <= nth 76 ds 0 /\
    digits_eval (2 ^ 5) ds
      = bytes_eval inb + (1 - bytes_eval inb mod 2).
Proof.
  intros Hok Hout. pose proof (scalar_range inb Hok) as Hs.
  exists (rwnaf_digits (bytes_eval inb)).
  split; [now apply rwnaf_computes|].
  split; [apply rwnaf_digits_length|].
  split; [now apply rwnaf_digits_Forall|].
  split.
  - rewrite rwnaf_digits_last.
    pose proof (rwnaf_window_range (bytes_eval inb) 76). lia.
  - now apply rwnaf_digits_sum.
Qed.

(** ** C4: the textbook recoding *)

(** A property of the integers [0 .. n-1] checked by evaluation. *)
Lemma forall_range_check (P : Z -> bool) (n : nat) :
  forallb P (map Z.of_nat (seq 0 n)) = true ->
  forall z, 0 <= z < Z.of_nat n -> P z = true.
Proof.
  intros H z Hz. rewrite forallb_forall in H. apply H.
  apply in_map_iff. exists (Z.to_nat z). split; [lia|].
  apply in_seq. lia.
Qed.

Lemma wnaf_digit_code w :
  0 <= w <= 64 ->
  (if negb (Z.land w 1 =? 0) then
     if negb (Z.land (to_int8 (Z.land w (FIAT_P384_SCALAR_DRADIX_WNAF - 1)))
                     FIAT_P384_SCALAR_DRADIX =? 0)
     then
       to_int8 (to_int8 (Z.land w (FIAT_P384_SCALAR_DRADIX_WNAF - 1))
                - FIAT_P384_SCALAR_DRADIX_WNAF)
     else to_int8 (Z.land w (FIAT_P384_SCALAR_DRADIX_WNAF - 1))
   else 0) = wnaf_digit_of w.
Proof.
  intros Hw. apply Z.eqb_eq.
  apply (forall_range_check
           (fun w =>
              (if negb (Z.land w 1 =? 0) then
                 let d := to_int8 (Z.land w (FIAT_P384_SCALAR_DRADIX_WNAF - 1)) in
                 if negb (Z.land d FIAT_P384_SCALAR_DRADIX =? 0) then
                   to_int8 (d - FIAT_P384_SCALAR_DRADIX_WNAF)
                 else d
               else 0) =? wnaf_digit_of w) 65);
    [vm_compute; reflexivity|lia].
Qed.

Lemma wnaf_next_code w b :
  0 <= w <= 64 -> 0 <= b <= 1 ->
  window_add (to_int8 (Z.shiftr (w - wnaf_digit_of w) 1))
             (to_word (Z.shiftl b FIAT_P384_SCALAR_RADIX))
  = (w - wnaf_digit_of w) / 2 + 32 * b.
Proof.
  intros Hw Hb. apply Z.eqb_eq.
  assert (Hb' : b = 0 \/ b = 1) by lia.
  destruct Hb' as [-> | ->].
  - apply (forall_range_check
             (fun w =>
                window_add (to_int8 (Z.shiftr (w - wnaf_digit_of w) 1))
                           (to_word (Z.shiftl 0 FIAT_P384_SCALAR_RADIX))
                =? (w - wnaf_digit_of w) / 2 + 32 * 0) 65);
      [vm_compute; reflexivity|lia].
  - apply (forall_range_check
             (fun w =>
                window_add (to_int8 (Z.shiftr (w - wnaf_digit_of w) 1))
                           (to_word (Z.shiftl 1 FIAT_P384_SCALAR_RADIX))
                =? (w - wnaf_digit_of w) / 2 + 32 * 1) 65);
      [vm_compute; reflexivity|lia].
Qed.

Lemma wnaf_step_facts_ok w : 0 <= w <= 64 -> wnaf_step_facts w = true.
Proof.
  intros Hw. apply (forall_range_check wnaf_step_facts 65);
    [vm_compute; reflexivity|lia].
Qed.

Lemma wnaf_facts w :
  0 <= w <= 64 ->
  (wnaf_digit_of w = 0 \/
   (Z.odd (wnaf_digit_of w) = true /\ -31 <= wnaf_digit_of w <= 31)) /\
  2 * ((w - wnaf_digit_of w) / 2) = w - wnaf_digit_of w /\
  0 <= (w - wnaf_digit_of w) / 2 <= 32 /\
  (wnaf_digit_of w <> 0 -> (w - wnaf_digit_of w) mod 64 = 0) /\
  (Z.odd w = false -> wnaf_digit_of w = 0) /\
  (w <= 32 -> (w - wnaf_digit_of w) / 2 <= w / 2).
Proof.
  intros Hw. pose proof (wnaf_step_facts_ok w Hw) as H.
  unfold wnaf_step_facts in H. cbv zeta in H.
  rewrite !andb_true_iff, !orb_true_iff, !andb_true_iff in H.
  rewrite !Z.eqb_eq, !Z.leb_le, !Z.ltb_lt in H.
  destruct H as ((((((H1 & H2) & H3) & H4) & H5) & H6) & H7).
  split; [|split; [|split; [|split; [|split]]]].
  - destruct H1 as [H1|((H1 & ?) & ?)]; [now left|right; split; [assumption|lia]].
  - exact H2.
  - lia.
  - intros Hd. destruct H5; [contradiction|assumption].
  - intros Ho. destruct H6 as [H6|H6]; [congruence|assumption].
  - lia.
Qed.

Lemma wnaf_window_range s i : 0 <= wnaf_window s i <= 64.
Proof.
  induction i as [|i IH].
  - cbn [wnaf_window]. pose proof (Z.mod_pos_bound s 64). lia.
  - cbn [wnaf_window]. cbv zeta.
    pose proof (wnaf_facts _ IH) as (_ & _ & Hf & _).
    pose proof (bit_range s (Z.of_nat i + 6)). lia.
Qed.

Lemma wnaf_digit_props s i :
  wnaf_digit s i = 0 \/
  (Z.odd (wnaf_digit s i) = true /\ -31 <= wnaf_digit s i <= 31).
Proof. apply wnaf_facts, wnaf_window_range. Qed.

Lemma wnaf_window_init inb :
  scalar_ok inb ->
  to_int8 (Z.land (nth 0 inb 0) (FIAT_P384_SCALAR_DRADIX_WNAF - 1))
  = wnaf_window (bytes_eval inb) 0.
Proof.
  intros [Hlen Hb]. change (FIAT_P384_SCALAR_DRADIX_WNAF - 1) with 63.
  rewrite <- (bytes_eval_nth inb Hb 0) by lia.
  cbn [Z.of_nat wnaf_window]. rewrite Z.pow_0_r, Z.div_1_r, land_63.
  set (s := bytes_eval inb).
  assert (E : (s mod 256) mod 64 = s mod 64)
    by (clearbody s; Z.div_mod_to_equations; lia).
  rewrite E, to_int8_small; [reflexivity|].
  pose proof (Z.mod_pos_bound s 64). lia.
Qed.

Lemma wnaf_step_spec inb (n : nat) pre x suf :
  scalar_ok inb -> length pre = n ->
  wnaf_step inb (Z.of_nat n)
    (wnaf_window (bytes_eval inb) n, pre ++ x :: suf)
  = Some (wnaf_window (bytes_eval inb) (S n),
          pre ++ wnaf_digit (bytes_eval inb) n :: suf).
Proof.
  intros Hok Hlen. set (s := bytes_eval inb).
  pose proof (wnaf_window_range s n) as HW.
  unfold wnaf_step. cbv zeta.
  rewrite wnaf_digit_code by assumption.
  replace (Z.to_nat (Z.of_nat n)) with (length pre) by lia.
  rewrite write_at_app. cbn [bind].
  rewrite get_bit_scalar
    by (try assumption; unfold FIAT_P384_SCALAR_RADIX; lia).
  cbn [bind]. fold s.
  rewrite wnaf_next_code by (try assumption; apply bit_range).
  cbn [wnaf_window]. cbv zeta. unfold wnaf_digit.
  replace (Z.of_nat n + 1 + FIAT_P384_SCALAR_RADIX) with (Z.of_nat n + 6)
    by (unfold FIAT_P384_SCALAR_RADIX; lia).
  reflexivity.
Qed.

Lemma wnaf_loop_spec inb n : forall (i : nat) pre mid rest,
  scalar_ok inb -> length pre = i -> length mid = n ->
  for_loop (wnaf_step inb) n (Z.of_nat i)
    (wnaf_window (bytes_eval inb) i, pre ++ mid ++ rest)
  = Some (wnaf_window (bytes_eval inb) (i + n),
          pre ++ map (wnaf_digit (bytes_eval inb)) (seq i n) ++ rest).
Proof.
  induction n as [|n IH]; intros i pre mid rest Hok Hpre Hmid.
  - destruct mid; [|discriminate]. cbn [for_loop seq map app].
    now rewrite Nat.add_0_r.
  - destruct mid as [|x mid]; [discriminate|]. cbn [for_loop app].
    rewrite wnaf_step_spec by assumption. cbn [bind].
    replace (pre ++ wnaf_digit (bytes_eval inb) i :: mid ++ rest)
      with ((pre ++ [wnaf_digit (bytes_eval inb) i]) ++ mid ++ rest)
      by (rewrite <- app_assoc; reflexivity).
    replace (Z.of_nat i + 1) with (Z.of_nat (S i)) by lia.
    rewrite IH; try assumption.
    + rewrite <- app_assoc. cbn [seq map app].
      now rewrite Nat.add_succ_r.
    + rewrite length_app. cbn [length]. lia.
    + cbn [length] in Hmid. lia.
Qed.

(** The textbook recoding of a 48-byte scalar into a 385-digit buffer
    succeeds and writes the reference digits. *)
Lemma wnaf_computes out inb :
  scalar_ok inb -> length out = 385%nat ->
  fiat_p384_mul_scalar_wnaf out inb = Some (wnaf_digits (bytes_eval inb)).
Proof.
  intros Hok Hout. unfold fiat_p384_mul_scalar_wnaf.
  rewrite read_byte_ok by (destruct Hok as [-> _]; lia).
  cbn [bind]. change (Z.to_nat 0) with 0%nat.
  rewrite wnaf_window_init by assumption.
  change 0 with (Z.of_nat 0) at 1.
  replace out with ([] ++ out ++ []) by (now rewrite app_nil_r).
  rewrite wnaf_loop_spec by (try assumption; reflexivity).
  cbn [bind app]. now rewrite app_nil_r.
Qed.

Lemma digits_eval_app b l d :
  digits_eval b (l ++ [d]) = digits_eval b l + b ^ Z.of_nat (length l) * d.
Proof.
  induction l as [|a l IH].
  - cbn [app digits_eval length Z.of_nat]. rewrite Z.pow_0_r. ring.
  - cbn [app digits_eval length].
    rewrite IH, Nat2Z.inj_succ, Z.pow_succ_r by lia. ring.
Qed.

(** The digits written so far, the window and the bits not yet read add up
    to the scalar. *)
Lemma wnaf_value s (i : nat) :
  digits_eval 2 (map (wnaf_digit s) (seq 0 i))
  + 2 ^ Z.of_nat i * (wnaf_window s i + 64 * (s / 2 ^ (Z.of_nat i + 6))) = s.
Proof.
  induction i as [|i IH].
  - cbn [seq map digits_eval wnaf_window Z.of_nat]. change (2 ^ (0 + 6)) with 64.
    change (2 ^ 0) with 1. pose proof (Z.div_mod s 64). lia.
  - rewrite seq_S, map_app. cbn [map Nat.add].
    rewrite digits_eval_app, length_map, length_seq.
    rewrite Nat2Z.inj_succ, Z.pow_succ_r by lia.
    cbn [wnaf_window]. cbv zeta. fold (wnaf_digit s i).
    pose proof (wnaf_facts _ (wnaf_window_range s i)) as (_ & H2 & _).
    fold (wnaf_digit s i) in H2.
    set (w := wnaf_window s i) in *. set (d := wnaf_digit s i) in *.
    set (f := (w - d) / 2) in *.
    unfold bit. set (q := s / 2 ^ (Z.of_nat i + 6)) in *.
    replace (s / 2 ^ (Z.succ (Z.of_nat i) + 6)) with (q / 2).
    + assert (E : d + 2 * (f + 32 * (q mod 2) + 64 * (q / 2)) = w + 64 * q).
      { pose proof (Z.div_mod q 2). lia. }
      transitivity (digits_eval 2 (map (wnaf_digit s) (seq 0 i))
                    + 2 ^ Z.of_nat i
                      * (d + 2 * (f + 32 * (q mod 2) + 64 * (q / 2)))).
      * ring.
      * rewrite E. exact IH.
    + subst q.
      rewrite Z.div_div
        by (try apply Z.pow_nonzero; try apply Z.pow_pos_nonneg; lia).
      f_equal. replace (Z.succ (Z.of_nat i) + 6) with (Z.of_nat i + 6 + 1) by lia.
      rewrite (Z.pow_add_r 2 _ 1) by lia. reflexivity.
Qed.

(** After a non-zero digit the window is a multiple of 32;
    a window that is a multiple of [2^(k+1)] gives the digit zero and a
    next window that is a multiple of [2^k]. *)
Lemma wnaf_after_nonzero s i :
  wnaf_digit s i <> 0 -> wnaf_window s (S i) mod 32 = 0.
Proof.
  intros Hd. cbn [wnaf_window]. cbv zeta.
  pose proof (wnaf_facts _ (wnaf_window_range s i)) as (_ & H2 & _ & H4 & _).
  specialize (H4 Hd).
  pose proof (bit_range s (Z.of_nat i + 6)).
  set (b := bit s (Z.of_nat i + 6)) in *.
  set (x := wnaf_window s i - wnaf_digit_of (wnaf_window s i)) in *.
  clearbody x b. Z.div_mod_to_equations. lia.
Qed.

Lemma wnaf_even_window s i m :
  In m [2; 4; 8; 16; 32] ->
  wnaf_window s i mod m = 0 ->
  wnaf_digit s i = 0 /\ wnaf_window s (S i) mod (m / 2) = 0.
Proof.
  intros Hm Hw.
  pose proof (wnaf_window_range s i) as HW.
  pose proof (wnaf_facts _ HW) as (_ & _ & _ & _ & H5 & _).
  assert (Hd : wnaf_digit s i = 0).
  { apply H5. rewrite <- Z.negb_even, Bool.negb_false_iff.
    rewrite Z.even_spec. exists (wnaf_window s i / 2).
    cbn [In] in Hm.
    destruct Hm as [<-|[<-|[<-|[<-|[<-|[]]]]]];
      clear H5; Z.div_mod_to_equations; lia. }
  split; [exact Hd|].
  cbn [wnaf_window]. cbv zeta. unfold wnaf_digit in Hd. rewrite Hd, Z.sub_0_r.
  pose proof (bit_range s (Z.of_nat i + 6)).
  set (b := bit s (Z.of_nat i + 6)) in *.
  set (w := wnaf_window s i) in *. clearbody w b.
  cbn [In] in Hm.
  destruct Hm as [<-|[<-|[<-|[<-|[<-|[]]]]]];
    [change (2 / 2) with 1|change (4 / 2) with 2|change (8 / 2) with 4
    |change (16 / 2) with 8|change (32 / 2) with 16];
    clear H5 Hd; Z.div_mod_to_equations; lia.
Qed.

(** Every non-zero digit is followed by five zero digits. *)
Lemma wnaf_nonadjacent s i j :
  wnaf_digit s i <> 0 -> (1 <= j <= 5)%nat -> wnaf_digit s (i + j) = 0.
Proof.
  intros Hd Hj.
  pose proof (wnaf_after_nonzero s i Hd) as W1.
  destruct (wnaf_even_window s (S i) 32 ltac:(cbn; tauto) W1) as [D1 W2].
  change (32 / 2) with 16 in W2.
  destruct (wnaf_even_window s (S (S i)) 16 ltac:(cbn; tauto) W2) as [D2 W3].
  change (16 / 2) with 8 in W3.
  destruct (wnaf_even_window s (S (S (S i))) 8 ltac:(cbn; tauto) W3)
    as [D3 W4].
  change (8 / 2) with 4 in W4.
  destruct (wnaf_even_window s (S (S (S (S i)))) 4 ltac:(cbn; tauto) W4)
    as [D4 W5].
  change (4 / 2) with 2 in W5.
  destruct (wnaf_even_window s (S (S (S (S (S i))))) 2 ltac:(cbn; tauto) W5)
    as [D5 _].
  assert (Hc : (j = 1 \/ j = 2 \/ j = 3 \/ j = 4 \/ j = 5)%nat) by lia.
  destruct Hc as [->|[->|[->|[->| ->]]]].
  - now replace (i + 1)%nat with (S i) by lia.
  - now replace (i + 2)%nat with (S (S i)) by lia.
  - now replace (i + 3)%nat with (S (S (S i))) by lia.
  - now replace (i + 4)%nat with (S (S (S (S i)))) by lia.
  - now replace (i + 5)%nat with (S (S (S (S (S i))))) by lia.
Qed.

Lemma wnaf_tail_step s i :
  0 <= s < 2 ^ 384 -> (378 <= i)%nat ->
  wnaf_window s (S i)
  = (wnaf_window s i - wnaf_digit_of (wnaf_window s i)) / 2.
Proof.
  intros Hs Hi. cbn [wnaf_window]. cbv zeta.
  rewrite (bit_high s _ 384) by (try assumption; lia). lia.
Qed.

Lemma wnaf_tail_halves s i :
  0 <= s < 2 ^ 384 -> (378 <= i)%nat ->
  wnaf_window s i <= 32 ->
  0 <= wnaf_window s (S i) <= wnaf_window s i / 2.
Proof.
  intros Hs Hi Hw. rewrite wnaf_tail_step by assumption.
  pose proof (wnaf_facts _ (wnaf_window_range s i)) as (_ & _ & ? & _ & _ & H).
  specialize (H Hw). lia.
Qed.

Lemma wnaf_final_window s : 0 <= s < 2 ^ 384 -> wnaf_window s 385 = 0.
Proof.
  intros Hs.
  assert (H379 : wnaf_window s 379 <= 32).
  { rewrite wnaf_tail_step by (try assumption; lia).
    pose proof (wnaf_facts _ (wnaf_window_range s 378)) as (_ & _ & ? & _).
    lia. }
  pose proof (wnaf_tail_halves s 379 Hs ltac:(lia) H379) as H380.
  assert (B380 : wnaf_window s 380 <= 16)
    by (revert H380 H379; generalize (wnaf_window s 379) (wnaf_window s 380);
        intros; Z.div_mod_to_equations; lia).
  pose proof (wnaf_tail_halves s 380 Hs ltac:(lia) ltac:(lia)) as H381.
  assert (B381 : wnaf_window s 381 <= 8)
    by (revert H381 B380; generalize (wnaf_window s 380) (wnaf_window s 381);
        intros; Z.div_mod_to_equations; lia).
  pose proof (wnaf_tail_halves s 381 Hs ltac:(lia) ltac:(lia)) as H382.
  assert (B382 : wnaf_window s 382 <= 4)
    by (revert H382 B381; generalize (wnaf_window s 381) (wnaf_window s 382);
        intros; Z.div_mod_to_equations; lia).
  pose proof (wnaf_tail_halves s 382 Hs ltac:(lia) ltac:(lia)) as H383.
  assert (B383 : wnaf_window s 383 <= 2)
    by (revert H383 B382; generalize (wnaf_window s 382) (wnaf_window s 383);
        intros; Z.div_mod_to_equations; lia).
  pose proof (wnaf_tail_halves s 383 Hs ltac:(lia) ltac:(lia)) as H384.
  assert (B384 : wnaf_window s 384 <= 1)
    by (revert H384 B383; generalize (wnaf_window s 383) (wnaf_window s 384);
        intros; Z.div_mod_to_equations; lia).
  pose proof (wnaf_tail_halves s 384 Hs ltac:(lia) ltac:(lia)) as H385.
  revert H385 B384. generalize (wnaf_window s 384) (wnaf_window s 385).
  intros; Z.div_mod_to_equations; lia.
Qed.

Lemma wnaf_digits_sum s :
  0 <= s < 2 ^ 384 -> digits_eval 2 (wnaf_digits s) = s.
Proof.
  intros Hs. pose proof (wnaf_value s 385) as H.
  rewrite (wnaf_final_window s Hs) in H.
  rewrite (Z.div_small s) in H.
  - fold (wnaf_digits s) in H. lia.
  - split; [lia|]. apply Z.lt_le_trans with (2 ^ 384); [lia|].
    apply Z.pow_le_mono_r; lia.
Qed.

Lemma wnaf_digits_length s : length (wnaf_digits s) = 385%nat.
Proof. unfold wnaf_digits. now rewrite length_map, length_seq. Qed.

Lemma wnaf_digits_nth s i :
  (i < 385)%nat -> nth i (wnaf_digits s) 0 = wnaf_digit s i.
Proof.
  intros Hi. unfold wnaf_digits.
  rewrite (nth_indep _ 0 (wnaf_digit s 0))
    by (now rewrite length_map, length_seq).
  rewrite map_nth, seq_nth by lia. reflexivity.
Qed.

(** C4: for every 48-byte scalar [s], [fiat_p384_mul_scalar_wnaf] writes
    exactly 385 digits, each zero or an odd integer in [-31, 31], with
    [sum d_i * 2^i = s], and every non-zero digit [d_i] is followed by zero
    digits at the positions [i+1 .. i+4] of the array. *)
Theorem wnaf_correct (out inb : list Z) :
  scalar_ok inb -> length out = 385%nat ->
  exists ds,
    fiat_p384_mul_scalar_wnaf out inb = Some ds /\
    length ds = 385%nat /\
    Forall (fun d => d = 0 \/ (Z.odd d = true /\ -31 <= d <= 31)) ds /\
    digits_eval 2 ds = bytes_eval inb /\
    (forall i j, (i < 385)%nat -> nth i ds 0 <> 0 ->
                 (1 <= j <= 4)%nat -> (i + j < 385)%nat ->
                 nth (i + j) ds 0 = 0).
Proof.
  intros Hok Hout. pose proof (scalar_range inb Hok) as Hs.
  exists (wnaf_digits (bytes_eval inb)).
  split; [now apply wnaf_computes|].
  split; [apply wnaf_digits_length|].
  split; [|split].
  - apply Forall_forall. intros d Hd. unfold wnaf_digits in Hd.
    apply in_map_iff in Hd. destruct Hd as (k & <- & _).
    apply wnaf_digit_props.
  - now apply wnaf_digits_sum.
  - intros i j Hi Hd Hj Hij.
    rewrite wnaf_digits_nth in * by assumption.
    apply wnaf_nonadjacent; [assumption|lia].
Qed.

(** ** C10: the reads of the recoders stay inside the 48 bytes *)

Lemma read_byte_app inb extra k :
  k < Z.of_nat (length inb) ->
  read_byte (inb ++ extra) k = read_byte inb k.
Proof.
  intros Hk. unfold read_byte. destruct (Z.ltb_spec k 0); [reflexivity|].
  apply nth_error_app1. lia.
Qed.

Lemma get_bit_app inb extra i :
  length inb = 48%nat ->
  fiat_p384_get_bit (inb ++ extra) i = fiat_p384_get_bit inb i.
Proof.
  intros Hlen. unfold fiat_p384_get_bit.
  destruct (Z.ltb_spec i 0); [reflexivity|].
  destruct (Z.geb_spec i 384); [reflexivity|]. cbn [orb].
  rewrite read_byte_app; [reflexivity|].
  rewrite Z.shiftr_div_pow2 by lia. change (2 ^ 3) with 8.
  rewrite Hlen. apply Z.div_lt_upper_bound; lia.
Qed.

Lemma for_loop_ext {S : Type} (f g : Z -> S -> option S) n :
  (forall i st, f i st = g i st) ->
  forall from st, for_loop f n from st = for_loop g n from st.
Proof.
  intros Hfg. induction n as [|n IH]; intros from st; [reflexivity|].
  cbn [for_loop]. rewrite Hfg. destruct (g from st); [apply IH|reflexivity].
Qed.

Lemma rwnaf_app out inb extra :
  length inb = 48%nat ->
  fiat_p384_mul_scalar_rwnaf out (inb ++ extra)
  = fiat_p384_mul_scalar_rwnaf out inb.
Proof.
  intros Hlen. unfold fiat_p384_mul_scalar_rwnaf.
  rewrite read_byte_app by lia.
  destruct (read_byte inb 0) as [in0|]; unfold bind; [|reflexivity].
  rewrite (for_loop_ext (rwnaf_step (inb ++ extra)) (rwnaf_step inb));
    [reflexivity|].
  intros i [w o]. unfold rwnaf_step.
  now rewrite !get_bit_app by assumption.
Qed.

Lemma wnaf_app out inb extra :
  length inb = 48%nat ->
  fiat_p384_mul_scalar_wnaf out (inb ++ extra)
  = fiat_p384_mul_scalar_wnaf out inb.
Proof.
  intros Hlen. unfold fiat_p384_mul_scalar_wnaf.
  rewrite read_byte_app by lia.
  destruct (read_byte inb 0) as [in0|]; unfold bind; [|reflexivity].
  rewrite (for_loop_ext (wnaf_step (inb ++ extra)) (wnaf_step inb));
    [reflexivity|].
  intros i [w o]. unfold wnaf_step.
  now rewrite !get_bit_app by assumption.
Qed.

(** C10: [fiat_p384_get_bit in i] returns bit [i] of the 48-byte buffer for
    [0 <= i < 384] and 0 for [i < 0] or [i >= 384]; both recoders read only
    inside the 48 input bytes (they return a result, no read fails) and take
    every bit position from 384 on as zero (bytes after the 48th do not
    change their output). *)
Theorem get_bit_safe (inb : list Z) :
  scalar_ok inb ->
  (forall i, 0 <= i < 384 ->
     fiat_p384_get_bit inb i
       = Some (Z.b2z (Z.testbit (bytes_eval inb) i))) /\
  (forall i, i < 0 \/ 384 <= i -> fiat_p384_get_bit inb i = Some 0) /\
  (forall out, length out = 77%nat ->
     fiat_p384_mul_scalar_rwnaf out inb <> None) /\
  (forall out, length out = 385%nat ->
     fiat_p384_mul_scalar_wnaf out inb <> None) /\
  (forall out extra,
     fiat_p384_mul_scalar_rwnaf out (inb ++ extra)
       = fiat_p384_mul_scalar_rwnaf out inb /\
     fiat_p384_mul_scalar_wnaf out (inb ++ extra)
       = fiat_p384_mul_scalar_wnaf out inb).
Proof.
  intros Hok. split; [|split; [|split; [|split]]].
  - intros i Hi. rewrite get_bit_inside by assumption.
    now rewrite bit_testbit by lia.
  - intros i Hi. now apply get_bit_outside.
  - intros out Hout. now rewrite rwnaf_computes.
  - intros out Hout. now rewrite wnaf_computes.
  - intros out extra. destruct Hok as [Hlen _].
    split; [now apply rwnaf_app|now apply wnaf_app].
Qed.

(** ** Concrete instances *)

Lemma scalar_okb_ok inb : scalar_okb inb = true -> scalar_ok inb.
Proof.
  unfold scalar_okb, scalar_ok. rewrite andb_true_iff, Nat.eqb_eq.
  intros [Hl Hb]. split; [exact Hl|].
  apply Forall_forall. intros b Hin.
  rewrite forallb_forall in Hb. specialize (Hb b Hin). lia.
Qed.

Lemma rwnaf_correct_witness :
  exists ds,
    fiat_p384_mul_scalar_rwnaf (repeat 0 77) cavp_scalar = Some ds /\
    length ds = 77%nat /\
    Forall (fun d => Z.odd d = true /\ -31 <= d <= 31 /\ d <> 0) ds /\
    0 <= nth 76 ds 0 /\
    digits_eval (2 ^ 5) ds
      = bytes_eval cavp_scalar + (1 - bytes_eval cavp_scalar mod 2).
Proof.
  apply (rwnaf_correct (repeat 0 77) cavp_scalar).
  - apply scalar_okb_ok. vm_compute. reflexivity.
  - reflexivity.
Defined.

Lemma wnaf_correct_witness :
  exists ds,
    fiat_p384_mul_scalar_wnaf (repeat 0 385) cavp_scalar = Some ds /\
    length ds = 385%nat /\
    Forall (fun d => d = 0 \/ (Z.odd d = true /\ -31 <= d <= 31)) ds /\
    digits_eval 2 ds = bytes_eval cavp_scalar /\
    (forall i j, (i < 385)%nat -> nth i ds 0 <> 0 ->
                 (1 <= j <= 4)%nat -> (i + j < 385)%nat ->
                 nth (i + j) ds 0 = 0).
Proof.
  apply (wnaf_correct (repeat 0 385) cavp_scalar).
  - apply scalar_okb_ok. vm_compute. reflexivity.
  - reflexivity.
Defined.

Lemma get_bit_safe_witness :
  fiat_p384_get_bit cavp_scalar 2 = Some 1 /\
  fiat_p384_get_bit cavp_scalar 384 = Some 0 /\
  fiat_p384_mul_scalar_rwnaf (repeat 0 77) cavp_scalar <> None.
Proof.
  assert (Hok : scalar_ok cavp_scalar)
    by (apply scalar_okb_ok; vm_compute; reflexivity).
  destruct (get_bit_safe cavp_scalar Hok) as (H1 & H2 & H3 & _).
  split; [|split].
  - rewrite (H1 2) by lia. vm_compute. reflexivity.
  - apply H2. lia.
  - apply H3. reflexivity.
Defined.

Lemma select_point_spec_witness :
  nth_error [(fe 1, fe 2, fe 3); (fe 4, fe 5, fe 6)] 1
    = Some (fiat_p384_select_point 1 [(fe 1, fe 2, fe 3); (fe 4, fe 5, fe 6)] 2)
  /\ fiat_p384_select_point_affine 7 [(fe 1, fe 2); (fe 4, fe 5)] 2
     = (repeat 0 6%nat, repeat 0 6%nat).
Proof.
  destruct select_point_spec as [HJ HA]. split.
  - apply (HJ [(fe 1, fe 2, fe 3); (fe 4, fe 5, fe 6)] 1); cbn; lia.
  - apply (HA [(fe 1, fe 2); (fe 4, fe 5)] 7); cbn; lia.
Defined.

(** ** Primality of the field prime *)

Lemma trial_division_sound fuel : forall d n,
  1 < d ->
  (forall k, 1 < k < d -> ~ (k | n)) ->
  trial_division fuel d n = true ->
  forall k, 1 < k -> k * k <= n -> ~ (k | n).
Proof.
  induction fuel as [|fuel IH]; intros d n Hd Hsmall Ht k Hk Hkk;
    cbn [trial_division] in Ht; [discriminate|].
  destruct (Z.ltb_spec n (d * d)).
  - apply Hsmall. nia.
  - destruct (Z.eqb_spec (n mod d) 0); [discriminate|].
    apply (IH (d + 1) n); try assumption; try lia.
    intros j Hj. destruct (Z.eq_dec j d) as [->|Hne].
    + intros Hdiv. apply Z.mod_divide in Hdiv; lia.
    + apply Hsmall. lia.
Qed.

Lemma no_small_divisor_prime n :
  1 < n -> (forall k, 1 < k -> k * k <= n -> ~ (k | n)) -> Z.prime n.
Proof.
  intros Hn H. split; [exact Hn|]. intros k Hk [m Hm].
  assert (Hm1 : 1 < m < n) by nia.
  destruct (Z.le_gt_cases k m).
  - apply (H k); [lia|nia|]. now exists m.
  - apply (H m); [lia|nia|]. exists k. lia.
Qed.

Lemma prime_by_trial_sound n : prime_by_trial n = true -> Z.prime n.
Proof.
  unfold prime_by_trial. rewrite andb_true_iff, Z.ltb_lt. intros [Hn Ht].
  apply no_small_divisor_prime; [exact Hn|].
  apply (trial_division_sound (Z.to_nat (Z.sqrt n)) 2 n); [lia| |exact Ht].
  intros k Hk. lia.
Qed.

(** Every integer above 1 has a prime divisor. *)
Lemma prime_divisor_below (k : nat) : forall n,
  1 < n -> (Z.to_nat n <= k)%nat -> exists r, Z.prime r /\ (r | n).
Proof.
  induction k as [|k IH]; intros n Hn Hk; [lia|].
  destruct (prime_dec n) as [Hp|Hnp].
  - exists n. split; [now apply prime_alt|apply Z.divide_refl].
  - destruct (not_prime_divide n Hn Hnp) as (d & Hd & Hdn).
    destruct (IH d ltac:(lia) ltac:(lia)) as (r & Hr & Hrd).
    exists r. split; [exact Hr|]. now apply Z.divide_trans with d.
Qed.

Lemma prime_divisor_exists n : 1 < n -> exists r, Z.prime r /\ (r | n).
Proof.
  intros Hn. apply (prime_divisor_below (Z.to_nat n) n Hn). lia.
Qed.

(** A composite number has a prime divisor below its square root. *)
Lemma small_prime_divisor n :
  1 < n -> ~ Z.prime n -> exists r, Z.prime r /\ (r | n) /\ r * r <= n.
Proof.
  intros Hn Hnp.
  destruct (not_prime_divide n Hn) as (d & Hd & [m Hm]).
  { intros H. apply Hnp. now apply prime_alt. }
  assert (Hm1 : 1 < m < n) by nia.
  assert (Hc : exists c, 1 < c /\ (c | n) /\ c * c <= n).
  { destruct (Z.le_gt_cases d m).
    - exists d. split; [lia|split; [now exists m|nia]].
    - exists m. split; [lia|split; [exists d; lia|nia]]. }
  destruct Hc as (c & Hc1 & Hcn & Hcc).
  destruct (prime_divisor_exists c Hc1) as (r & Hr & Hrc).
  exists r. split; [exact Hr|split].
  - now apply Z.divide_trans with c.
  - pose proof (Z.prime_ge_2 r Hr).
    assert (r <= c) by (apply Z.divide_pos_le; [lia|exact Hrc]). nia.
Qed.

(** Exponents [m], [n] with [b^m = b^n = 1] modulo [r] are closed under
    [gcd]. *)
Lemma pow_mod_gcd b r : 1 < r -> forall (k : nat) m n,
  0 <= m -> 0 <= n -> (Z.to_nat (m + n) <= k)%nat ->
  b ^ m mod r = 1 -> b ^ n mod r = 1 -> b ^ Z.gcd m n mod r = 1.
Proof.
  intros Hr. induction k as [|k IH]; intros m n Hm Hn Hk Em En.
  - assert (m = 0) by lia. assert (n = 0) by lia. subst. exact Em.
  - destruct (Z.eq_dec n 0) as [->|Hn0].
    { rewrite Z.gcd_0_r, Z.abs_eq by lia. exact Em. }
    destruct (Z.eq_dec m 0) as [->|Hm0].
    { rewrite Z.gcd_0_l, Z.abs_eq by lia. exact En. }
    destruct (Z.le_gt_cases n m).
    + replace (Z.gcd m n) with (Z.gcd (m - n) n)
        by (rewrite Z.gcd_comm, Z.gcd_sub_diag_r, Z.gcd_comm; reflexivity).
      apply IH; [lia|lia|lia| |exact En].
      replace m with ((m - n) + n) in Em by lia.
      rewrite Z.pow_add_r in Em by lia.
      rewrite <- Zmult_mod_idemp_r, En, Z.mul_1_r in Em. exact Em.
    + replace (Z.gcd m n) with (Z.gcd m (n - m))
        by (apply Z.gcd_sub_diag_r).
      apply IH; [lia|lia|lia|exact Em|].
      replace n with ((n - m) + m) in En by lia.
      rewrite Z.pow_add_r in En by lia.
      rewrite <- Zmult_mod_idemp_r, Em, Z.mul_1_r in En. exact En.
Qed.

Lemma mod_mod_divide a r N : 0 < r -> 0 < N -> (r | N) -> (a mod N) mod r = a mod r.
Proof. intros Hr HN Hd. now apply Z.mod_mod_divide. Qed.

(** The heart of Pocklington's criterion: every prime divisor [r] of [N] is
    1 modulo each certified prime [q]. *)
Lemma pock_line_divides N q a r :
  1 < N -> Z.prime q -> Z.prime r -> (r | N) ->
  pock_line N (q, a) = true -> (q | r - 1).
Proof.
  intros HN Hq Hr HrN Hline. unfold pock_line in Hline.
  cbv zeta in Hline.
  rewrite !andb_true_iff, !Z.eqb_eq in Hline. destruct Hline as [[H1 H2] H3].
  rewrite !Zpow_mod_correct in * by lia.
  rewrite Z.mod_pow_l in H2.
  pose proof (Z.prime_ge_2 q Hq) as Hq2. pose proof (Z.prime_ge_2 r Hr) as Hr2.
  set (e := (N - 1) / q) in *.
  assert (He : N - 1 = q * e).
  { unfold e. apply Z.div_exact; lia. }
  assert (He0 : 0 <= e) by (unfold e; apply Z.div_pos; lia).
  set (b := a ^ e) in *.
  assert (E1 : b ^ q mod r = 1).
  { rewrite <- (mod_mod_divide _ r N) by (try assumption; lia).
    rewrite H2. apply Z.mod_small. lia. }
  assert (E2 : b mod r <> 1).
  { intros Hb. assert (Hd : (r | b mod N - 1)).
    { apply Z.mod_divide; [lia|].
      rewrite <- Zminus_mod_idemp_l, mod_mod_divide, Hb by (try assumption; lia).
      reflexivity. }
    pose proof (Z.gcd_greatest _ _ _ Hd HrN) as Hg. rewrite H3 in Hg.
    apply Z.divide_1_r_nonneg in Hg; lia. }
  assert (E3 : b mod r <> 0).
  { intros Hb. rewrite <- Z.mod_pow_l, Hb, Z.pow_0_l in E1 by lia.
    rewrite Z.mod_0_l in E1 by lia. discriminate. }
  pose proof (Z.fermat_nz r b Hr E3) as E4.
  pose proof (pow_mod_gcd b r ltac:(lia) (Z.to_nat (q + (r - 1))) q (r - 1)
                ltac:(lia) ltac:(lia) ltac:(lia) E1 E4) as Eg.
  pose proof (Z.gcd_divide_l q (r - 1)) as Hgq.
  pose proof (Z.gcd_divide_r q (r - 1)) as Hgr.
  pose proof (Z.gcd_nonneg q (r - 1)) as Hg0.
  destruct (Z.divide_prime_r _ _ Hq Hgq) as [Hg|[Hg|[Hg|Hg]]]; try lia.
  - rewrite Hg, Z.pow_1_r in Eg. contradiction.
  - now rewrite Hg in Hgr.
Qed.

Lemma lcm_list_divides (qs : list Z) m :
  Forall (fun q => (q | m)) qs -> (fold_right Z.lcm 1 qs | m).
Proof.
  induction 1 as [|q qs Hq Hqs IH]; cbn [fold_right].
  - apply Z.divide_1_l.
  - now apply Z.lcm_least.
Qed.

Lemma lcm_list_nonneg (qs : list Z) : 0 <= fold_right Z.lcm 1 qs.
Proof. destruct qs; cbn [fold_right]; [lia|apply Z.lcm_nonneg]. Qed.

(** Every positive divisor of [N] is 1 modulo [L] as soon as every prime
    divisor is. *)
Lemma divisors_one_mod N L :
  (forall r, Z.prime r -> (r | N) -> (L | r - 1)) ->
  forall (k : nat) u, (Z.to_nat u <= k)%nat -> 0 < u -> (u | N) -> (L | u - 1).
Proof.
  intros Hprimes. induction k as [|k IH]; intros u Hk Hu HuN; [lia|].
  destruct (Z.eq_dec u 1) as [->|Hne]; [apply Z.divide_0_r|].
  destruct (prime_divisor_exists u ltac:(lia)) as (r & Hr & [u' Hu']).
  pose proof (Z.prime_ge_2 r Hr) as Hr2.
  assert (Hu'0 : 0 < u' < u) by nia.
  assert (HrN : (r | N)).
  { apply Z.divide_trans with u; [exists u'; lia|exact HuN]. }
  assert (Hu'N : (u' | N)).
  { apply Z.divide_trans with u; [exists r; lia|exact HuN]. }
  replace (u - 1) with ((r - 1) * u' + (u' - 1)) by lia.
  apply Z.divide_add_r.
  - apply Z.divide_mul_l. now apply Hprimes.
  - apply IH; [lia|lia|exact Hu'N].
Qed.

Lemma not_square_sound x : not_square (x * x) = false.
Proof.
  unfold not_square. apply orb_false_iff. split.
  - apply Z.ltb_ge. nia.
  - apply negb_false_iff, Z.eqb_eq.
    replace (x * x) with (Z.abs x * Z.abs x) by nia.
    rewrite Z.sqrt_square by lia. reflexivity.
Qed.

(** Pocklington's criterion with the certified part above the cube root. *)
Theorem pock_check_sound N cert :
  Forall (fun qa => Z.prime (fst qa)) cert ->
  pock_check N cert = true -> Z.prime N.
Proof.
  intros Hprimes Hc. unfold pock_check in Hc. cbv zeta in Hc.
  set (L := fold_right Z.lcm 1 (map fst cert)) in *.
  rewrite !andb_true_iff, !Z.ltb_lt, Z.eqb_eq, forallb_forall in Hc.
  destruct Hc as [[[[HN Hlines] HLN] Hcube] Hdisc].
  destruct (prime_dec N) as [Hp|Hnp]; [now apply prime_alt|exfalso].
  assert (HL0 : 0 <= L) by apply lcm_list_nonneg.
  assert (HL : 0 < L) by nia.
  assert (Hr1 : forall r, Z.prime r -> (r | N) -> (L | r - 1)).
  { intros r Hr HrN. apply lcm_list_divides.
    apply Forall_forall. intros q Hin. apply in_map_iff in Hin.
    destruct Hin as ([q' a] & <- & Hin). cbn [fst].
    apply (pock_line_divides N q' a r); try assumption.
    - rewrite Forall_forall in Hprimes. apply (Hprimes (q', a) Hin).
    - apply Hlines, Hin. }
  destruct (not_prime_divide N HN Hnp) as (d & Hd & [m Hm]).
  assert (Hm1 : 1 < m < N) by nia.
  destruct (divisors_one_mod N L Hr1 (Z.to_nat d) d ltac:(lia) ltac:(lia))
    as [b Hb]; [now exists m|].
  destruct (divisors_one_mod N L Hr1 (Z.to_nat m) m ltac:(lia) ltac:(lia))
    as [a Ha]; [exists d; lia|].
  assert (Ha1 : 1 <= a) by nia. assert (Hb1 : 1 <= b) by nia.
  set (R := (N - 1) / L) in *.
  assert (HR : N - 1 = L * R).
  { unfold R. apply Z.div_exact; lia. }
  assert (ER : R = a * b * L + (a + b)).
  { apply (Z.mul_cancel_l _ _ L); [lia|]. rewrite <- HR. nia. }
  assert (Hab : a * b < L).
  { destruct (Z.lt_ge_cases (a * b) L) as [|Hge]; [assumption|exfalso].
    assert (L * (L * L) <= a * b * (L * L)) by (apply Z.mul_le_mono_nonneg_r; nia).
    nia. }
  assert (Hsum : a + b <= a * b + 1) by nia.
  destruct (Z.eq_dec (a + b) L) as [E|E].
  - assert (Er : R mod L = 0).
    { rewrite ER, E. replace (a * b * L + L) with ((a * b + 1) * L) by ring.
      apply Z.mod_mul. lia. }
    assert (Es : R / L = a * b + 1).
    { rewrite ER, E. replace (a * b * L + L) with ((a * b + 1) * L) by ring.
      apply Z.div_mul. lia. }
    rewrite Er, Es in Hdisc. apply orb_true_iff in Hdisc.
    destruct Hdisc as [H|H].
    + apply Z.eqb_eq in H. nia.
    + apply andb_true_iff in H. destruct H as [H _]. discriminate.
  - assert (Er : R mod L = a + b).
    { rewrite ER, Z.add_comm, Z.mod_add by lia. apply Z.mod_small. lia. }
    assert (Es : R / L = a * b).
    { rewrite ER, Z.add_comm, Z.div_add by lia.
      rewrite Z.div_small by lia. lia. }
    rewrite Er, Es in Hdisc. apply orb_true_iff in Hdisc.
    destruct Hdisc as [H|H].
    + apply Z.eqb_eq in H. nia.
    + apply andb_true_iff in H. destruct H as [_ H].
      replace ((a + b) * (a + b) - 4 * (a * b)) with ((a - b) * (a - b)) in H
        by ring.
      rewrite not_square_sound in H. discriminate.
Qed.

Lemma check_chain_sound chain : forall known,
  Forall Z.prime known -> check_chain known chain = true ->
  Forall Z.prime (map fst chain).
Proof.
  induction chain as [|[N cert] rest IH]; intros known Hk Hc;
    [constructor|].
  cbn [check_chain] in Hc. apply andb_true_iff in Hc. destruct Hc as [HN Hrest].
  assert (HpN : Z.prime N).
  { destruct cert as [|qa cert]; [now apply prime_by_trial_sound|].
    apply andb_true_iff in HN. destruct HN as [Hin Hpock].
    apply (pock_check_sound N (qa :: cert)); [|exact Hpock].
    rewrite forallb_forall in Hin. apply Forall_forall. intros x Hx.
    specialize (Hin x Hx). apply existsb_exists in Hin.
    destruct Hin as (q & Hq & Heq). apply Z.eqb_eq in Heq. rewrite Heq.
    rewrite Forall_forall in Hk. now apply Hk. }
  cbn [map fst]. constructor; [exact HpN|].
  apply (IH (N :: known)); [now constructor|exact Hrest].
Qed.

Theorem p384_prime : Z.prime p384.
Proof.
  assert (H : Forall Z.prime (map fst p384_certificate)).
  { apply (check_chain_sound p384_certificate []); [constructor|].
    vm_compute. reflexivity. }
  rewrite Forall_forall in H. apply H.
  unfold p384_certificate. cbn [map fst]. 
  repeat (try (left; reflexivity); right).
Qed.

(** ** The field of residues modulo [p] *)

Add Ring Fp_ring : (Zmod.ring_theory p384).

Add Field Fp_field : (Zmod.field_theory p384 p384_prime).

Lemma fval_split a : fval a = Zmod.mul (Zmod.of_Z p384 (feval a)) Rinv_F.
Proof. unfold fval, Rinv_F. apply Zmod.of_Z_mul. Qed.

Lemma of_Z_fe v :
  Zmod.of_Z p384 (feval (fe v)) = Zmod.of_Z p384 v.
Proof. rewrite feval_fe. apply Zmod.of_Z_mod. Qed.

Lemma R_Rinv : Zmod.mul (Zmod.of_Z p384 mont_R) Rinv_F = Zmod.one.
Proof.
  unfold Rinv_F. rewrite <- Zmod.of_Z_mul, <- Zmod.of_Z_1.
  apply Zmod.of_Z_inj. vm_compute. reflexivity.
Qed.

Lemma fval_mul a b :
  fval (fiat_p384_mul a b) = Zmod.mul (fval a) (fval b).
Proof.
  rewrite !fval_split. unfold fiat_p384_mul. rewrite of_Z_fe.
  rewrite !Zmod.of_Z_mul. fold Rinv_F. ring.
Qed.

Lemma fval_square a :
  fval (fiat_p384_square a) = Zmod.mul (fval a) (fval a).
Proof. apply (fval_mul a a). Qed.

Lemma fval_add a b :
  fval (fiat_p384_add a b) = Zmod.add (fval a) (fval b).
Proof.
  rewrite !fval_split. unfold fiat_p384_add. rewrite of_Z_fe.
  rewrite Zmod.of_Z_add. ring.
Qed.

Lemma fval_sub a b :
  fval (fiat_p384_sub a b) = Zmod.sub (fval a) (fval b).
Proof.
  rewrite !fval_split. unfold fiat_p384_sub. rewrite of_Z_fe.
  rewrite Zmod.of_Z_sub. ring.
Qed.

Lemma fval_opp a : fval (fiat_p384_opp a) = Zmod.opp (fval a).
Proof.
  rewrite !fval_split. unfold fiat_p384_opp. rewrite of_Z_fe.
  rewrite Zmod.of_Z_opp. ring.
Qed.

(** ** Field inversion: the addition chain *)

Lemma is_pow_base a : is_pow (fval a) a 1.
Proof. unfold is_pow. now rewrite Zmod.pow_1_r. Qed.

Lemma is_pow_mul x a b e1 e2 :
  is_pow x a e1 -> is_pow x b e2 -> is_pow x (fiat_p384_mul a b) (e1 + e2).
Proof.
  unfold is_pow. intros Ha Hb.
  rewrite fval_mul, Ha, Hb, Pos2Z.inj_add, Zmod.pow_add_r_nonneg by lia.
  reflexivity.
Qed.

Lemma is_pow_square x a e :
  is_pow x a e -> is_pow x (fiat_p384_square a) (e~0).
Proof.
  intros Ha. replace (e~0)%positive with (e + e)%positive by lia.
  now apply (is_pow_mul x a a).
Qed.

Lemma is_pow_square_loop x n : forall a e,
  is_pow x a e -> is_pow x (square_loop n a) (double_n n e).
Proof.
  induction n as [|n IH]; intros a e Ha; cbn [square_loop double_n].
  - exact Ha.
  - apply IH. now apply is_pow_square.
Qed.

Ltac pow_step :=
  lazymatch goal with
  | |- is_pow _ (fiat_p384_mul _ _) _ => apply is_pow_mul
  | |- is_pow _ (fiat_p384_square _) _ => apply is_pow_square
  | |- is_pow _ (square_loop _ _) _ => apply is_pow_square_loop
  | |- is_pow (fval ?a) ?a _ => apply is_pow_base
  end.

Lemma inv_square_is_pow a :
  exists e, is_pow (fval a) (fiat_p384_inv_square a) e /\ Z.pos e = p384 - 3.
Proof.
  eexists. split.
  - unfold fiat_p384_inv_square. cbv zeta.
    repeat pow_step.
  - vm_compute. reflexivity.
Qed.

(** [fiat_p384_inv_square] raises to the power [p - 3]. *)
Lemma fval_inv_square a :
  fval (fiat_p384_inv_square a) = Zmod.pow (fval a) (p384 - 3).
Proof.
  destruct (inv_square_is_pow a) as (e & He & Ee). rewrite <- Ee. exact He.
Qed.

(** For a non-zero element this is the inverse of the square. *)
Lemma fval_inv_square_nz a :
  fval a <> Zmod.zero ->
  fval (fiat_p384_inv_square a) = Zmod.inv (Zmod.mul (fval a) (fval a)).
Proof.
  intros Hnz. rewrite fval_inv_square. set (x := fval a) in *.
  assert (Hx2 : Zmod.mul x x <> Zmod.zero).
  { intros H. apply (Zmod.mul_0_iff_prime p384_prime) in H. tauto. }
  apply (Zmod.mul_cancel_l_prime (Zmod.mul x x) _ _ p384_prime Hx2).
  rewrite (Zmod.mul_inv_same_r_prime _ p384_prime Hx2).
  rewrite <- Zmod.pow_2_r, <- Zmod.pow_add_r_nonneg by (vm_compute; discriminate).
  replace (2 + (p384 - 3)) with (Z.pred p384) by lia.
  now apply Zmod.fermat_nz; [|apply p384_prime].
Qed.

(** ** Byte buffers *)

Lemma bytes_of_length n v : length (bytes_of n v) = n.
Proof. revert v; induction n; cbn [bytes_of length]; intros; auto. Qed.

Lemma bytes_of_range n v : Forall (fun b => 0 <= b < 256) (bytes_of n v).
Proof.
  revert v; induction n; cbn [bytes_of]; intros; constructor; auto.
  apply Z.mod_pos_bound; lia.
Qed.

Lemma bytes_eval_of n v :
  0 <= v < 256 ^ Z.of_nat n -> bytes_eval (bytes_of n v) = v.
Proof.
  revert v; induction n as [|n IH]; intros v Hv.
  - cbn in *. lia.
  - cbn [bytes_of bytes_eval]. rewrite IH.
    + pose proof (Z.div_mod v 256). lia.
    + rewrite Nat2Z.inj_succ, Z.pow_succ_r in Hv by lia.
      split; [apply Z.div_pos; lia|apply Z.div_lt_upper_bound; lia].
Qed.

Lemma firstn_48 (bs : list Z) : length bs = 48%nat -> firstn 48 bs = bs.
Proof. intros H. apply firstn_all2. lia. Qed.

Lemma feval_from_generic bs :
  scalar_ok bs -> feval (fiat_p384_from_generic bs) = bytes_eval bs.
Proof.
  intros Hok. unfold fiat_p384_from_generic, fiat_p384_from_bytes, feval.
  rewrite firstn_48 by apply Hok. apply limbs_eval_of.
  pose proof (scalar_range bs Hok). unfold FIAT_P384_NLIMBS.
  change (2 ^ (64 * Z.of_nat 6)) with (2 ^ 384). lia.
Qed.

Lemma to_generic_ok v : felem_bytes_ok (fiat_p384_to_generic (fe v)).
Proof.
  unfold fiat_p384_to_generic, fiat_p384_to_bytes. rewrite feval_fe.
  pose proof (Z.mod_pos_bound v p384 p384_pos) as Hv.
  assert (Hr : 0 <= v mod p384 < 256 ^ Z.of_nat 48).
  { split; [lia|]. apply Z.lt_trans with p384; [lia|reflexivity]. }
  split; [split|].
  - apply bytes_of_length.
  - apply bytes_of_range.
  - rewrite bytes_eval_of by exact Hr. lia.
Qed.

Lemma from_to_generic v :
  fiat_p384_from_generic (fiat_p384_to_generic (fe v)) = fe v.
Proof.
  unfold fiat_p384_from_generic, fiat_p384_from_bytes, fiat_p384_to_generic,
    fiat_p384_to_bytes.
  rewrite firstn_48 by apply bytes_of_length. rewrite feval_fe.
  rewrite bytes_eval_of; [reflexivity|].
  pose proof (Z.mod_pos_bound v p384 p384_pos).
  split; [lia|]. apply Z.lt_trans with p384; [lia|reflexivity].
Qed.

Lemma Rinv_F_nz : Rinv_F <> Zmod.zero.
Proof.
  intros H. pose proof R_Rinv as E. rewrite H in E.
  rewrite Zmod.mul_0_r in E.
  apply (Zmod.one_neq_zero (m := p384)); [|now symmetry].
  vm_compute. discriminate.
Qed.

(** A reduced Montgomery form is zero exactly when its field element is. *)
Lemma fval_zero_iff a :
  0 <= feval a < p384 -> (fval a = Zmod.zero <-> feval a = 0).
Proof.
  intros Ha. rewrite fval_split. split.
  - intros H. apply (Zmod.mul_0_iff_prime p384_prime) in H.
    destruct H as [H|H]; [|now apply Rinv_F_nz in H].
    rewrite <- Zmod.of_Z_0 in H. apply Zmod.of_Z_inj in H.
    rewrite Z.mod_small, Z.mod_0_l in H by (try exact Ha; apply Z.neq_sym, Z.lt_neq, p384_pos).
    exact H.
  - intros ->. rewrite Zmod.of_Z_0. apply Zmod.mul_0_l.
Qed.

Lemma bval_zero_iff bs :
  felem_bytes_ok bs -> (bval bs = Zmod.zero <-> bytes_eval bs = 0).
Proof.
  intros [Hok Hlt]. unfold bval.
  rewrite fval_zero_iff; rewrite feval_from_generic by exact Hok; [tauto|].
  pose proof (scalar_range bs Hok). lia.
Qed.

(** ** C6: affine coordinates *)

Lemma bval_to_generic v :
  bval (fiat_p384_to_generic (fe v)) = fval (fe v).
Proof. unfold bval. now rewrite from_to_generic. Qed.

Lemma bval_to_generic_mul a b :
  bval (fiat_p384_to_generic (fiat_p384_mul a b))
  = Zmod.mul (fval a) (fval b).
Proof.
  rewrite <- fval_mul. unfold fiat_p384_mul. apply bval_to_generic.
Qed.

Lemma is_at_infinity_spec group P :
  scalar_ok (Z_ P) ->
  ec_GFp_simple_is_at_infinity group P = true <-> bytes_eval (Z_ P) = 0.
Proof.
  intros Hok. unfold ec_GFp_simple_is_at_infinity.
  rewrite firstn_48 by apply Hok. apply Z.eqb_eq.
Qed.

(** C6: [ec_GFp_nistp384_point_get_affine_coordinates] fails (returns 0,
    with [EC_R_POINT_AT_INFINITY]) if and only if the input point has
    [Z = 0]; for every point with [Z <> 0] it returns 1 and the affine
    coordinates [x = X/Z^2] and [y = Y/Z^3] in the field. *)
Theorem get_affine_spec group P :
  point_ok P ->
  (forall wx wy,
     ec_return (ec_GFp_nistp384_point_get_affine_coordinates group P wx wy) = 0
     <-> bytes_eval (Z_ P) = 0) /\
  (bytes_eval (Z_ P) = 0 ->
   forall wx wy,
     ec_GFp_nistp384_point_get_affine_coordinates group P wx wy
     = inl EC_R_POINT_AT_INFINITY) /\
  (bytes_eval (Z_ P) <> 0 ->
   exists x y,
     (forall wx wy,
        ec_GFp_nistp384_point_get_affine_coordinates group P wx wy
        = inr (if wx then Some x else None, if wy then Some y else None)) /\
     felem_bytes_ok x /\ felem_bytes_ok y /\
     bval x = Zmod.mdiv (bval (X P)) (Zmod.pow (bval (Z_ P)) 2) /\
     bval y = Zmod.mdiv (bval (Y P)) (Zmod.pow (bval (Z_ P)) 3)).
Proof.
  intros (HX & HY & HZ).
  pose proof (is_at_infinity_spec group P (proj1 HZ)) as Hinf.
  split; [|split].
  - intros wx wy. unfold ec_GFp_nistp384_point_get_affine_coordinates.
    destruct (ec_GFp_simple_is_at_infinity group P); cbn [ec_return].
    + split; [intros _; now apply Hinf|reflexivity].
    + split; [discriminate|]. intros H. apply Hinf in H. discriminate.
  - intros H wx wy. unfold ec_GFp_nistp384_point_get_affine_coordinates.
    apply Hinf in H. now rewrite H.
  - intros Hnz.
    assert (Hni : ec_GFp_simple_is_at_infinity group P = false).
    { destruct (ec_GFp_simple_is_at_infinity group P); [|reflexivity].
      exfalso. apply Hnz. now apply Hinf. }
    assert (Hz : bval (Z_ P) <> Zmod.zero) by (now rewrite bval_zero_iff).
    unfold ec_GFp_nistp384_point_get_affine_coordinates. rewrite Hni.
    cbv zeta. do 2 eexists. split; [intros wx wy; reflexivity|].
    split; [apply to_generic_ok|split; [apply to_generic_ok|]].
    rewrite !bval_to_generic_mul.
    rewrite !fval_mul, fval_square, !fval_inv_square_nz by exact Hz.
    fold (bval (X P)) (bval (Y P)) (bval (Z_ P)).
    set (z := bval (Z_ P)) in *.
    replace (Zmod.pow z 3) with (Zmod.mul z (Zmod.mul z z)).
    2:{ change 3 with (Z.succ 2).
        now rewrite Zmod.pow_succ_nonneg_r, Zmod.pow_2_r by lia. }
    rewrite Zmod.pow_2_r.
    split; field; assumption.
Qed.

(** ** C7: comparing the affine x-coordinate with a scalar *)

Lemma felem_memeq_fe u w :
  felem_memeq (fe u) (fe w) = true <-> Zmod.of_Z p384 u = Zmod.of_Z p384 w.
Proof.
  unfold felem_memeq.
  rewrite !firstn_all2 by (unfold fe; rewrite limbs_of_length; lia).
  rewrite Zmod.of_Z_inj.
  destruct (list_eq_dec Z.eq_dec (fe u) (fe w)) as [E|E].
  - split; [intros _|reflexivity].
    apply (f_equal feval) in E. now rewrite !feval_fe in E.
  - split; [discriminate|]. intros H. exfalso. apply E. unfold fe. now rewrite H.
Qed.

Lemma div_eq_iff (x z a : Fp) :
  z <> Zmod.zero ->
  (Zmod.mul a (Zmod.mul z z) = x <-> Zmod.mdiv x (Zmod.pow z 2) = a).
Proof.
  intros Hz. rewrite Zmod.pow_2_r.
  assert (Hzz : Zmod.mul z z <> Zmod.zero).
  { intros H. apply (Zmod.mul_0_iff_prime p384_prime) in H. tauto. }
  split; intros H.
  - rewrite <- H. field. exact Hz.
  - rewrite <- H. field. exact Hz.
Qed.

(** The first comparison of [ec_GFp_nistp384_cmp_x_coordinate]. *)
Lemma cmp_x_test P v :
  scalar_ok (X P) -> scalar_ok (Z_ P) -> bval (Z_ P) <> Zmod.zero ->
  feval v < p384 ->
  let Z2_mont := fiat_p384_mul (fiat_p384_from_generic (Z_ P))
                               (fiat_p384_from_generic (Z_ P)) in
  felem_memeq (fiat_p384_mul v Z2_mont)
              (fiat_p384_from_montgomery (fiat_p384_from_generic (X P)))
    = true
  <-> affine_x P = Zmod.of_Z p384 (feval v).
Proof.
  intros HX HZ Hz Hv Z2_mont. unfold fiat_p384_mul at 1, fiat_p384_from_montgomery.
  rewrite felem_memeq_fe. unfold affine_x.
  rewrite <- div_eq_iff by exact Hz.
  rewrite (Zmod.of_Z_mul (feval v * feval Z2_mont)).
  rewrite (Zmod.of_Z_mul (feval v)).
  fold Rinv_F. rewrite <- Zmod.mul_assoc, <- fval_split.
  subst Z2_mont. rewrite fval_mul.
  fold (fval (fiat_p384_from_generic (X P))).
  reflexivity.
Qed.

Lemma feval_from_bytes_scalar r :
  scalar_ok r -> feval (fiat_p384_from_bytes r) = bytes_eval r.
Proof. apply feval_from_generic. Qed.

Lemma bn_add_words_ok r n :
  scalar_ok r -> 0 <= n -> bytes_eval r + n < p384 ->
  scalar_ok (bn_add_words r n) /\
  bytes_eval (bn_add_words r n) = bytes_eval r + n.
Proof.
  intros Hok Hn Hlt. pose proof (scalar_range r Hok) as Hr.
  unfold bn_add_words. rewrite firstn_48 by apply Hok.
  assert (H384 : p384 < 2 ^ 384) by reflexivity.
  rewrite Z.mod_small by lia.
  split; [split; [apply bytes_of_length|apply bytes_of_range]|].
  apply bytes_eval_of. change (256 ^ Z.of_nat 48) with (2 ^ 384). lia.
Qed.

(** C7: for a point with [Z <> 0] and a scalar [r < n],
    [ec_GFp_nistp384_cmp_x_coordinate] returns 1 if and only if the affine
    x-coordinate [X/Z^2] equals [r] or, only when [r < p - n], equals
    [r + n] modulo [p]; it returns 0 otherwise and for the point at
    infinity. *)
Theorem cmp_x_coordinate_spec P r :
  point_ok P -> scalar_ok r -> bytes_eval r < n384 ->
  (bytes_eval (Z_ P) = 0 ->
   ec_GFp_nistp384_cmp_x_coordinate p384_group P r = 0) /\
  (bytes_eval (Z_ P) <> 0 ->
   (ec_GFp_nistp384_cmp_x_coordinate p384_group P r = 1 <->
    (affine_x P = Zmod.of_Z p384 (bytes_eval r) \/
     (bytes_eval r < p384 - n384 /\
      affine_x P = Zmod.of_Z p384 ((bytes_eval r + n384) mod p384)))) /\
   (ec_GFp_nistp384_cmp_x_coordinate p384_group P r = 1 \/
    ec_GFp_nistp384_cmp_x_coordinate p384_group P r = 0)).
Proof.
  intros (HX & HY & HZ) Hr Hrn.
  pose proof (is_at_infinity_spec p384_group P (proj1 HZ)) as Hinf.
  pose proof (scalar_range r Hr) as Hr0.
  assert (Hnp : n384 < p384) by reflexivity.
  assert (Hn0 : 0 < n384) by reflexivity.
  unfold ec_GFp_nistp384_cmp_x_coordinate.
  split.
  - intros H. apply Hinf in H. now rewrite H.
  - intros Hnz.
    assert (Hni : ec_GFp_simple_is_at_infinity p384_group P = false).
    { destruct (ec_GFp_simple_is_at_infinity p384_group P); [|reflexivity].
      exfalso. apply Hnz. now apply Hinf. }
    assert (Hz : bval (Z_ P) <> Zmod.zero) by (now rewrite bval_zero_iff).
    rewrite Hni. cbv zeta.
    pose proof (cmp_x_test P (fiat_p384_from_bytes r) (proj1 HX) (proj1 HZ) Hz)
      as T1.
    rewrite feval_from_bytes_scalar in T1 by exact Hr.
    specialize (T1 ltac:(lia)). cbv zeta in T1.
    unfold bn_less_than_words. rewrite firstn_48 by apply Hr.
    cbn [field_minus_order order p384_group].
    match type of T1 with (?t = true <-> _) => set (c1 := t) in * end.
    destruct c1 eqn:E1.
    { split; [|now left]. split; [intros _; left; now apply T1|reflexivity]. }
    assert (N1 : affine_x P <> Zmod.of_Z p384 (bytes_eval r)).
    { intros H. apply T1 in H. discriminate. }
    destruct (Z.ltb_spec (bytes_eval r) (p384 - n384)) as [Hlt|Hge].
    + destruct (bn_add_words_ok r n384 Hr ltac:(lia) ltac:(lia)) as [Hok2 Hv2].
      pose proof (cmp_x_test P (fiat_p384_from_generic (bn_add_words r n384))
                    (proj1 HX) (proj1 HZ) Hz) as T2.
      rewrite feval_from_generic in T2 by exact Hok2. rewrite Hv2 in T2.
      specialize (T2 ltac:(lia)). cbv zeta in T2.
      rewrite Z.mod_small by lia.
      match type of T2 with (?t = true <-> _) => set (c2 := t) in * end.
      destruct c2 eqn:E2.
      * split; [|now left].
        split; [intros _; right; split; [exact Hlt|now apply T2]|reflexivity].
      * split; [|now right]. split; [discriminate|].
        intros [H|[_ H]]; [contradiction|]. apply T2 in H. discriminate.
    + split; [|now right]. split; [discriminate|].
      intros [H|[H _]]; [contradiction|lia].
Qed.

Lemma felem_bytes_okb_ok bs : felem_bytes_okb bs = true -> felem_bytes_ok bs.
Proof.
  unfold felem_bytes_okb. rewrite andb_true_iff, Z.ltb_lt.
  intros [H1 H2]. split; [now apply scalar_okb_ok|exact H2].
Qed.

Lemma sample_point_ok : point_ok sample_point.
Proof.
  repeat split; try reflexivity;
    try (apply scalar_okb_ok; vm_compute; reflexivity).
Defined.

Lemma get_affine_spec_witness :
  exists x y,
    (forall wx wy,
       ec_GFp_nistp384_point_get_affine_coordinates p384_group sample_point
         wx wy
       = inr (if wx then Some x else None, if wy then Some y else None)) /\
    felem_bytes_ok x /\ felem_bytes_ok y /\
    bval x = Zmod.mdiv (bval (X sample_point))
                       (Zmod.pow (bval (Z_ sample_point)) 2) /\
    bval y = Zmod.mdiv (bval (Y sample_point))
                       (Zmod.pow (bval (Z_ sample_point)) 3).
Proof.
  destruct (get_affine_spec p384_group sample_point sample_point_ok)
    as (_ & _ & H).
  apply H. vm_compute. discriminate.
Defined.

Lemma cmp_x_coordinate_spec_witness :
  ec_GFp_nistp384_cmp_x_coordinate p384_group sample_point cavp_scalar = 1
  <-> (affine_x sample_point = Zmod.of_Z p384 (bytes_eval cavp_scalar) \/
       (bytes_eval cavp_scalar < p384 - n384 /\
        affine_x sample_point
        = Zmod.of_Z p384 ((bytes_eval cavp_scalar + n384) mod p384))).
Proof.
  assert (Hok : scalar_ok cavp_scalar)
    by (apply scalar_okb_ok; vm_compute; reflexivity).
  assert (Hlt : bytes_eval cavp_scalar < n384) by (vm_compute; reflexivity).
  destruct (cmp_x_coordinate_spec sample_point cavp_scalar sample_point_ok
              Hok Hlt) as (_ & H).
  apply H. vm_compute. discriminate.
Defined.

(** ** The point arithmetic and the affine addition law *)

Lemma F_two_nz : F_two <> Zmod.zero.
Proof.
  unfold F_two. rewrite <- Zmod.of_Z_1, <- Zmod.of_Z_add, <- Zmod.of_Z_0.
  intro H. apply Zmod.of_Z_inj in H. vm_compute in H. discriminate.
Qed.

Lemma Fp_mul_nz (a b : Fp) :
  a <> Zmod.zero -> b <> Zmod.zero -> Zmod.mul a b <> Zmod.zero.
Proof.
  intros Ha Hb H. apply (Zmod.mul_0_iff_prime p384_prime) in H. tauto.
Qed.

Lemma Fp_mul_zero (a b : Fp) :
  Zmod.mul a b = Zmod.zero <-> a = Zmod.zero \/ b = Zmod.zero.
Proof. apply (Zmod.mul_0_iff_prime p384_prime). Qed.

Lemma Fp_div_zero (a b : Fp) :
  b <> Zmod.zero -> (Zmod.mdiv a b = Zmod.zero <-> a = Zmod.zero).
Proof.
  intros Hb. split; intros H.
  - replace a with (Zmod.mul (Zmod.mdiv a b) b) by (field; assumption).
    rewrite H. ring.
  - subst a. field. assumption.
Qed.

Create Rewrite HintDb fval.
#[local] Hint Rewrite fval_mul fval_square fval_add fval_sub fval_opp : fval.

(** The field values of the outputs of [fiat_p384_point_double]. *)
Lemma point_double_fval x y z :
  let '(x', y', z') := fiat_p384_point_double x y z in
  let alpha := (F_three * ((fval x - fval z * fval z)
                           * (fval x + fval z * fval z)))%Zmod in
  let beta := (fval x * (fval y * fval y))%Zmod in
  fval x' = (alpha * alpha - F_two * F_two * F_two * beta)%Zmod /\
  fval y' = (alpha * (F_two * F_two * beta - fval x')
             - F_two * F_two * F_two
               * (fval y * fval y * (fval y * fval y)))%Zmod /\
  fval z' = (F_two * fval y * fval z)%Zmod.
Proof.
  unfold fiat_p384_point_double. cbv beta iota zeta.
  repeat split; autorewrite with fval; unfold F_two, F_three; ring.
Qed.

Lemma to_affine_double x y z :
  to_affine (fiat_p384_point_double x y z)
  = affine_double (to_affine (x, y, z)).
Proof.
  pose proof (point_double_fval x y z) as H.
  destruct (fiat_p384_point_double x y z) as [[x' y'] z'].
  cbv zeta in H. destruct H as (Hx & Hy & Hz).
  unfold to_affine, affine_double.
  destruct (Zmod.eqb_spec (fval z) Zmod.zero) as [Ez|Ez].
  - destruct (Zmod.eqb_spec (fval z') Zmod.zero) as [_|Ez']; [reflexivity|].
    exfalso. apply Ez'. rewrite Hz, Ez. ring.
  - assert (Hz3 : (fval z * fval z * fval z)%Zmod <> Zmod.zero)
      by (repeat apply Fp_mul_nz; assumption).
    destruct (Zmod.eqb_spec (Zmod.mdiv (fval y) (fval z * fval z * fval z)%Zmod)
                Zmod.zero) as [Ey|Ey].
    + apply Fp_div_zero in Ey; [|assumption].
      destruct (Zmod.eqb_spec (fval z') Zmod.zero) as [_|Ez']; [reflexivity|].
      exfalso. apply Ez'. rewrite Hz, Ey. ring.
    + assert (Ey' : fval y <> Zmod.zero).
      { intro E. apply Ey. rewrite E. field. assumption. }
      pose proof F_two_nz as H2.
      assert (Ez' : fval z' <> Zmod.zero).
      { rewrite Hz. repeat apply Fp_mul_nz; assumption. }
      destruct (Zmod.eqb_spec (fval z') Zmod.zero) as [E|_]; [contradiction|].
      rewrite Hy, Hx, Hz. unfold F_two, F_three in *.
      f_equal. f_equal; field; repeat split; assumption.
Qed.

(** *** Canonical limb arrays *)

Lemma limbs_of_eval l :
  Forall (fun x => 0 <= x < 2 ^ 64) l ->
  limbs_of (length l) (limbs_eval l) = l.
Proof.
  induction 1 as [|x l Hx Hl IH]; [reflexivity|].
  cbn [length limbs_of limbs_eval]. f_equal.
  - rewrite (Z.mul_comm (2 ^ 64)), Z.mod_add by lia. apply Z.mod_small, Hx.
  - rewrite (Z.mul_comm (2 ^ 64)), Z.div_add by lia.
    rewrite Z.div_small by exact Hx. exact IH.
Qed.

Lemma fe_feval a : felem_ok a -> fe (feval a) = a.
Proof.
  intros (Hl & Hr & Hp). unfold fe, feval in *.
  rewrite Z.mod_small by (split; [now apply limbs_eval_nonneg|assumption]).
  rewrite <- Hl. now apply limbs_of_eval.
Qed.

(** Two well-formed elements with the same field value are the same array. *)
Lemma fval_inj a b : felem_ok a -> felem_ok b -> fval a = fval b -> a = b.
Proof.
  intros Ha Hb H. rewrite <- (fe_feval a Ha), <- (fe_feval b Hb).
  assert (HR : forall x : Fp,
             x = Zmod.mul (Zmod.mul x Rinv_F) (Zmod.of_Z p384 mont_R)).
  { intros x. rewrite <- Zmod.mul_assoc, (Zmod.mul_comm Rinv_F), R_Rinv. ring. }
  rewrite !fval_split in H.
  assert (E : Zmod.of_Z p384 (feval a) = Zmod.of_Z p384 (feval b)).
  { rewrite (HR (Zmod.of_Z p384 (feval a))), H, <- HR. reflexivity. }
  apply Zmod.of_Z_inj in E. unfold fe. now rewrite E.
Qed.

Lemma nz_fval a : felem_ok a -> (fiat_p384_nz a = 0 <-> fval a = Zmod.zero).
Proof.
  intros Ha. rewrite nz_zero_iff by assumption. symmetry.
  apply fval_zero_iff. split; [now apply feval_nonneg|apply Ha].
Qed.

Lemma fval_one : fval fiat_p384_one = Zmod.one.
Proof.
  unfold fval. rewrite <- Zmod.of_Z_1. apply Zmod.of_Z_inj.
  vm_compute. reflexivity.
Qed.

Lemma one_ok : felem_ok fiat_p384_one.
Proof.
  split; [reflexivity|]. split.
  - repeat constructor; vm_compute; congruence.
  - vm_compute. reflexivity.
Qed.

Lemma Fp_div_eq (a b c d : Fp) :
  b <> Zmod.zero -> d <> Zmod.zero ->
  (Zmod.mdiv a b = Zmod.mdiv c d <-> Zmod.mul a d = Zmod.mul c b).
Proof.
  intros Hb Hd. split; intros H.
  - replace (Zmod.mul a d) with (Zmod.mul (Zmod.mul (Zmod.mdiv a b) b) d)
      by (field; assumption).
    rewrite H. field. assumption.
  - replace (Zmod.mdiv a b) with (Zmod.mdiv (Zmod.mul a d) (Zmod.mul b d))
      by (field; split; assumption).
    rewrite H. field. split; assumption.
Qed.

(** *** The branches of [fiat_p384_point_add] on two finite points *)

Lemma point_add_finite x1 y1 z1 x2 y2 z2 :
  felem_ok z1 -> felem_ok z2 ->
  fval z1 <> Zmod.zero -> fval z2 <> Zmod.zero ->
  let u1 := (fval x1 * (fval z2 * fval z2))%Zmod in
  let u2 := (fval x2 * (fval z1 * fval z1))%Zmod in
  let s1 := (fval y1 * (fval z2 * fval z2 * fval z2))%Zmod in
  let s2 := (fval y2 * (fval z1 * fval z1 * fval z1))%Zmod in
  let h := (u2 - u1)%Zmod in
  let r := (F_two * (s2 - s1))%Zmod in
  let i := (F_two * h * (F_two * h))%Zmod in
  let j := (h * i)%Zmod in
  let v := (u1 * i)%Zmod in
  (h = Zmod.zero /\ r = Zmod.zero ->
   fiat_p384_point_add x1 y1 z1 0 x2 y2 z2
   = fiat_p384_point_double x1 y1 z1) /\
  (~ (h = Zmod.zero /\ r = Zmod.zero) ->
   exists x3 y3 z3,
     fiat_p384_point_add x1 y1 z1 0 x2 y2 z2 = (x3, y3, z3) /\
     felem_ok x3 /\ felem_ok y3 /\ felem_ok z3 /\
     fval x3 = (r * r - j - v - v)%Zmod /\
     fval y3 = (r * (v - fval x3) - F_two * s1 * j)%Zmod /\
     fval z3 = (F_two * h * fval z1 * fval z2)%Zmod).
Proof.
  intros Hz1 Hz2 N1 N2 u1 u2 s1 s2 h r i j v.
  assert (Nz1 : fiat_p384_nz z1 <> 0) by (rewrite nz_fval; assumption).
  assert (Nz2 : fiat_p384_nz z2 <> 0) by (rewrite nz_fval; assumption).
  unfold fiat_p384_point_add, point_add_u1_s1_2z1z2.
  change (negb (lnot 0 =? 0)) with true. cbv beta iota zeta.
  set (hh := fiat_p384_sub (fiat_p384_mul x2 (fiat_p384_square z1))
                           (fiat_p384_mul x1 (fiat_p384_square z2))).
  set (r0 := fiat_p384_sub _ _).
  set (rr := fiat_p384_add r0 r0).
  assert (Hh : fval hh = h).
  { unfold hh. autorewrite with fval. unfold h, u1, u2. ring. }
  assert (Hr : fval rr = r).
  { unfold rr, r0. autorewrite with fval. unfold r, s1, s2, F_two. ring. }
  assert (Hhz : fiat_p384_nz hh = 0 <-> h = Zmod.zero).
  { rewrite <- Hh. apply nz_fval, fe_ok. }
  assert (Hrz : fiat_p384_nz rr = 0 <-> r = Zmod.zero).
  { rewrite <- Hr. apply nz_fval, fe_ok. }
  split.
  - intros [E1 E2]. apply Hhz in E1. apply Hrz in E2.
    rewrite E1, E2, double_taken by assumption. reflexivity.
  - intros Hn.
    assert (Hlor : Z.lor (fiat_p384_nz hh) (fiat_p384_nz rr) <> 0).
    { intros E. apply Z.lor_eq_0_iff in E. tauto. }
    rewrite (is_zero_w_nonzero _ Hlor), !Z.land_0_l. cbn [Z.eqb negb].
    rewrite !cmovznz_nonzero by assumption.
    eexists _, _, _. split; [reflexivity|].
    split; [apply fe_ok|]. split; [apply fe_ok|]. split; [apply fe_ok|].
    repeat split.
    + fold hh rr. autorewrite with fval. rewrite Hh, Hr.
      unfold j, v, i, u1, F_two. ring.
    + fold hh rr. autorewrite with fval. rewrite Hh, Hr.
      unfold j, v, i, s1, u1, F_two. ring.
    + autorewrite with fval. rewrite Hh. unfold F_two. ring.
Qed.

Lemma to_affine_infinity x y z :
  fval z = Zmod.zero -> to_affine (x, y, z) = None.
Proof.
  intros E. unfold to_affine.
  destruct (Zmod.eqb_spec (fval z) Zmod.zero); [reflexivity|contradiction].
Qed.

Lemma to_affine_finite x y z :
  fval z <> Zmod.zero ->
  to_affine (x, y, z)
  = Some (Zmod.mdiv (fval x) (fval z * fval z)%Zmod,
          Zmod.mdiv (fval y) (fval z * fval z * fval z)%Zmod).
Proof.
  intros E. unfold to_affine.
  destruct (Zmod.eqb_spec (fval z) Zmod.zero); [contradiction|reflexivity].
Qed.

(** [fiat_p384_point_add] on two Jacobian points computes the affine
    addition law, whatever the operands. *)
Lemma to_affine_add x1 y1 z1 x2 y2 z2 :
  felem_ok z1 -> felem_ok z2 ->
  to_affine (fiat_p384_point_add x1 y1 z1 0 x2 y2 z2)
  = affine_add (to_affine (x1, y1, z1)) (to_affine (x2, y2, z2)).
Proof.
  intros Hz1 Hz2.
  destruct (Zmod.eqb_spec (fval z2) Zmod.zero) as [E2|E2].
  { rewrite point_add_z2_zero by (apply nz_fval; assumption).
    rewrite (to_affine_infinity x2 y2 z2 E2).
    destruct (to_affine (x1, y1, z1)) as [[? ?]|]; reflexivity. }
  destruct (Zmod.eqb_spec (fval z1) Zmod.zero) as [E1|E1].
  { rewrite point_add_z1_zero
      by (try (apply nz_fval; assumption); rewrite nz_fval; assumption).
    rewrite (to_affine_infinity x1 y1 z1 E1). reflexivity. }
  destruct (point_add_finite x1 y1 z1 x2 y2 z2 Hz1 Hz2 E1 E2) as [Hd Hg].
  cbv zeta in Hd, Hg.
  set (X1 := fval x1) in *. set (Y1 := fval y1) in *. set (Z1 := fval z1) in *.
  set (X2 := fval x2) in *. set (Y2 := fval y2) in *. set (Z2 := fval z2) in *.
  pose proof F_two_nz as H2.
  assert (Hzz1 : (Z1 * Z1)%Zmod <> Zmod.zero) by (apply Fp_mul_nz; assumption).
  assert (Hzz2 : (Z2 * Z2)%Zmod <> Zmod.zero) by (apply Fp_mul_nz; assumption).
  assert (Hzzz1 : (Z1 * Z1 * Z1)%Zmod <> Zmod.zero)
    by (apply Fp_mul_nz; assumption).
  assert (Hzzz2 : (Z2 * Z2 * Z2)%Zmod <> Zmod.zero)
    by (apply Fp_mul_nz; assumption).
  assert (Hxeq : Zmod.mdiv X1 (Z1 * Z1)%Zmod = Zmod.mdiv X2 (Z2 * Z2)%Zmod
                 <-> (X2 * (Z1 * Z1) - X1 * (Z2 * Z2))%Zmod = Zmod.zero).
  { rewrite Fp_div_eq by assumption. split; intros H.
    - rewrite H. ring.
    - transitivity ((X2 * (Z1 * Z1) - X1 * (Z2 * Z2)) + X1 * (Z2 * Z2))%Zmod;
        [rewrite H|]; ring. }
  assert (Hyeq : Zmod.mdiv Y1 (Z1 * Z1 * Z1)%Zmod
                 = Zmod.mdiv Y2 (Z2 * Z2 * Z2)%Zmod
                 <-> (F_two * (Y2 * (Z1 * Z1 * Z1) - Y1 * (Z2 * Z2 * Z2)))%Zmod
                     = Zmod.zero).
  { rewrite Fp_div_eq by assumption. rewrite Fp_mul_zero. split; intros H.
    - right. rewrite H. ring.
    - destruct H as [H|H]; [contradiction|].
      transitivity ((Y2 * (Z1 * Z1 * Z1) - Y1 * (Z2 * Z2 * Z2))
                    + Y1 * (Z2 * Z2 * Z2))%Zmod; [rewrite H|]; ring. }
  rewrite (to_affine_finite x1 y1 z1 E1), (to_affine_finite x2 y2 z2 E2).
  fold X1 Y1 Z1 X2 Y2 Z2. unfold affine_add.
  destruct (Zmod.eqb_spec (Zmod.mdiv X1 (Z1 * Z1)%Zmod)
                          (Zmod.mdiv X2 (Z2 * Z2)%Zmod)) as [Ex|Ex].
  - destruct (Zmod.eqb_spec (Zmod.mdiv Y1 (Z1 * Z1 * Z1)%Zmod)
                            (Zmod.mdiv Y2 (Z2 * Z2 * Z2)%Zmod)) as [Ey|Ey].
    + rewrite Hd by (split; [apply Hxeq|apply Hyeq]; assumption).
      rewrite to_affine_double, (to_affine_finite x1 y1 z1 E1). reflexivity.
    + destruct Hg as (x3 & y3 & z3 & E & _ & _ & _ & _ & _ & Hz).
      { intros [_ Hr]. apply Ey, Hyeq, Hr. }
      rewrite E. apply to_affine_infinity. rewrite Hz.
      apply Hxeq in Ex. rewrite Ex. ring.
  - destruct Hg as (x3 & y3 & z3 & E & _ & _ & _ & Hx & Hy & Hz).
    { intros [Hh _]. apply Ex, Hxeq, Hh. }
    assert (Hh : (X2 * (Z1 * Z1) - X1 * (Z2 * Z2))%Zmod <> Zmod.zero).
    { intros H. apply Ex, Hxeq, H. }
    assert (Ez3 : fval z3 <> Zmod.zero).
    { rewrite Hz. repeat apply Fp_mul_nz; assumption. }
    rewrite E, (to_affine_finite x3 y3 z3 Ez3), Hy, Hx, Hz.
    unfold F_two in *.
    f_equal. f_equal; field; repeat split; try assumption.
Qed.

(** *** Well-formed inputs and outputs *)

Lemma from_generic_ok bs :
  felem_bytes_ok bs -> felem_ok (fiat_p384_from_generic bs).
Proof.
  intros [Hs Hp]. pose proof (scalar_range bs Hs) as Hr.
  assert (E : fiat_p384_from_generic bs = fe (bytes_eval bs)).
  { unfold fiat_p384_from_generic, fiat_p384_from_bytes, fe.
    rewrite firstn_all2 by (destruct Hs as [-> _]; lia).
    rewrite Z.mod_small by lia. reflexivity. }
  rewrite E. apply fe_ok.
Qed.

Lemma to_generic_bytes_ok a :
  felem_ok a -> felem_bytes_ok (fiat_p384_to_generic a).
Proof. intros Ha. rewrite <- (fe_feval a Ha). apply to_generic_ok. Qed.

Lemma from_to_generic_ok a :
  felem_ok a -> fiat_p384_from_generic (fiat_p384_to_generic a) = a.
Proof. intros Ha. rewrite <- (fe_feval a Ha). apply from_to_generic. Qed.

Lemma point_double_ok x y z :
  let '(x', y', z') := fiat_p384_point_double x y z in
  felem_ok x' /\ felem_ok y' /\ felem_ok z'.
Proof.
  unfold fiat_p384_point_double. cbv zeta. (split; [|split]); apply fe_ok.
Qed.

Lemma point_add_ok x1 y1 z1 mixed x2 y2 z2 :
  felem_ok x1 -> felem_ok y1 -> felem_ok z1 ->
  felem_ok x2 -> felem_ok y2 -> felem_ok z2 ->
  let '(x3, y3, z3) := fiat_p384_point_add x1 y1 z1 mixed x2 y2 z2 in
  felem_ok x3 /\ felem_ok y3 /\ felem_ok z3.
Proof.
  intros Hx1 Hy1 Hz1 Hx2 Hy2 Hz2. unfold fiat_p384_point_add.
  destruct (point_add_u1_s1_2z1z2 _ _ _ _ _ _) as [[u1 s1] tz]. cbv zeta.
  destruct (negb _); [apply point_double_ok|].
  unfold fiat_p384_cmovznz, fiat_p384_selectznz.
  destruct (lnotnot (fiat_p384_nz z1) =? 0), (lnotnot (fiat_p384_nz z2) =? 0);
    (split; [|split]); first [assumption | apply fe_ok].
Qed.

Lemma point_ok_mk x y z :
  felem_ok x -> felem_ok y -> felem_ok z ->
  point_ok (mkPoint (fiat_p384_to_generic x) (fiat_p384_to_generic y)
                    (fiat_p384_to_generic z)).
Proof. intros. (split; [|split]); now apply to_generic_bytes_ok. Qed.

Lemma affine_of_mk x y z :
  felem_ok x -> felem_ok y -> felem_ok z ->
  affine_of (mkPoint (fiat_p384_to_generic x) (fiat_p384_to_generic y)
                     (fiat_p384_to_generic z))
  = to_affine (x, y, z).
Proof.
  intros. unfold affine_of. cbn [X Y Z_].
  now rewrite !from_to_generic_ok.
Qed.

Lemma add_refines group a b :
  point_ok a -> point_ok b ->
  point_ok (ec_GFp_nistp384_add group a b) /\
  affine_of (ec_GFp_nistp384_add group a b)
  = affine_add (affine_of a) (affine_of b).
Proof.
  intros (Ha1 & Ha2 & Ha3) (Hb1 & Hb2 & Hb3).
  apply from_generic_ok in Ha1, Ha2, Ha3, Hb1, Hb2, Hb3.
  unfold ec_GFp_nistp384_add. cbv zeta.
  pose proof (point_add_ok _ _ _ 0 _ _ _ Ha1 Ha2 Ha3 Hb1 Hb2 Hb3) as Hok.
  pose proof (to_affine_add (fiat_p384_from_generic (X a))
                (fiat_p384_from_generic (Y a)) _
                (fiat_p384_from_generic (X b))
                (fiat_p384_from_generic (Y b)) _ Ha3 Hb3) as Haff.
  destruct (fiat_p384_point_add _ _ _ _ _ _ _) as [[x y] z].
  destruct Hok as (Hx & Hy & Hz). split.
  - now apply point_ok_mk.
  - rewrite affine_of_mk by assumption. exact Haff.
Qed.

Lemma dbl_refines group a :
  point_ok (ec_GFp_nistp384_dbl group a) /\
  affine_of (ec_GFp_nistp384_dbl group a) = affine_double (affine_of a).
Proof.
  unfold ec_GFp_nistp384_dbl. cbv zeta.
  pose proof (point_double_ok (fiat_p384_from_generic (X a))
                (fiat_p384_from_generic (Y a))
                (fiat_p384_from_generic (Z_ a))) as Hok.
  pose proof (to_affine_double (fiat_p384_from_generic (X a))
                (fiat_p384_from_generic (Y a))
                (fiat_p384_from_generic (Z_ a))) as Haff.
  destruct (fiat_p384_point_double _ _ _) as [[x y] z].
  destruct Hok as (Hx & Hy & Hz). split.
  - now apply point_ok_mk.
  - rewrite affine_of_mk by assumption. exact Haff.
Qed.

(** X1: [ec_GFp_nistp384_dbl] returns a well-formed point that stands for the
    double, by the tangent rule of the curve with [a = -3], of the affine
    point its argument stands for: the point at infinity when [Z = 0] or
    [Y = 0]. *)
Theorem dbl_affine group a :
  point_ok (ec_GFp_nistp384_dbl group a) /\
  affine_of (ec_GFp_nistp384_dbl group a) = affine_double (affine_of a).
Proof. apply dbl_refines. Qed.

(** X2: on well-formed points [ec_GFp_nistp384_add] returns a well-formed
    point that stands for the sum, by the affine addition law, of the affine
    points its arguments stand for, in every case: an operand at infinity,
    equal operands (tangent rule), opposite operands (the point at infinity)
    and the chord rule otherwise. *)
Theorem add_affine group a b :
  point_ok a -> point_ok b ->
  point_ok (ec_GFp_nistp384_add group a b) /\
  affine_of (ec_GFp_nistp384_add group a b)
  = affine_add (affine_of a) (affine_of b).
Proof. apply add_refines. Qed.

(** *** Mixed addition *)

Lemma point_add_mixed_inputs x1 y1 z1 :
  felem_ok x1 -> felem_ok y1 ->
  point_add_u1_s1_2z1z2 1 x1 y1 z1 fiat_p384_one (fiat_p384_square z1)
  = point_add_u1_s1_2z1z2 0 x1 y1 z1 fiat_p384_one (fiat_p384_square z1).
Proof.
  intros Hx Hy. unfold point_add_u1_s1_2z1z2.
  change (negb (lnot 1 =? 0)) with false.
  change (negb (lnot 0 =? 0)) with true. cbv iota zeta.
  rewrite !copy_id by (apply Hx || apply Hy).
  f_equal; [f_equal|].
  - apply fval_inj; [assumption|apply fe_ok|].
    autorewrite with fval. rewrite fval_one. ring.
  - apply fval_inj; [assumption|apply fe_ok|].
    autorewrite with fval. rewrite fval_one. ring.
  - apply fval_inj; [apply fe_ok|apply fe_ok|].
    autorewrite with fval. rewrite fval_one. ring.
Qed.

Lemma point_add_mixed_full x1 y1 z1 x2 y2 :
  felem_ok x1 -> felem_ok y1 ->
  fiat_p384_point_add x1 y1 z1 1 x2 y2 fiat_p384_one
  = fiat_p384_point_add x1 y1 z1 0 x2 y2 fiat_p384_one.
Proof.
  intros Hx Hy. unfold fiat_p384_point_add.
  rewrite (point_add_mixed_inputs x1 y1 z1 Hx Hy). reflexivity.
Qed.

(** X3: with [fiat_p384_one] as the second [z] the mixed addition returns
    the very limbs of the full Jacobian addition. *)
Theorem point_add_mixed_is_full x1 y1 z1 x2 y2 :
  felem_ok x1 -> felem_ok y1 ->
  fiat_p384_point_add x1 y1 z1 1 x2 y2 fiat_p384_one
  = fiat_p384_point_add x1 y1 z1 0 x2 y2 fiat_p384_one.
Proof. apply point_add_mixed_full. Qed.

(** X4: on two finite points that are not in the doubling case, swapping the
    operands of [fiat_p384_point_add] keeps [x3] and negates [y3] and [z3]:
    another Jacobian triple of the same point. *)
Theorem point_add_swap x1 y1 z1 x2 y2 z2 :
  felem_ok z1 -> felem_ok z2 ->
  feval z1 <> 0 -> feval z2 <> 0 ->
  feval (point_add_h 0 x1 y1 z1 x2 y2 z2) <> 0 \/
  feval (point_add_r 0 x1 y1 z1 x2 y2 z2) <> 0 ->
  fiat_p384_point_add x2 y2 z2 0 x1 y1 z1
  = let '(x3, y3, z3) := fiat_p384_point_add x1 y1 z1 0 x2 y2 z2 in
    (x3, fiat_p384_opp y3, fiat_p384_opp z3).
Proof.
  intros Hz1 Hz2 N1 N2 Hhr.
  assert (E1 : fval z1 <> Zmod.zero).
  { rewrite fval_zero_iff; [assumption|].
    split; [now apply feval_nonneg|apply Hz1]. }
  assert (E2 : fval z2 <> Zmod.zero).
  { rewrite fval_zero_iff; [assumption|].
    split; [now apply feval_nonneg|apply Hz2]. }
  assert (Hh : fval (point_add_h 0 x1 y1 z1 x2 y2 z2)
               = (fval x2 * (fval z1 * fval z1)
                  - fval x1 * (fval z2 * fval z2))%Zmod).
  { unfold point_add_h, point_add_u1_s1_2z1z2.
    change (negb (lnot 0 =? 0)) with true. cbv beta iota zeta.
    autorewrite with fval. ring. }
  assert (Hr : fval (point_add_r 0 x1 y1 z1 x2 y2 z2)
               = (F_two * (fval y2 * (fval z1 * fval z1 * fval z1)
                           - fval y1 * (fval z2 * fval z2 * fval z2)))%Zmod).
  { unfold point_add_r, point_add_u1_s1_2z1z2.
    change (negb (lnot 0 =? 0)) with true. cbv beta iota zeta.
    autorewrite with fval. unfold F_two. ring. }
  assert (Hn : ~ ((fval x2 * (fval z1 * fval z1)
                   - fval x1 * (fval z2 * fval z2))%Zmod = Zmod.zero /\
                  (F_two * (fval y2 * (fval z1 * fval z1 * fval z1)
                            - fval y1 * (fval z2 * fval z2 * fval z2)))%Zmod
                  = Zmod.zero)).
  { rewrite <- Hh, <- Hr. intros [A B].
    assert (Oh : felem_ok (point_add_h 0 x1 y1 z1 x2 y2 z2)).
    { unfold point_add_h, point_add_u1_s1_2z1z2.
      change (negb (lnot 0 =? 0)) with true. cbv beta iota zeta. apply fe_ok. }
    assert (Or : felem_ok (point_add_r 0 x1 y1 z1 x2 y2 z2)).
    { unfold point_add_r, point_add_u1_s1_2z1z2.
      change (negb (lnot 0 =? 0)) with true. cbv beta iota zeta. apply fe_ok. }
    apply fval_zero_iff in A; [|split; [now apply feval_nonneg|apply Oh]].
    apply fval_zero_iff in B; [|split; [now apply feval_nonneg|apply Or]].
    tauto. }
  destruct (point_add_finite x1 y1 z1 x2 y2 z2 Hz1 Hz2 E1 E2) as [_ Hg].
  destruct (point_add_finite x2 y2 z2 x1 y1 z1 Hz2 Hz1 E2 E1) as [_ Hg'].
  cbv zeta in Hg, Hg'.
  destruct (Hg Hn) as (x3 & y3 & z3 & E & Ox & Oy & Oz & Hx & Hy & Hz).
  destruct Hg' as (x3' & y3' & z3' & E' & Ox' & Oy' & Oz' & Hx' & Hy' & Hz').
  { intros [A B]. apply Hn. split.
    - transitivity (- (fval x1 * (fval z2 * fval z2)
                       - fval x2 * (fval z1 * fval z1)))%Zmod;
        [ring|rewrite A; ring].
    - transitivity (- (F_two * (fval y1 * (fval z2 * fval z2 * fval z2)
                                - fval y2 * (fval z1 * fval z1 * fval z1))))%Zmod;
        [ring|rewrite B; ring]. }
  rewrite E, E'.
  assert (Ex : x3' = x3).
  { apply fval_inj; try assumption. rewrite Hx', Hx. unfold F_two. ring. }
  subst x3'. f_equal; [f_equal|].
  - apply fval_inj; [assumption|apply fe_ok|].
    rewrite fval_opp, Hy', Hy, Hx. unfold F_two. ring.
  - apply fval_inj; [assumption|apply fe_ok|].
    rewrite fval_opp, Hz', Hz. unfold F_two. ring.
Qed.

(** ** Scalar multiplication: the ladder of [ec_GFp_nistp384_point_mul] *)

Lemma bind_Some {A B : Type} (a : A) (k : A -> option B) :
  bind (Some a) k = k a.
Proof. reflexivity. Qed.

(** The constant-time decoding of a digit: sign and magnitude index. *)
Lemma digit_sign_idx_spec d :
  -127 <= d <= 127 ->
  digit_sign_idx d = ((if d <? 0 then 1 else 0), Z.abs d / 2).
Proof.
  intros Hd.
  pose (P := fun e =>
               let d := e - 127 in
               let '(s, i) := digit_sign_idx d in
               (s =? (if d <? 0 then 1 else 0)) && (i =? Z.abs d / 2)).
  assert (H : P (d + 127) = true).
  { apply (forall_range_check P 255); [vm_compute; reflexivity|lia]. }
  unfold P in H. cbv zeta in H. replace (d + 127 - 127) with d in H by lia.
  destruct (digit_sign_idx d) as [s i].
  apply andb_true_iff in H. destruct H as [H1 H2].
  apply Z.eqb_eq in H1, H2. now subst.
Qed.

Lemma to_affine_opp x y z :
  to_affine (x, fiat_p384_opp y, z) = affine_opp (to_affine (x, y, z)).
Proof.
  unfold to_affine, affine_opp.
  destruct (Zmod.eqb_spec (fval z) Zmod.zero) as [E|E]; [reflexivity|].
  rewrite fval_opp. f_equal. f_equal. field.
  repeat apply Fp_mul_nz; assumption.
Qed.

Lemma jac_ok_intro x y z :
  felem_ok x -> felem_ok y -> felem_ok z -> jac_ok (x, y, z).
Proof. intros Hx Hy Hz. exact (conj Hx (conj Hy Hz)). Qed.

Lemma double_loop_spec n : forall res,
  jac_ok res ->
  jac_ok (double_loop n res) /\
  to_affine (double_loop n res) = affine_double_n n (to_affine res).
Proof.
  induction n as [|n IH]; intros [[x y] z] Hok.
  - split; [exact Hok|reflexivity].
  - cbn [double_loop affine_double_n].
    rewrite <- to_affine_double.
    apply IH. pose proof (point_double_ok x y z) as H.
    destruct (fiat_p384_point_double x y z) as [[x' y'] z']. exact H.
Qed.

Lemma to_affine_add_ok P Q :
  jac_ok P -> jac_ok Q ->
  let '(x1, y1, z1) := P in
  let '(x2, y2, z2) := Q in
  jac_ok (fiat_p384_point_add x1 y1 z1 0 x2 y2 z2) /\
  to_affine (fiat_p384_point_add x1 y1 z1 0 x2 y2 z2)
  = affine_add (to_affine P) (to_affine Q).
Proof.
  destruct P as [[x1 y1] z1], Q as [[x2 y2] z2].
  intros (H1 & H2 & H3) (H4 & H5 & H6). split.
  - pose proof (point_add_ok x1 y1 z1 0 x2 y2 z2 H1 H2 H3 H4 H5 H6) as H.
    destruct (fiat_p384_point_add _ _ _ _ _ _ _) as [[x3 y3] z3]. exact H.
  - now apply to_affine_add.
Qed.

(** The table of odd multiples. *)
Lemma pre_comp_loop_spec n : forall tmp prev,
  jac_ok tmp -> jac_ok prev ->
  length (pre_comp_loop n tmp prev) = n /\
  Forall jac_ok (pre_comp_loop n tmp prev) /\
  map to_affine (pre_comp_loop n tmp prev)
  = affine_multiples n (to_affine tmp) (to_affine prev).
Proof.
  induction n as [|n IH]; intros [[t0 t1] t2] [[p0 p1] p2] Ht Hp.
  - repeat split. constructor.
  - cbn [pre_comp_loop affine_multiples length map].
    destruct (to_affine_add_ok (t0, t1, t2) (p0, p1, p2) Ht Hp) as [Hok Haff].
    destruct (IH (t0, t1, t2) _ Ht Hok) as (Hl & Hf & Hm).
    split; [now rewrite Hl|]. split; [now constructor|].
    rewrite Hm, Haff. reflexivity.
Qed.

Lemma p_pre_comp_spec x y z :
  felem_ok x -> felem_ok y -> felem_ok z ->
  length (p_pre_comp x y z) = 16%nat /\
  Forall jac_ok (p_pre_comp x y z) /\
  map to_affine (p_pre_comp x y z) = affine_pre_comp (to_affine (x, y, z)).
Proof.
  intros Hx Hy Hz. unfold p_pre_comp, affine_pre_comp.
  change (Z.to_nat FIAT_P384_MUL_TABLE_SIZE - 1)%nat with 15%nat.
  assert (Hp : jac_ok (x, y, z)) by now apply jac_ok_intro.
  assert (Hd : jac_ok (fiat_p384_point_double x y z)).
  { pose proof (point_double_ok x y z) as H.
    destruct (fiat_p384_point_double x y z) as [[x' y'] z']. exact H. }
  destruct (pre_comp_loop_spec 15 _ _ Hd Hp) as (Hl & Hf & Hm).
  cbv zeta. cbn [length map]. split; [now rewrite Hl|].
  split; [now constructor|].
  rewrite Hm, to_affine_double. reflexivity.
Qed.

Lemma jac_zero_ok : jac_ok jac_zero.
Proof. apply jac_ok_intro; apply felem_zero_ok. Qed.

(** A constant-time read of the table is a plain read. *)
Lemma select_point_16 idx (T : list jac) :
  0 <= idx < 16 -> length T = 16%nat ->
  fiat_p384_select_point (to_word idx) T FIAT_P384_MUL_TABLE_SIZE
  = nth (Z.to_nat idx) T jac_zero.
Proof.
  intros Hi Hl. unfold fiat_p384_select_point.
  rewrite to_word_small by lia.
  rewrite select_point_loop_spec by lia.
  change (Z.of_nat (Z.to_nat FIAT_P384_MUL_TABLE_SIZE)) with 16.
  destruct (Z.leb_spec 0 idx); [|lia].
  destruct (Z.ltb_spec idx (0 + 16)); [|lia]. reflexivity.
Qed.

Lemma to_affine_nth (T : list jac) k :
  (k < length T)%nat ->
  to_affine (nth k T jac_zero) = nth k (map to_affine T) None.
Proof.
  intros Hk. rewrite (nth_indep _ None (to_affine jac_zero))
    by (rewrite length_map; exact Hk).
  symmetry. apply map_nth.
Qed.

Lemma odd_digit_idx d :
  Z.odd d = true -> -31 <= d <= 31 ->
  Z.abs d / 2 = (Z.abs d - 1) / 2 /\ 0 <= Z.abs d / 2 < 16.
Proof.
  intros Ho Hd. apply Z.odd_spec in Ho. destruct Ho as [k Hk].
  split; Z.div_mod_to_equations; lia.
Qed.

(** The point the ladder adds for an odd digit. *)
Lemma point_mul_digit (T : list jac) d :
  length T = 16%nat -> Forall jac_ok T ->
  Z.odd d = true -> -31 <= d <= 31 ->
  let '(is_neg, idx) := digit_sign_idx d in
  let '(t0, t1, t2) :=
    fiat_p384_select_point (to_word idx) T FIAT_P384_MUL_TABLE_SIZE in
  let t1' := fiat_p384_cmovznz (to_word is_neg) t1 (fiat_p384_opp t1) in
  jac_ok (t0, t1', t2) /\
  to_affine (t0, t1', t2) = affine_digit (map to_affine T) d.
Proof.
  intros Hl Hf Ho Hd. rewrite digit_sign_idx_spec by lia.
  destruct (odd_digit_idx d Ho Hd) as [Hidx Hr].
  rewrite select_point_16 by assumption.
  assert (Hk : (Z.to_nat (Z.abs d / 2) < length T)%nat) by lia.
  pose proof (to_affine_nth T _ Hk) as Haff.
  assert (Hok : jac_ok (nth (Z.to_nat (Z.abs d / 2)) T jac_zero)).
  { rewrite Forall_forall in Hf. apply Hf. now apply nth_In. }
  unfold affine_digit. rewrite <- Hidx, <- Haff.
  destruct (nth (Z.to_nat (Z.abs d / 2)) T jac_zero) as [[t0 t1] t2].
  destruct Hok as (H0 & H1 & H2). cbv zeta.
  destruct (d <? 0).
  - rewrite cmovznz_nonzero by (vm_compute; discriminate).
    split; [apply jac_ok_intro; [assumption|apply fe_ok|assumption]|].
    apply to_affine_opp.
  - change (to_word 0) with 0. rewrite cmovznz_zero.
    split; [now apply jac_ok_intro|reflexivity].
Qed.

(** One iteration of the ladder. *)
Lemma point_mul_step_spec (T : list jac) (ds : list Z) i res :
  length T = 16%nat -> Forall jac_ok T ->
  Forall (fun d => Z.odd d = true /\ -31 <= d <= 31 /\ d <> 0) ds ->
  (i < length ds)%nat -> jac_ok res ->
  exists res',
    point_mul_step ds T (Z.of_nat i) res = Some res' /\
    jac_ok res' /\
    to_affine res'
    = affine_add (affine_double_n 5 (to_affine res))
                 (affine_digit (map to_affine T) (nth i ds 0)).
Proof.
  intros Hl Hf Hds Hi Hres. unfold point_mul_step.
  change (Z.to_nat FIAT_P384_SCALAR_RADIX) with 5%nat.
  destruct (double_loop_spec 5 res Hres) as [Hok5 Haff5].
  assert (Hrd : read_at ds (Z.of_nat i) = Some (nth i ds 0)).
  { unfold read_at. destruct (Z.ltb_spec (Z.of_nat i) 0); [lia|].
    rewrite Nat2Z.id. now apply nth_error_nth'. }
  rewrite Hrd, bind_Some.
  assert (Hd : Z.odd (nth i ds 0) = true /\ -31 <= nth i ds 0 <= 31).
  { rewrite Forall_forall in Hds.
    destruct (Hds (nth i ds 0)) as (A & B & _); [now apply nth_In|].
    now split. }
  destruct Hd as [Ho Hd].
  pose proof (point_mul_digit T (nth i ds 0) Hl Hf Ho Hd) as Hdig.
  destruct (digit_sign_idx (nth i ds 0)) as [is_neg idx].
  destruct (fiat_p384_select_point _ _ _) as [[t0 t1] t2].
  cbv zeta in Hdig. destruct Hdig as [Hokd Haffd].
  pose proof (to_affine_add_ok _ _ Hok5 Hokd) as Hadd.
  destruct (double_loop 5 res) as [[r0 r1] r2].
  destruct Hadd as [Hok Haff].
  eexists. split; [reflexivity|]. split; [exact Hok|].
  rewrite Haff, Haff5, Haffd. reflexivity.
Qed.

(** The ladder over the digits [n - 1], ..., [0]. *)
Lemma point_mul_loop_spec (T : list jac) (ds : list Z) n : forall res,
  length T = 16%nat -> Forall jac_ok T ->
  Forall (fun d => Z.odd d = true /\ -31 <= d <= 31 /\ d <> 0) ds ->
  (n <= length ds)%nat -> jac_ok res ->
  exists res',
    for_loop_down (point_mul_step ds T) n res = Some res' /\
    jac_ok res' /\
    to_affine res' = affine_ladder (map to_affine T) ds n (to_affine res).
Proof.
  induction n as [|n IH]; intros res Hl Hf Hds Hn Hres.
  - exists res. repeat split. exact Hres.
  - destruct (point_mul_step_spec T ds n res Hl Hf Hds ltac:(lia) Hres)
      as (res1 & E1 & Hok1 & Haff1).
    destruct (IH res1 Hl Hf Hds ltac:(lia) Hok1) as (res' & E & Hok & Haff).
    exists res'. split; [|split; [exact Hok|]].
    + cbn [for_loop_down]. rewrite E1, bind_Some. exact E.
    + cbn [affine_ladder]. rewrite Haff, Haff1. reflexivity.
Qed.

Lemma scalar_parity inb :
  scalar_ok inb ->
  exists b0, read_byte inb 0 = Some b0 /\
             Z.land b0 1 = (if Z.odd (bytes_eval inb) then 1 else 0).
Proof.
  intros [Hl Hr]. destruct inb as [|b0 rest]; [discriminate|].
  exists b0. split; [reflexivity|].
  inversion Hr as [|? ? Hb _]; subst.
  change 1 with (Z.ones 1) at 1. rewrite Z.land_ones by lia.
  cbn [bytes_eval]. change (2 ^ 1) with 2. rewrite Zmod_odd.
  replace (b0 + 256 * bytes_eval rest) with (b0 + 2 * (128 * bytes_eval rest))
    by lia.
  rewrite Z.odd_add_mul_2. reflexivity.
Qed.

(** The ladder and the even-scalar compensation of
    [ec_GFp_nistp384_point_mul], on affine points. *)
Lemma point_mul_refines group p scalar :
  scalar_ok scalar -> point_ok p ->
  exists r,
    ec_GFp_nistp384_point_mul group p scalar = Some r /\
    point_ok r /\
    affine_of r = affine_point_mul (affine_of p) (bytes_eval scalar).
Proof.
  intros Hs (Hx & Hy & Hz).
  apply from_generic_ok in Hx, Hy, Hz.
  unfold ec_GFp_nistp384_point_mul, affine_point_mul, affine_of. cbv zeta.
  set (x := fiat_p384_from_generic (X p)) in *.
  set (y := fiat_p384_from_generic (Y p)) in *.
  set (z := fiat_p384_from_generic (Z_ p)) in *.
  destruct (p_pre_comp_spec x y z Hx Hy Hz) as (Hl & Hf & Hm).
  set (T := p_pre_comp x y z) in *.
  rewrite <- Hm.
  rewrite rwnaf_computes by (try assumption; apply repeat_length).
  rewrite bind_Some.
  pose proof (scalar_range scalar Hs) as Hrange.
  set (s := bytes_eval scalar) in *.
  pose proof (rwnaf_digits_Forall s Hrange) as Hds.
  pose proof (rwnaf_digits_length s) as Hlen.
  set (ds := rwnaf_digits s) in *.
  assert (Hrd : read_at ds 76 = Some (nth 76 ds 0)).
  { unfold read_at. change (76 <? 0) with false. cbv iota.
    apply nth_error_nth'. rewrite Hlen. lia. }
  rewrite Hrd, bind_Some.
  assert (Htop : Z.odd (nth 76 ds 0) = true /\ 1 <= nth 76 ds 0 <= 15).
  { unfold ds. rewrite rwnaf_digits_last. now apply rwnaf_last_props. }
  set (d76 := nth 76 ds 0) in *.
  destruct Htop as [Hto Htr].
  assert (Hsh : to_int8 (Z.shiftr d76 1) = Z.abs d76 / 2).
  { rewrite Z.shiftr_div_pow2 by lia. change (2 ^ 1) with 2.
    rewrite Z.abs_eq by lia.
    apply to_int8_small. Z.div_mod_to_equations; lia. }
  destruct (odd_digit_idx d76 Hto ltac:(lia)) as [Hidx Hir].
  rewrite Hsh, select_point_16 by assumption.
  assert (Hk : (Z.to_nat (Z.abs d76 / 2) < length T)%nat) by lia.
  assert (Hok0 : jac_ok (nth (Z.to_nat (Z.abs d76 / 2)) T jac_zero)).
  { rewrite Forall_forall in Hf. apply Hf. now apply nth_In. }
  assert (Haff0 : to_affine (nth (Z.to_nat (Z.abs d76 / 2)) T jac_zero)
                  = affine_digit (map to_affine T) d76).
  { rewrite (to_affine_nth T _ Hk). unfold affine_digit. rewrite <- Hidx.
    destruct (Z.ltb_spec d76 0); [lia|reflexivity]. }
  destruct (point_mul_loop_spec T ds 76 _ Hl Hf Hds ltac:(lia) Hok0)
    as (res & E & Hok & Haff).
  rewrite E, bind_Some.
  rewrite !copy_id by (apply Hx || apply Hz).
  assert (Hneg : jac_ok (x, fiat_p384_opp y, z))
    by (apply jac_ok_intro; [assumption|apply fe_ok|assumption]).
  pose proof (to_affine_add_ok res _ Hok Hneg) as Hadd.
  destruct res as [[r0 r1] r2].
  destruct (fiat_p384_point_add r0 r1 r2 0 x (fiat_p384_opp y) z)
    as [[t0 t1] t2].
  destruct Hadd as [(Ht0 & Ht1 & Ht2) Hadd].
  destruct Hok as (Hr0 & Hr1 & Hr2).
  destruct (scalar_parity scalar Hs) as (b0 & Hb0 & Hpar).
  rewrite Hb0, bind_Some, Hpar. fold s.
  eexists. split; [reflexivity|].
  destruct (Z.odd s).
  - rewrite !cmovznz_nonzero by discriminate.
    split; [now apply point_ok_mk|].
    change (to_affine (fiat_p384_from_generic (X ?P), _, _)) with (affine_of P).
    rewrite affine_of_mk by assumption.
    rewrite Haff, Haff0. reflexivity.
  - rewrite !cmovznz_zero.
    split; [now apply point_ok_mk|].
    change (to_affine (fiat_p384_from_generic (X ?P), _, _)) with (affine_of P).
    rewrite affine_of_mk by assumption.
    rewrite Hadd, Haff, Haff0, to_affine_opp. reflexivity.
Qed.

(** X5: on a well-formed point and a 48-byte scalar,
    [ec_GFp_nistp384_point_mul] returns a well-formed point that stands for
    the result of the windowed double-and-add ladder over the affine
    addition law: the table [P, 2P + P, 2P + 3P, ...], the accumulator
    started at the entry of the top regular-wNAF digit, then for each lower
    digit five doublings and the addition of the (negated, for a negative
    digit) table entry, and finally [- P] added when the scalar is even. *)
Theorem point_mul_affine group p scalar :
  scalar_ok scalar -> point_ok p ->
  exists r,
    ec_GFp_nistp384_point_mul group p scalar = Some r /\
    point_ok r /\
    affine_of r = affine_point_mul (affine_of p) (bytes_eval scalar).
Proof. apply point_mul_refines. Qed.

(** *** The point at infinity *)

Lemma affine_multiples_infinity n :
  Forall (eq None) (affine_multiples n None None).
Proof.
  induction n as [|n IH]; [constructor|].
  cbn [affine_multiples affine_add]. constructor; [reflexivity|exact IH].
Qed.

Lemma affine_digit_infinity (T : list affine) d :
  Forall (eq None) T -> affine_digit T d = None.
Proof.
  intros HT. unfold affine_digit.
  assert (H : nth (Z.to_nat ((Z.abs d - 1) / 2)) T (None : affine) = None).
  { destruct (nth_in_or_default (Z.to_nat ((Z.abs d - 1) / 2)) T None)
      as [Hin|E]; [|exact E].
    rewrite Forall_forall in HT. symmetry. now apply HT. }
  cbv zeta. rewrite H. destruct (d <? 0); reflexivity.
Qed.

Lemma affine_double_n_infinity n : affine_double_n n None = None.
Proof. induction n as [|n IH]; [reflexivity|exact IH]. Qed.

Lemma affine_ladder_infinity (T : list affine) ds n :
  Forall (eq None) T -> affine_ladder T ds n None = None.
Proof.
  intros HT. induction n as [|n IH]; [reflexivity|].
  cbn [affine_ladder]. rewrite affine_double_n_infinity.
  rewrite affine_digit_infinity by assumption. exact IH.
Qed.

Lemma affine_point_mul_infinity s : affine_point_mul None s = None.
Proof.
  unfold affine_point_mul. cbv zeta.
  assert (HT : Forall (eq None) (affine_pre_comp None)).
  { unfold affine_pre_comp. constructor; [reflexivity|].
    apply affine_multiples_infinity. }
  rewrite affine_digit_infinity by assumption.
  rewrite affine_ladder_infinity by assumption.
  destruct (Z.odd s); reflexivity.
Qed.

Lemma affine_of_infinity P :
  point_ok P -> (affine_of P = None <-> bytes_eval (Z_ P) = 0).
Proof.
  intros (_ & _ & Hz). unfold affine_of, to_affine.
  fold (bval (Z_ P)). rewrite <- (bval_zero_iff _ Hz).
  destruct (Zmod.eqb_spec (bval (Z_ P)) Zmod.zero) as [E|E].
  - tauto.
  - split; [discriminate|contradiction].
Qed.

(** X6: [ec_GFp_nistp384_point_mul] maps the point at infinity ([Z = 0]) to
    the point at infinity, for every 48-byte scalar. *)
Theorem point_mul_infinity group p scalar :
  scalar_ok scalar -> point_ok p -> bytes_eval (Z_ p) = 0 ->
  exists r,
    ec_GFp_nistp384_point_mul group p scalar = Some r /\
    bytes_eval (Z_ r) = 0.
Proof.
  intros Hs Hp Hz.
  destruct (point_mul_refines group p scalar Hs Hp) as (r & E & Hok & Haff).
  exists r. split; [exact E|].
  apply (affine_of_infinity r Hok). rewrite Haff.
  apply (affine_of_infinity p Hp) in Hz. rewrite Hz.
  apply affine_point_mul_infinity.
Qed.

(** ** Scalar multiplication: the comb of [ec_GFp_nistp384_point_mul_base] *)

Lemma select_point_affine_16 idx (T : list aff) :
  0 <= idx < 16 -> length T = 16%nat ->
  fiat_p384_select_point_affine (to_word idx) T 16
  = nth (Z.to_nat idx) T aff_zero.
Proof.
  intros Hi Hl. unfold fiat_p384_select_point_affine.
  rewrite to_word_small by lia.
  rewrite select_point_affine_loop_spec by lia.
  change (Z.of_nat (Z.to_nat 16)) with 16.
  destruct (Z.leb_spec 0 idx); [|lia].
  destruct (Z.ltb_spec idx (0 + 16)); [|lia]. reflexivity.
Qed.

Lemma to_affine_one x y :
  to_affine (x, y, fiat_p384_one) = affine_of_aff (x, y).
Proof.
  unfold to_affine, affine_of_aff. rewrite fval_one. cbn [fst snd].
  destruct (Zmod.eqb_spec (Zmod.one : Fp) Zmod.zero) as [E|E].
  - exfalso. revert E. apply Zmod.one_neq_zero. vm_compute. discriminate.
  - f_equal. f_equal; field; assumption.
Qed.

(** The mixed addition of a table entry. *)
Lemma to_affine_add_mixed P x y :
  jac_ok P -> felem_ok x -> felem_ok y ->
  let '(x1, y1, z1) := P in
  jac_ok (fiat_p384_point_add x1 y1 z1 1 x y fiat_p384_one) /\
  to_affine (fiat_p384_point_add x1 y1 z1 1 x y fiat_p384_one)
  = affine_add (to_affine P) (affine_of_aff (x, y)).
Proof.
  destruct P as [[x1 y1] z1]. intros HP Hx Hy.
  pose proof HP as (H1 & H2 & H3).
  rewrite point_add_mixed_full by assumption.
  rewrite <- to_affine_one.
  apply (to_affine_add_ok (x1, y1, z1) (x, y, fiat_p384_one) HP).
  apply jac_ok_intro; [assumption|assumption|apply one_ok].
Qed.

Lemma aff_zero_ok : aff_ok aff_zero.
Proof. split; apply felem_zero_ok. Qed.

Lemma affine_of_aff_nth (T : list aff) k :
  (k < length T)%nat ->
  affine_of_aff (nth k T aff_zero) = nth k (map affine_of_aff T) None.
Proof.
  intros Hk. rewrite (nth_indep _ None (affine_of_aff aff_zero))
    by (rewrite length_map; exact Hk).
  symmetry. apply map_nth.
Qed.

(** The point the comb adds for an odd digit. *)
Lemma point_mul_base_digit (T : list aff) d :
  length T = 16%nat -> Forall aff_ok T ->
  Z.odd d = true -> -31 <= d <= 31 ->
  let '(is_neg, idx) := digit_sign_idx d in
  let '(t0, t1) := fiat_p384_select_point_affine (to_word idx) T 16 in
  let t1' := fiat_p384_cmovznz (to_word is_neg) t1 (fiat_p384_opp t1) in
  aff_ok (t0, t1') /\
  affine_of_aff (t0, t1') = affine_digit (map affine_of_aff T) d.
Proof.
  intros Hl Hf Ho Hd. rewrite digit_sign_idx_spec by lia.
  destruct (odd_digit_idx d Ho Hd) as [Hidx Hr].
  rewrite select_point_affine_16 by assumption.
  assert (Hk : (Z.to_nat (Z.abs d / 2) < length T)%nat) by lia.
  pose proof (affine_of_aff_nth T _ Hk) as Haff.
  assert (Hok : aff_ok (nth (Z.to_nat (Z.abs d / 2)) T aff_zero)).
  { rewrite Forall_forall in Hf. apply Hf. now apply nth_In. }
  unfold affine_digit. rewrite <- Hidx, <- Haff.
  destruct (nth (Z.to_nat (Z.abs d / 2)) T aff_zero) as [t0 t1].
  destruct Hok as (H0 & H1). cbn [fst snd] in H0, H1. cbv zeta.
  destruct (d <? 0).
  - rewrite cmovznz_nonzero by (vm_compute; discriminate).
    split; [split; [assumption|apply fe_ok]|].
    unfold affine_of_aff, affine_opp. cbn [fst snd]. now rewrite fval_opp.
  - change (to_word 0) with 0. rewrite cmovznz_zero.
    split; [now split|reflexivity].
Qed.

Lemma g_sub_table (n : nat) (G : list (list aff)) k :
  g_pre_comp_ok n G -> 0 <= k < Z.of_nat n ->
  exists sub,
    read_at G k = Some sub /\ length sub = 16%nat /\ Forall aff_ok sub /\
    nth (Z.to_nat k) (map (map affine_of_aff) G) [] = map affine_of_aff sub.
Proof.
  intros [Hl Hf] Hk. exists (nth (Z.to_nat k) G []).
  assert (Hlt : (Z.to_nat k < length G)%nat) by lia.
  split; [|split; [|split]].
  - unfold read_at. destruct (Z.ltb_spec k 0); [lia|].
    now apply nth_error_nth'.
  - rewrite Forall_forall in Hf. apply (Hf _ (nth_In G [] Hlt)).
  - rewrite Forall_forall in Hf. apply (Hf _ (nth_In G [] Hlt)).
  - change (@nil affine) with (map affine_of_aff []). apply map_nth.
Qed.

(** One digit of the comb. *)
Lemma point_mul_base_step_spec (G : list (list aff)) (ds : list Z) j res :
  g_pre_comp_ok 20 G ->
  Forall (fun d => Z.odd d = true /\ -31 <= d <= 31 /\ d <> 0) ds ->
  length ds = 77%nat -> 0 <= j < 77 -> jac_ok res ->
  exists res',
    point_mul_base_step G ds j res = Some res' /\
    jac_ok res' /\
    to_affine res'
    = affine_add (to_affine res)
        (affine_digit (nth (Z.to_nat (j / 4)) (map (map affine_of_aff) G) [])
                      (nth (Z.to_nat j) ds 0)).
Proof.
  intros HG Hds Hlen Hj Hres. unfold point_mul_base_step.
  assert (Hrd : read_at ds j = Some (nth (Z.to_nat j) ds 0)).
  { unfold read_at. destruct (Z.ltb_spec j 0); [lia|].
    apply nth_error_nth'. lia. }
  rewrite Hrd, bind_Some.
  set (d := nth (Z.to_nat j) ds 0) in *.
  assert (Hd : Z.odd d = true /\ -31 <= d <= 31).
  { rewrite Forall_forall in Hds.
    destruct (Hds d) as (A & B & _); [apply nth_In; lia|]. now split. }
  destruct Hd as [Ho Hd].
  destruct (g_sub_table 20 G (j / 4) HG) as (sub & Hsub & Hl & Hf & Hnth).
  { Z.div_mod_to_equations; lia. }
  pose proof (point_mul_base_digit sub d Hl Hf Ho Hd) as Hdig.
  destruct (digit_sign_idx d) as [is_neg idx].
  rewrite Hsub, bind_Some, Hnth.
  destruct (fiat_p384_select_point_affine _ _ _) as [t0 t1].
  cbv zeta in Hdig. destruct Hdig as [[Hok0 Hok1] Haffd].
  cbn [fst snd] in Hok0, Hok1.
  pose proof (to_affine_add_mixed res _ _ Hres Hok0 Hok1) as Hadd.
  destruct res as [[r0 r1] r2]. destruct Hadd as [Hok Haff].
  eexists. split; [reflexivity|]. split; [exact Hok|].
  rewrite Haff, Haffd. reflexivity.
Qed.

(** One group of the comb. *)
Lemma point_mul_base_loop_spec (G : list (list aff)) (ds : list Z) fuel :
  forall j res,
  g_pre_comp_ok 20 G ->
  Forall (fun d => Z.odd d = true /\ -31 <= d <= 31 /\ d <> 0) ds ->
  length ds = 77%nat -> 0 <= j -> 77 <= j + 4 * Z.of_nat fuel ->
  jac_ok res ->
  exists res',
    for_loop_step (point_mul_base_step G ds) fuel j 77 4 res = Some res' /\
    jac_ok res' /\
    to_affine res'
    = affine_comb_group (map (map affine_of_aff) G) ds fuel j (to_affine res).
Proof.
  induction fuel as [|fuel IH]; intros j res HG Hds Hlen Hj Hfuel Hres.
  - cbn [for_loop_step affine_comb_group].
    destruct (Z.ltb_spec j 77); [lia|].
    exists res. now repeat split.
  - cbn [for_loop_step affine_comb_group].
    destruct (Z.ltb_spec j 77).
    + destruct (point_mul_base_step_spec G ds j res HG Hds Hlen ltac:(lia) Hres)
        as (res1 & E1 & Hok1 & Haff1).
      destruct (IH (j + 4) res1 HG Hds Hlen ltac:(lia) ltac:(lia) Hok1)
        as (res' & E & Hok & Haff).
      exists res'. rewrite E1, bind_Some. split; [exact E|].
      split; [exact Hok|]. rewrite Haff, Haff1. reflexivity.
    + exists res. now repeat split.
Qed.

Lemma point_mul_base_group_spec (G : list (list aff)) (ds : list Z) i res :
  g_pre_comp_ok 20 G ->
  Forall (fun d => Z.odd d = true /\ -31 <= d <= 31 /\ d <> 0) ds ->
  length ds = 77%nat -> (i < 4)%nat -> jac_ok res ->
  exists res',
    point_mul_base_group G ds (Z.of_nat i) res = Some res' /\
    jac_ok res' /\
    to_affine res'
    = affine_comb_group (map (map affine_of_aff) G) ds 20 (Z.of_nat i)
        (if (i =? 3)%nat then to_affine res
         else affine_double_n 5 (to_affine res)).
Proof.
  intros HG Hds Hlen Hi Hres. unfold point_mul_base_group.
  change (Z.to_nat FIAT_P384_SCALAR_RADIX) with 5%nat.
  destruct (double_loop_spec 5 res Hres) as [Hok5 Haff5].
  destruct (Nat.eqb_spec i 3) as [->|Hne].
  - change (negb (Z.of_nat 3 =? 3)) with false. cbv iota.
    apply point_mul_base_loop_spec; try assumption; lia.
  - destruct (Z.eqb_spec (Z.of_nat i) 3); [lia|]. cbn [negb].
    rewrite <- Haff5.
    apply point_mul_base_loop_spec; try assumption; lia.
Qed.

Lemma point_mul_base_groups_spec (G : list (list aff)) (ds : list Z) n :
  forall res,
  g_pre_comp_ok 20 G ->
  Forall (fun d => Z.odd d = true /\ -31 <= d <= 31 /\ d <> 0) ds ->
  length ds = 77%nat -> (n <= 4)%nat -> jac_ok res ->
  exists res',
    for_loop_down (point_mul_base_group G ds) n res = Some res' /\
    jac_ok res' /\
    to_affine res'
    = affine_comb (map (map affine_of_aff) G) ds n (to_affine res).
Proof.
  induction n as [|n IH]; intros res HG Hds Hlen Hn Hres.
  - exists res. now repeat split.
  - destruct (point_mul_base_group_spec G ds n res HG Hds Hlen ltac:(lia) Hres)
      as (res1 & E1 & Hok1 & Haff1).
    destruct (IH res1 HG Hds Hlen ltac:(lia) Hok1) as (res' & E & Hok & Haff).
    exists res'. cbn [for_loop_down affine_comb].
    rewrite E1, bind_Some. split; [exact E|]. split; [exact Hok|].
    rewrite Haff, Haff1. reflexivity.
Qed.

Lemma to_affine_zero : to_affine (felem_zero, felem_zero, felem_zero) = None.
Proof. apply to_affine_infinity. apply fval_zero_iff; vm_compute; intuition congruence. Qed.

(** X7: for a table of 20 sub-tables of 16 well-formed affine entries and a
    48-byte scalar, [ec_GFp_nistp384_point_mul_base] reads inside the table
    and the digit array, and its result is a well-formed point that stands
    for the result of the comb over the affine addition law: the groups of
    digits 3, 2, 1, 0 (digit [j] taking its point from sub-table [j / 4]),
    five doublings between the groups, and the negated first entry added
    when the scalar is even. *)
Theorem point_mul_base_affine (G : list (list aff)) group scalar :
  g_pre_comp_ok 20 G -> scalar_ok scalar ->
  exists r,
    ec_GFp_nistp384_point_mul_base G group scalar = Some r /\
    point_ok r /\
    affine_of r
    = affine_point_mul_base (map (map affine_of_aff) G) (bytes_eval scalar).
Proof.
  intros HG Hs.
  unfold ec_GFp_nistp384_point_mul_base, affine_point_mul_base. cbv zeta.
  rewrite rwnaf_computes by (try assumption; apply repeat_length).
  rewrite bind_Some.
  pose proof (scalar_range scalar Hs) as Hrange.
  set (s := bytes_eval scalar) in *.
  pose proof (rwnaf_digits_Forall s Hrange) as Hds.
  pose proof (rwnaf_digits_length s) as Hlen.
  set (ds := rwnaf_digits s) in *.
  destruct (point_mul_base_groups_spec G ds 4 _ HG Hds Hlen ltac:(lia)
              jac_zero_ok) as (res & E & Hok & Haff).
  change jac_zero with (felem_zero, felem_zero, felem_zero) in E, Haff.
  rewrite E, bind_Some. rewrite to_affine_zero in Haff.
  destruct (g_sub_table 20 G 0 HG ltac:(lia)) as (sub & Hsub & Hl & Hf & Hnth).
  rewrite Hsub, bind_Some.
  change (Z.to_nat 0) with 0%nat in Hnth. rewrite Hnth.
  assert (Hrd : read_at sub 0 = Some (nth 0 sub aff_zero)).
  { unfold read_at. change (0 <? 0) with false. cbv iota.
    apply nth_error_nth'. lia. }
  rewrite Hrd, bind_Some.
  assert (Hk : (0 < length sub)%nat) by lia.
  pose proof (affine_of_aff_nth sub 0 Hk) as Hg.
  assert (Hgok : aff_ok (nth 0 sub aff_zero)).
  { rewrite Forall_forall in Hf. apply Hf. now apply nth_In. }
  rewrite <- Hg.
  destruct (nth 0 sub aff_zero) as [g0 g1]. destruct Hgok as [Hg0 Hg1].
  cbn [fst snd] in Hg0, Hg1.
  rewrite copy_id by apply Hg0.
  pose proof (to_affine_add_mixed res g0 (fiat_p384_opp g1) Hok Hg0
                (fe_ok _)) as Hadd.
  destruct res as [[r0 r1] r2].
  destruct (fiat_p384_point_add r0 r1 r2 1 g0 (fiat_p384_opp g1) fiat_p384_one)
    as [[t0 t1] t2].
  destruct Hadd as [(Ht0 & Ht1 & Ht2) Hadd].
  destruct Hok as (Hr0 & Hr1 & Hr2).
  destruct (scalar_parity scalar Hs) as (b0 & Hb0 & Hpar).
  rewrite Hb0, bind_Some, Hpar. fold s.
  eexists. split; [reflexivity|].
  destruct (Z.odd s).
  - rewrite !cmovznz_nonzero by discriminate.
    split; [now apply point_ok_mk|].
    rewrite affine_of_mk by assumption. exact Haff.
  - rewrite !cmovznz_zero.
    split; [now apply point_ok_mk|].
    rewrite affine_of_mk by assumption.
    rewrite Hadd, Haff. unfold affine_of_aff, affine_opp. cbn [fst snd].
    now rewrite fval_opp.
Qed.

(** ** The textbook recoding: the most significant digit *)

(** What is left of the scalar above digit [i]. *)
Lemma wnaf_tail_value s (i : nat) :
  wnaf_window s i + 64 * (s / 2 ^ (Z.of_nat i + 6))
  = wnaf_digit s i
    + 2 * (wnaf_window s (S i) + 64 * (s / 2 ^ (Z.of_nat (S i) + 6))).
Proof.
  pose proof (wnaf_value s i) as H1. pose proof (wnaf_value s (S i)) as H2.
  rewrite seq_S, map_app in H2. cbn [map Nat.add] in H2.
  rewrite digits_eval_app, length_map, length_seq in H2.
  rewrite Nat2Z.inj_succ, Z.pow_succ_r in H2 by lia.
  assert (Hp : 0 < 2 ^ Z.of_nat i) by (apply Z.pow_pos_nonneg; lia).
  rewrite Nat2Z.inj_succ. nia.
Qed.

Lemma wnaf_upper_zero s (n : nat) : forall k : nat,
  0 <= s < 2 ^ 384 -> (k + n = 385)%nat ->
  (forall j, (k <= j < 385)%nat -> wnaf_digit s j = 0) ->
  wnaf_window s k + 64 * (s / 2 ^ (Z.of_nat k + 6)) = 0.
Proof.
  induction n as [|n IH]; intros k Hs Hk Hz.
  - replace k with 385%nat by lia. rewrite wnaf_final_window by assumption.
    rewrite Z.div_small; [reflexivity|].
    split; [lia|]. apply Z.lt_le_trans with (2 ^ 384); [lia|].
    apply Z.pow_le_mono_r; lia.
  - rewrite wnaf_tail_value, (Hz k) by lia.
    rewrite (IH (S k)); [reflexivity|assumption|lia|].
    intros j Hj. apply Hz. lia.
Qed.

(** The most significant non-zero digit is positive. *)
Lemma wnaf_top_nonneg s (k : nat) :
  0 <= s < 2 ^ 384 -> (k < 385)%nat ->
  (forall j, (k < j < 385)%nat -> wnaf_digit s j = 0) ->
  0 <= wnaf_digit s k.
Proof.
  intros Hs Hk Hz.
  pose proof (wnaf_tail_value s k) as H.
  rewrite (wnaf_upper_zero s (384 - k) (S k)) in H;
    [|assumption|lia|intros j Hj; apply Hz; lia].
  pose proof (wnaf_window_range s k) as Hw.
  assert (0 <= s / 2 ^ (Z.of_nat k + 6)).
  { apply Z.div_pos; [lia|]. apply Z.pow_pos_nonneg; lia. }
  lia.
Qed.

(** X8: in the output of [fiat_p384_mul_scalar_wnaf] the most significant
    non-zero digit is positive: a digit with only zero digits above it is
    never negative. *)
Theorem wnaf_top_digit_positive (out inb : list Z) :
  scalar_ok inb -> length out = 385%nat ->
  exists ds,
    fiat_p384_mul_scalar_wnaf out inb = Some ds /\
    forall k, (k < 385)%nat ->
      (forall j, (k < j < 385)%nat -> nth j ds 0 = 0) ->
      0 <= nth k ds 0.
Proof.
  intros Hs Hl. exists (wnaf_digits (bytes_eval inb)).
  split; [now apply wnaf_computes|].
  intros k Hk Hz. rewrite wnaf_digits_nth by assumption.
  apply wnaf_top_nonneg; [now apply scalar_range|assumption|].
  intros j Hj. rewrite <- wnaf_digits_nth by lia. now apply Hz.
Qed.

(** ** The decoding of a digit *)

Lemma digit_sign_idx_vartime_spec d :
  -127 <= d <= 127 ->
  digit_sign_idx_vartime d = ((if d <? 0 then 1 else 0), (Z.abs d - 1) / 2).
Proof.
  intros Hd.
  pose (P := fun e =>
               let d := e - 127 in
               let '(s, i) := digit_sign_idx_vartime d in
               (s =? (if d <? 0 then 1 else 0))
               && (i =? (Z.abs d - 1) / 2)).
  assert (H : P (d + 127) = true).
  { apply (forall_range_check P 255); [vm_compute; reflexivity|lia]. }
  unfold P in H. cbv zeta in H. replace (d + 127 - 127) with d in H by lia.
  destruct (digit_sign_idx_vartime d) as [s i].
  apply andb_true_iff in H. destruct H as [H1 H2].
  apply Z.eqb_eq in H1, H2. now subst.
Qed.

(** X9: on every odd digit [d] in [-31, 31] the constant-time decoding of
    [ec_GFp_nistp384_point_mul] and the branching decoding of
    [ec_GFp_nistp384_point_mul_public] agree; the sign flag is 1 exactly for
    a negative digit, the index is in [0, 15] and
    [d = (1 - 2 is_neg) (2 idx + 1)]. *)
Theorem digit_decode d :
  Z.odd d = true -> -31 <= d <= 31 ->
  digit_sign_idx d = digit_sign_idx_vartime d /\
  let '(is_neg, idx) := digit_sign_idx d in
  is_neg = (if d <? 0 then 1 else 0) /\
  0 <= idx < 16 /\
  d = (1 - 2 * is_neg) * (2 * idx + 1).
Proof.
  intros Ho Hd.
  rewrite digit_sign_idx_spec, digit_sign_idx_vartime_spec by lia.
  destruct (odd_digit_idx d Ho Hd) as [Hidx Hr].
  split; [now rewrite Hidx|].
  split; [reflexivity|]. split; [exact Hr|].
  apply Z.odd_spec in Ho. destruct Ho as [k Hk].
  destruct (Z.ltb_spec d 0); Z.div_mod_to_equations; lia.
Qed.

(** ** Scalar multiplication: the interleaved ladder of
    [ec_GFp_nistp384_point_mul_public] *)

Lemma affine_add_infinity_r P : affine_add P None = P.
Proof. destruct P as [[x y]|]; reflexivity. Qed.

Lemma wnaf_digit_idx d :
  d <> 0 -> Z.odd d = true /\ -31 <= d <= 31 ->
  0 <= (Z.abs d - 1) / 2 < 16.
Proof.
  intros Hn [Ho Hd]. destruct (odd_digit_idx d Ho Hd) as [<- Hr]. exact Hr.
Qed.

Lemma read_at_nth {A : Type} (l : list A) k (dflt : A) :
  0 <= k < Z.of_nat (length l) ->
  read_at l k = Some (nth (Z.to_nat k) l dflt).
Proof.
  intros Hk. unfold read_at. destruct (Z.ltb_spec k 0); [lia|].
  apply nth_error_nth'. lia.
Qed.

(** The digit of the scalar of P. *)
Lemma point_mul_public_p_digit_spec (T : list jac) d res inf :
  length T = 16%nat -> Forall jac_ok T ->
  d = 0 \/ (Z.odd d = true /\ -31 <= d <= 31) ->
  jac_ok res ->
  inf = 0 \/ (inf = 1 /\ to_affine res = None /\ 0 <= d) ->
  exists res' inf',
    point_mul_public_p_digit T d (res, inf) = Some (res', inf') /\
    jac_ok res' /\
    to_affine res'
    = affine_add (to_affine res) (affine_digit0 (map to_affine T) d) /\
    (inf' = 0 \/ (inf' = 1 /\ inf = 1 /\ d = 0 /\ res' = res)).
Proof.
  intros Hl Hf Hd Hres Hinf. unfold point_mul_public_p_digit, affine_digit0.
  destruct (Z.eqb_spec d 0) as [E|E]; cbn [negb].
  { exists res, inf. split; [reflexivity|]. split; [exact Hres|].
    split; [now rewrite affine_add_infinity_r|].
    destruct Hinf as [->|(-> & _)]; [now left|right; now repeat split]. }
  destruct Hd as [Hd|Hd]; [contradiction|].
  pose proof (wnaf_digit_idx d E Hd) as Hr. destruct Hd as [Ho Hd].
  rewrite digit_sign_idx_vartime_spec by lia.
  rewrite (read_at_nth T _ jac_zero) by lia.
  assert (Hk : (Z.to_nat ((Z.abs d - 1) / 2) < length T)%nat) by lia.
  pose proof (to_affine_nth T _ Hk) as Haff.
  assert (Hok : jac_ok (nth (Z.to_nat ((Z.abs d - 1) / 2)) T jac_zero)).
  { rewrite Forall_forall in Hf. apply Hf. now apply nth_In. }
  unfold affine_digit. cbv zeta. rewrite <- Haff.
  destruct (nth (Z.to_nat ((Z.abs d - 1) / 2)) T jac_zero) as [[e0 e1] e2].
  rewrite bind_Some. pose proof Hok as (H0 & H1 & H2).
  rewrite !copy_id by (apply H0 || apply H1 || apply H2).
  destruct Hinf as [->|(-> & Hnone & Hpos)].
  - change (negb (0 =? 0)) with false. cbv iota.
    destruct (Z.ltb_spec d 0).
    + change (negb (1 =? 0)) with true. cbv iota.
      assert (Hneg : jac_ok (e0, fiat_p384_opp e1, e2))
        by (apply jac_ok_intro; [assumption|apply fe_ok|assumption]).
      pose proof (to_affine_add_ok res _ Hres Hneg) as Hadd.
      destruct res as [[r0 r1] r2]. destruct Hadd as [Hok' Haff'].
      eexists _, _. split; [reflexivity|]. split; [exact Hok'|].
      split; [|now left]. rewrite Haff', to_affine_opp. reflexivity.
    + change (negb (0 =? 0)) with false. cbv iota.
      pose proof (to_affine_add_ok res _ Hres Hok) as Hadd.
      destruct res as [[r0 r1] r2]. destruct Hadd as [Hok' Haff'].
      eexists _, _. split; [reflexivity|]. split; [exact Hok'|].
      split; [exact Haff'|now left].
  - change (negb (1 =? 0)) with true. cbv iota.
    eexists _, _. split; [reflexivity|]. split; [exact Hok|].
    split; [|now left]. rewrite Hnone.
    destruct (Z.ltb_spec d 0); [lia|]. reflexivity.
Qed.

(** The digit of the scalar of G. *)
Lemma point_mul_public_g_digit_spec (G : list (list aff)) d res inf :
  g_pre_comp_ok 20 G ->
  d = 0 \/ (Z.odd d = true /\ -31 <= d <= 31) ->
  jac_ok res ->
  inf = 0 \/ (inf = 1 /\ to_affine res = None /\ 0 <= d) ->
  exists res' inf',
    point_mul_public_g_digit G d (res, inf) = Some (res', inf') /\
    jac_ok res' /\
    to_affine res'
    = affine_add (to_affine res)
        (affine_digit0 (nth 0 (map (map affine_of_aff) G) []) d) /\
    (inf' = 0 \/ (inf' = 1 /\ inf = 1 /\ d = 0 /\ res' = res)).
Proof.
  intros HG Hd Hres Hinf. unfold point_mul_public_g_digit, affine_digit0.
  destruct (Z.eqb_spec d 0) as [E|E]; cbn [negb].
  { exists res, inf. split; [reflexivity|]. split; [exact Hres|].
    split; [now rewrite affine_add_infinity_r|].
    destruct Hinf as [->|(-> & _)]; [now left|right; now repeat split]. }
  destruct Hd as [Hd|Hd]; [contradiction|].
  pose proof (wnaf_digit_idx d E Hd) as Hr. destruct Hd as [Ho Hd].
  rewrite digit_sign_idx_vartime_spec by lia.
  destruct (g_sub_table 20 G 0 HG ltac:(lia)) as (sub & Hsub & Hl & Hf & Hnth).
  change (Z.to_nat 0) with 0%nat in Hnth.
  rewrite Hsub, bind_Some, Hnth.
  rewrite (read_at_nth sub _ aff_zero) by lia.
  assert (Hk : (Z.to_nat ((Z.abs d - 1) / 2) < length sub)%nat) by lia.
  pose proof (affine_of_aff_nth sub _ Hk) as Haff.
  assert (Hok : aff_ok (nth (Z.to_nat ((Z.abs d - 1) / 2)) sub aff_zero)).
  { rewrite Forall_forall in Hf. apply Hf. now apply nth_In. }
  unfold affine_digit. cbv zeta. rewrite <- Haff.
  destruct (nth (Z.to_nat ((Z.abs d - 1) / 2)) sub aff_zero) as [e0 e1].
  rewrite bind_Some. destruct Hok as (H0 & H1). cbn [fst snd] in H0, H1.
  rewrite !copy_id by (apply H0 || apply H1 || apply one_ok).
  destruct Hinf as [->|(-> & Hnone & Hpos)].
  - change (negb (0 =? 0)) with false. cbv iota.
    destruct (Z.ltb_spec d 0).
    + change (negb (1 =? 0)) with true. cbv iota.
      pose proof (to_affine_add_mixed res e0 (fiat_p384_opp e1) Hres H0
                    (fe_ok _)) as Hadd.
      destruct res as [[r0 r1] r2]. destruct Hadd as [Hok' Haff'].
      eexists _, _. split; [reflexivity|]. split; [exact Hok'|].
      split; [|now left]. rewrite Haff'.
      unfold affine_of_aff, affine_opp. cbn [fst snd]. now rewrite fval_opp.
    + change (negb (0 =? 0)) with false. cbv iota.
      pose proof (to_affine_add_mixed res e0 e1 Hres H0 H1) as Hadd.
      destruct res as [[r0 r1] r2]. destruct Hadd as [Hok' Haff'].
      eexists _, _. split; [reflexivity|]. split; [exact Hok'|].
      split; [exact Haff'|now left].
  - change (negb (1 =? 0)) with true. cbv iota.
    eexists _, _. split; [reflexivity|].
    split; [apply jac_ok_intro; [assumption|assumption|apply one_ok]|].
    split; [|now left]. rewrite Hnone, to_affine_one.
    destruct (Z.ltb_spec d 0); [lia|]. reflexivity.
Qed.

(** One iteration: a doubling and the two digits. *)
Lemma point_mul_public_step_spec (G : list (list aff)) (T : list jac)
    (dp dg : list Z) (n : nat) res inf :
  g_pre_comp_ok 20 G -> length T = 16%nat -> Forall jac_ok T ->
  length dp = 385%nat -> length dg = 385%nat ->
  Forall (fun d => d = 0 \/ (Z.odd d = true /\ -31 <= d <= 31)) dp ->
  Forall (fun d => d = 0 \/ (Z.odd d = true /\ -31 <= d <= 31)) dg ->
  (forall k, (k < 385)%nat ->
     (forall j, (k < j < 385)%nat -> nth j dp 0 = 0) -> 0 <= nth k dp 0) ->
  (forall k, (k < 385)%nat ->
     (forall j, (k < j < 385)%nat -> nth j dg 0 = 0) -> 0 <= nth k dg 0) ->
  (n < 385)%nat -> jac_ok res ->
  inf = 0 \/
  (inf = 1 /\ to_affine res = None /\
   forall j, (n < j < 385)%nat -> nth j dp 0 = 0 /\ nth j dg 0 = 0) ->
  exists res' inf',
    point_mul_public_step G T dp dg (Z.of_nat n) (res, inf)
      = Some (res', inf') /\
    jac_ok res' /\
    to_affine res'
    = affine_add
        (affine_add (affine_double (to_affine res))
                    (affine_digit0 (map to_affine T) (nth n dp 0)))
        (affine_digit0 (nth 0 (map (map affine_of_aff) G) []) (nth n dg 0)) /\
    (inf' = 0 \/
     (inf' = 1 /\ to_affine res' = None /\
      forall j, (n <= j < 385)%nat -> nth j dp 0 = 0 /\ nth j dg 0 = 0)).
Proof.
  intros HG Hl Hf Hlp Hlg Hdp Hdg Htp Htg Hn Hres Hinf.
  unfold point_mul_public_step.
  rewrite (read_at_nth dp _ 0), (read_at_nth dg _ 0) by lia.
  rewrite Nat2Z.id, !bind_Some.
  assert (Hp : nth n dp 0 = 0 \/
               (Z.odd (nth n dp 0) = true /\ -31 <= nth n dp 0 <= 31)).
  { rewrite Forall_forall in Hdp. apply Hdp. apply nth_In. lia. }
  assert (Hg : nth n dg 0 = 0 \/
               (Z.odd (nth n dg 0) = true /\ -31 <= nth n dg 0 <= 31)).
  { rewrite Forall_forall in Hdg. apply Hdg. apply nth_In. lia. }
  (* the doubling *)
  set (res1 := if negb (lnot inf =? 0)
               then let '(r0, r1, r2) := res in fiat_p384_point_double r0 r1 r2
               else res).
  assert (H1 : jac_ok res1 /\ to_affine res1 = affine_double (to_affine res) /\
               (inf = 1 -> res1 = res)).
  { unfold res1. destruct Hinf as [->|(-> & Hnone & _)].
    - change (negb (lnot 0 =? 0)) with true. cbv iota.
      destruct res as [[r0 r1] r2].
      pose proof (point_double_ok r0 r1 r2) as Hok.
      rewrite to_affine_double.
      destruct (fiat_p384_point_double r0 r1 r2) as [[a b] c].
      split; [exact Hok|]. split; [reflexivity|discriminate].
    - change (negb (lnot 1 =? 0)) with false. cbv iota.
      split; [exact Hres|]. split; [now rewrite Hnone|reflexivity]. }
  destruct H1 as (Hok1 & Haff1 & Hsame1).
  (* the digit of P *)
  destruct (point_mul_public_p_digit_spec T (nth n dp 0) res1 inf Hl Hf Hp Hok1)
    as (res2 & inf2 & E2 & Hok2 & Haff2 & Hinf2).
  { destruct Hinf as [->|(-> & Hnone & Hz)]; [now left|right].
    split; [reflexivity|]. split; [rewrite Hsame1 by reflexivity; exact Hnone|].
    apply Htp; [assumption|]. intros j Hj. now apply Hz. }
  rewrite E2, bind_Some.
  (* the digit of G *)
  destruct (point_mul_public_g_digit_spec G (nth n dg 0) res2 inf2 HG Hg Hok2)
    as (res3 & inf3 & E3 & Hok3 & Haff3 & Hinf3).
  { destruct Hinf2 as [->|(-> & -> & Hd0 & ->)]; [now left|right].
    destruct Hinf as [Hc|(_ & Hnone & Hz)]; [discriminate|].
    split; [reflexivity|]. split; [rewrite Hsame1 by reflexivity; exact Hnone|].
    apply Htg; [assumption|]. intros j Hj. now apply Hz. }
  exists res3, inf3. split; [exact E3|]. split; [exact Hok3|].
  split; [rewrite Haff3, Haff2, Haff1; reflexivity|].
  destruct Hinf3 as [->|(-> & -> & Hg0 & ->)]; [now left|right].
  destruct Hinf2 as [Hc|(_ & -> & Hp0 & ->)]; [discriminate|].
  destruct Hinf as [Hc|(_ & Hnone & Hz)]; [discriminate|].
  split; [reflexivity|]. split; [rewrite Hsame1 by reflexivity; exact Hnone|].
  intros j Hj. destruct (Nat.eq_dec j n) as [->|Hne]; [now split|].
  apply Hz. lia.
Qed.

Lemma point_mul_public_loop_spec (G : list (list aff)) (T : list jac)
    (dp dg : list Z) (n : nat) : forall res inf,
  g_pre_comp_ok 20 G -> length T = 16%nat -> Forall jac_ok T ->
  length dp = 385%nat -> length dg = 385%nat ->
  Forall (fun d => d = 0 \/ (Z.odd d = true /\ -31 <= d <= 31)) dp ->
  Forall (fun d => d = 0 \/ (Z.odd d = true /\ -31 <= d <= 31)) dg ->
  (forall k, (k < 385)%nat ->
     (forall j, (k < j < 385)%nat -> nth j dp 0 = 0) -> 0 <= nth k dp 0) ->
  (forall k, (k < 385)%nat ->
     (forall j, (k < j < 385)%nat -> nth j dg 0 = 0) -> 0 <= nth k dg 0) ->
  (n <= 385)%nat -> jac_ok res ->
  inf = 0 \/
  (inf = 1 /\ to_affine res = None /\
   forall j, (n <= j < 385)%nat -> nth j dp 0 = 0 /\ nth j dg 0 = 0) ->
  exists res' inf',
    for_loop_down (point_mul_public_step G T dp dg) n (res, inf)
      = Some (res', inf') /\
    jac_ok res' /\
    to_affine res'
    = affine_ladder_public (map to_affine T)
        (nth 0 (map (map affine_of_aff) G) []) dp dg n (to_affine res).
Proof.
  induction n as [|n IH];
    intros res inf HG Hl Hf Hlp Hlg Hdp Hdg Htp Htg Hn Hres Hinf.
  - exists res, inf. now repeat split.
  - destruct (point_mul_public_step_spec G T dp dg n res inf HG Hl Hf Hlp Hlg
                Hdp Hdg Htp Htg ltac:(lia) Hres)
      as (res1 & inf1 & E1 & Hok1 & Haff1 & Hinf1).
    { destruct Hinf as [->|(-> & Hnone & Hz)]; [now left|right].
      split; [reflexivity|]. split; [exact Hnone|].
      intros j Hj. apply Hz. lia. }
    destruct (IH res1 inf1 HG Hl Hf Hlp Hlg Hdp Hdg Htp Htg ltac:(lia) Hok1
                Hinf1) as (res' & inf' & E & Hok & Haff).
    exists res', inf'. cbn [for_loop_down affine_ladder_public].
    rewrite E1, bind_Some. split; [exact E|]. split; [exact Hok|].
    rewrite Haff, Haff1. reflexivity.
Qed.

Lemma wnaf_digits_Forall s :
  Forall (fun d => d = 0 \/ (Z.odd d = true /\ -31 <= d <= 31))
         (wnaf_digits s).
Proof.
  unfold wnaf_digits. apply Forall_forall. intros d Hd.
  apply in_map_iff in Hd. destruct Hd as (k & <- & _).
  apply wnaf_digit_props.
Qed.

Lemma wnaf_digits_top s :
  0 <= s < 2 ^ 384 ->
  forall k, (k < 385)%nat ->
    (forall j, (k < j < 385)%nat -> nth j (wnaf_digits s) 0 = 0) ->
    0 <= nth k (wnaf_digits s) 0.
Proof.
  intros Hs k Hk Hz. rewrite wnaf_digits_nth by assumption.
  apply wnaf_top_nonneg; [assumption|assumption|].
  intros j Hj. rewrite <- wnaf_digits_nth by lia. now apply Hz.
Qed.

Lemma point_mul_public_refines (G : list (list aff)) group g_scalar p
    p_scalar :
  g_pre_comp_ok 20 G -> scalar_ok g_scalar -> point_ok p ->
  scalar_ok p_scalar ->
  exists r,
    ec_GFp_nistp384_point_mul_public G group g_scalar p p_scalar = Some r /\
    point_ok r /\
    affine_of r
    = affine_point_mul_public (map (map affine_of_aff) G)
        (bytes_eval g_scalar) (affine_of p) (bytes_eval p_scalar).
Proof.
  intros HG Hsg (Hx & Hy & Hz) Hsp.
  apply from_generic_ok in Hx, Hy, Hz.
  unfold ec_GFp_nistp384_point_mul_public, affine_point_mul_public, affine_of.
  cbv zeta.
  set (x := fiat_p384_from_generic (X p)) in *.
  set (y := fiat_p384_from_generic (Y p)) in *.
  set (z := fiat_p384_from_generic (Z_ p)) in *.
  destruct (p_pre_comp_spec x y z Hx Hy Hz) as (Hl & Hf & Hm).
  set (T := p_pre_comp x y z) in *.
  rewrite <- Hm.
  rewrite !wnaf_computes by (try assumption; apply repeat_length).
  rewrite !bind_Some.
  pose proof (scalar_range _ Hsg) as Hrg. pose proof (scalar_range _ Hsp) as Hrp.
  destruct (point_mul_public_loop_spec G T
              (wnaf_digits (bytes_eval p_scalar))
              (wnaf_digits (bytes_eval g_scalar)) 385
              (felem_zero, felem_zero, felem_zero) 1 HG Hl Hf
              (wnaf_digits_length _) (wnaf_digits_length _)
              (wnaf_digits_Forall _) (wnaf_digits_Forall _)
              (wnaf_digits_top _ Hrp) (wnaf_digits_top _ Hrg)
              ltac:(lia) jac_zero_ok)
    as (res & inf & E & Hok & Haff).
  { right. split; [reflexivity|]. split; [apply to_affine_zero|].
    intros j Hj. lia. }
  match goal with
  | |- context [bind ?c _] =>
      replace c with (Some (res, inf)) by (symmetry; exact E)
  end.
  rewrite bind_Some. rewrite to_affine_zero in Haff.
  destruct res as [[r0 r1] r2]. destruct Hok as (H0 & H1 & H2).
  eexists. split; [reflexivity|]. split; [now apply point_ok_mk|].
  change (to_affine (fiat_p384_from_generic (X ?P), _, _)) with (affine_of P).
  rewrite affine_of_mk by assumption. exact Haff.
Qed.

(** X10: for a table of 20 sub-tables of 16 well-formed affine entries, a
    well-formed point and two 48-byte scalars,
    [ec_GFp_nistp384_point_mul_public] reads inside its tables and digit
    arrays, and its result is a well-formed point that stands for the result
    of the interleaved ladder over the affine addition law: from the point
    at infinity, for each digit position from 384 down to 0 a doubling, then
    the addition of the points of the textbook-wNAF digits of the two
    scalars.  The copy made while [res_is_inf] is set never needs a
    negation, the first non-zero digit being positive. *)
Theorem point_mul_public_affine (G : list (list aff)) group g_scalar p
    p_scalar :
  g_pre_comp_ok 20 G -> scalar_ok g_scalar -> point_ok p ->
  scalar_ok p_scalar ->
  exists r,
    ec_GFp_nistp384_point_mul_public G group g_scalar p p_scalar = Some r /\
    point_ok r /\
    affine_of r
    = affine_point_mul_public (map (map affine_of_aff) G)
        (bytes_eval g_scalar) (affine_of p) (bytes_eval p_scalar).
Proof. apply point_mul_public_refines. Qed.

(** ** Field inversion *)

(** X11: [fiat_p384_inv_square] returns a well-formed element, the inverse
    of the square of its argument: [out * in^2 = 1] for [in <> 0], and
    [out = 0] for [in = 0]. *)
Theorem inv_square_spec a :
  felem_ok (fiat_p384_inv_square a) /\
  if Zmod.eqb (fval a) Zmod.zero
  then fval (fiat_p384_inv_square a) = Zmod.zero
  else Zmod.mul (fval (fiat_p384_inv_square a))
                (Zmod.mul (fval a) (fval a)) = Zmod.one.
Proof.
  split; [unfold fiat_p384_inv_square; apply fe_ok|].
  destruct (Zmod.eqb_spec (fval a) Zmod.zero) as [E|E].
  - rewrite fval_inv_square, E. apply Zmod.pow_0_l. vm_compute. discriminate.
  - rewrite fval_inv_square_nz by assumption.
    apply Zmod.mul_inv_same_l_prime; [apply p384_prime|].
    now apply Fp_mul_nz.
Qed.

(** ** Bytes and limbs *)

Lemma bytes_of_eval l :
  Forall (fun b => 0 <= b < 256) l ->
  bytes_of (length l) (bytes_eval l) = l.
Proof.
  induction 1 as [|x l Hx Hl IH]; [reflexivity|].
  cbn [length bytes_of bytes_eval]. f_equal.
  - rewrite (Z.mul_comm 256), Z.mod_add by lia. apply Z.mod_small, Hx.
  - rewrite (Z.mul_comm 256), Z.div_add by lia.
    rewrite Z.div_small by exact Hx. exact IH.
Qed.

Lemma to_from_generic bs :
  felem_bytes_ok bs ->
  fiat_p384_to_generic (fiat_p384_from_generic bs) = bs.
Proof.
  intros [Hs Hp]. unfold fiat_p384_to_generic, fiat_p384_to_bytes.
  rewrite feval_from_generic by assumption.
  destruct Hs as [Hl Hr]. rewrite <- Hl at 1. now apply bytes_of_eval.
Qed.

Lemma inv_square_one : fiat_p384_inv_square fiat_p384_one = fiat_p384_one.
Proof.
  apply fval_inj; [unfold fiat_p384_inv_square; apply fe_ok|apply one_ok|].
  assert (H1 : (Zmod.one : Fp) <> Zmod.zero).
  { apply Zmod.one_neq_zero. vm_compute. discriminate. }
  rewrite fval_inv_square_nz by (rewrite fval_one; exact H1).
  rewrite fval_one. field. exact H1.
Qed.

(** X12: a point given with [Z = 1] (the bytes of [fiat_p384_one]) and
    well-formed [X] and [Y] is its own affine form:
    [ec_GFp_nistp384_point_get_affine_coordinates] returns the bytes of [X]
    and [Y] unchanged. *)
Theorem get_affine_z_one group P :
  felem_bytes_ok (X P) -> felem_bytes_ok (Y P) ->
  Z_ P = fiat_p384_to_generic fiat_p384_one ->
  forall wx wy,
    ec_GFp_nistp384_point_get_affine_coordinates group P wx wy
    = inr (if wx then Some (X P) else None, if wy then Some (Y P) else None).
Proof.
  intros Hx Hy Hz wx wy.
  unfold ec_GFp_nistp384_point_get_affine_coordinates.
  assert (Hinf : ec_GFp_simple_is_at_infinity group P = false).
  { unfold ec_GFp_simple_is_at_infinity. rewrite Hz. vm_compute. reflexivity. }
  rewrite Hinf, Hz. cbv zeta.
  rewrite (from_to_generic_ok _ one_ok), inv_square_one.
  assert (Ex : fiat_p384_mul (fiat_p384_from_generic (X P)) fiat_p384_one
               = fiat_p384_from_generic (X P)).
  { apply fval_inj; [apply fe_ok|now apply from_generic_ok|].
    rewrite fval_mul, fval_one. ring. }
  assert (Ey : fiat_p384_mul
                 (fiat_p384_mul (fiat_p384_from_generic (Y P)) fiat_p384_one)
                 (fiat_p384_square fiat_p384_one)
               = fiat_p384_from_generic (Y P)).
  { apply fval_inj; [apply fe_ok|now apply from_generic_ok|].
    rewrite !fval_mul, fval_square, fval_one. ring. }
  rewrite Ex, Ey, !to_from_generic by assumption. reflexivity.
Qed.

(** X13: [ec_GFp_nistp384_add] with an operand at infinity returns the bytes
    of the other operand unchanged: the first operand when [Z = 0] in the
    second, the second operand when [Z = 0] in the first only. *)
Theorem add_infinity_bytes group a b :
  point_ok a -> point_ok b ->
  (bytes_eval (Z_ b) = 0 -> ec_GFp_nistp384_add group a b = a) /\
  (bytes_eval (Z_ a) = 0 -> bytes_eval (Z_ b) <> 0 ->
   ec_GFp_nistp384_add group a b = b).
Proof.
  intros (Ha1 & Ha2 & Ha3) (Hb1 & Hb2 & Hb3).
  assert (Hnz : forall bs, felem_bytes_ok bs ->
            (fiat_p384_nz (fiat_p384_from_generic bs) = 0
             <-> bytes_eval bs = 0)).
  { intros bs Hbs. rewrite nz_zero_iff by now apply from_generic_ok.
    rewrite feval_from_generic by apply Hbs. reflexivity. }
  unfold ec_GFp_nistp384_add. cbv zeta. split.
  - intros Hz. rewrite point_add_z2_zero by now apply Hnz.
    rewrite !to_from_generic by assumption. now destruct a.
  - intros Hz1 Hz2.
    rewrite point_add_z1_zero by (try (now apply Hnz); now rewrite Hnz).
    rewrite !to_from_generic by assumption. now destruct b.
Qed.

(** ** Field elements as big-endian byte strings *)

Lemma BN_num_bytes_p384 : BN_num_bytes (field p384_group) = 48.
Proof. vm_compute. reflexivity. Qed.

Lemma firstn_snoc {A : Type} (l : list A) : forall k d,
  (k < length l)%nat -> firstn (S k) l = firstn k l ++ [nth k l d].
Proof.
  induction l as [|a l IH]; intros [|k] d H; cbn [length] in H; try lia.
  - reflexivity.
  - cbn [firstn nth app]. f_equal. apply IH. lia.
Qed.

(** The loop that reverses the bytes. *)
Lemma reverse_loop (L : list Z) (len : Z) (k : nat) : forall i acc,
  len = Z.of_nat (length L) -> Z.of_nat k + i = len -> 0 <= i ->
  for_loop
    (fun i out => b <- read_byte L (len - 1 - i) ;; Some (out ++ [b]))
    k i acc
  = Some (acc ++ rev (firstn k L)).
Proof.
  induction k as [|k IH]; intros i acc Hlen Hk Hi.
  - cbn [for_loop firstn rev]. now rewrite app_nil_r.
  - cbn [for_loop].
    assert (Hlt : (k < length L)%nat) by lia.
    assert (Hrd : read_byte L (len - 1 - i) = Some (nth k L 0)).
    { unfold read_byte. destruct (Z.ltb_spec (len - 1 - i) 0); [lia|].
      replace (Z.to_nat (len - 1 - i)) with k by lia.
      now apply nth_error_nth'. }
    rewrite Hrd, !bind_Some, IH by lia.
    rewrite <- app_assoc. f_equal.
    rewrite (firstn_snoc L k 0 Hlt), rev_app_distr. reflexivity.
Qed.

Lemma mont_R_Rinv : (mont_R * mont_Rinv) mod p384 = 1.
Proof. vm_compute. reflexivity. Qed.

Lemma mont_out_in a : ((a * mont_Rinv) mod p384 * mont_R) mod p384 = a mod p384.
Proof.
  rewrite Z.mul_mod_idemp_l by (vm_compute; discriminate).
  rewrite <- Z.mul_assoc, (Z.mul_comm mont_Rinv).
  rewrite <- Z.mul_mod_idemp_r, mont_R_Rinv by (vm_compute; discriminate).
  now rewrite Z.mul_1_r.
Qed.

Lemma mont_in_out a : ((a * mont_R) mod p384 * mont_Rinv) mod p384 = a mod p384.
Proof.
  rewrite Z.mul_mod_idemp_l by (vm_compute; discriminate).
  rewrite <- Z.mul_assoc.
  rewrite <- Z.mul_mod_idemp_r, mont_R_Rinv by (vm_compute; discriminate).
  now rewrite Z.mul_1_r.
Qed.

Lemma p384_lt_2_384 : p384 < 256 ^ 48.
Proof. vm_compute. reflexivity. Qed.

(** The bytes written by [ec_GFp_nistp384_mont_felem_to_bytes]. *)
Lemma mont_felem_to_bytes_value x :
  scalar_ok x ->
  ec_GFp_nistp384_mont_felem_to_bytes p384_group x
  = Some (rev (bytes_of 48 ((bytes_eval x * mont_Rinv) mod p384)), 48).
Proof.
  intros Hx. unfold ec_GFp_nistp384_mont_felem_to_bytes.
  rewrite BN_num_bytes_p384. cbv zeta.
  unfold fiat_p384_from_montgomery.
  rewrite feval_from_generic by assumption.
  unfold fiat_p384_to_generic, fiat_p384_to_bytes. rewrite feval_fe.
  set (L := bytes_of 48 ((bytes_eval x * mont_Rinv) mod p384)).
  change (Z.to_nat 48) with 48%nat.
  rewrite (reverse_loop L 48 48 0 [])
    by (unfold L; rewrite ?bytes_of_length; lia).
  rewrite bind_Some, firstn_all2 by (unfold L; rewrite bytes_of_length; lia).
  reflexivity.
Qed.

(** The element read by [ec_GFp_nistp384_mont_felem_from_bytes]. *)
Lemma mont_felem_from_bytes_value bs :
  length bs = 48%nat -> Forall (fun b => 0 <= b < 256) bs ->
  bytes_eval (rev bs) < p384 ->
  ec_GFp_nistp384_mont_felem_from_bytes p384_group bs 48
  = Some (bytes_of 48 ((bytes_eval (rev bs) * mont_R) mod p384)).
Proof.
  intros Hl Hr Hp.
  unfold ec_GFp_nistp384_mont_felem_from_bytes, ec_GFp_simple_felem_from_bytes.
  rewrite BN_num_bytes_p384. change (negb (48 =? 48)) with false. cbv iota zeta.
  rewrite firstn_all2 by lia.
  change (field p384_group) with p384.
  destruct (Z.ltb_spec (bytes_eval (rev bs)) p384); [|lia].
  assert (Hs : scalar_ok (rev bs)).
  { split; [now rewrite length_rev|]. now apply Forall_rev. }
  unfold fiat_p384_to_montgomery.
  rewrite feval_from_generic by assumption.
  unfold fiat_p384_to_generic, fiat_p384_to_bytes. now rewrite feval_fe.
Qed.

(** X14: [ec_GFp_nistp384_mont_felem_to_bytes] writes the 48 big-endian
    bytes of the element taken out of Montgomery form, and
    [ec_GFp_nistp384_mont_felem_from_bytes] reads them back; conversely
    every 48-byte big-endian string below [p] is read into a well-formed
    element that is written back as the same string. *)
Theorem mont_felem_bytes_round_trip :
  (forall x, felem_bytes_ok x ->
     exists bs,
       ec_GFp_nistp384_mont_felem_to_bytes p384_group x = Some (bs, 48) /\
       length bs = 48%nat /\
       bytes_eval (rev bs) = (bytes_eval x * mont_Rinv) mod p384 /\
       ec_GFp_nistp384_mont_felem_from_bytes p384_group bs 48 = Some x) /\
  (forall bs, length bs = 48%nat -> Forall (fun b => 0 <= b < 256) bs ->
     bytes_eval (rev bs) < p384 ->
     exists x,
       ec_GFp_nistp384_mont_felem_from_bytes p384_group bs 48 = Some x /\
       felem_bytes_ok x /\
       ec_GFp_nistp384_mont_felem_to_bytes p384_group x = Some (bs, 48)).
Proof.
  pose proof p384_lt_2_384 as Hp. pose proof p384_pos as Hp0.
  split.
  - intros x [Hs Hx]. pose proof (scalar_range x Hs) as Hr.
    set (w := (bytes_eval x * mont_Rinv) mod p384).
    assert (Hw : 0 <= w < p384) by (apply Z.mod_pos_bound; lia).
    exists (rev (bytes_of 48 w)).
    split; [now apply mont_felem_to_bytes_value|].
    split; [now rewrite length_rev, bytes_of_length|].
    split; [rewrite rev_involutive; apply bytes_eval_of; lia|].
    rewrite mont_felem_from_bytes_value.
    + rewrite rev_involutive, bytes_eval_of by lia.
      unfold w. rewrite mont_out_in, Z.mod_small by lia.
      destruct Hs as [Hl Hb]. rewrite <- Hl. now rewrite bytes_of_eval.
    + now rewrite length_rev, bytes_of_length.
    + apply Forall_rev, bytes_of_range.
    + rewrite rev_involutive, bytes_eval_of by lia. lia.
  - intros bs Hl Hb Hv.
    assert (Hs : scalar_ok (rev bs)).
    { split; [now rewrite length_rev|]. now apply Forall_rev. }
    pose proof (scalar_range _ Hs) as Hr.
    set (u := (bytes_eval (rev bs) * mont_R) mod p384).
    assert (Hu : 0 <= u < p384) by (apply Z.mod_pos_bound; lia).
    exists (bytes_of 48 u).
    split; [now apply mont_felem_from_bytes_value|].
    assert (Hok : scalar_ok (bytes_of 48 u)).
    { split; [apply bytes_of_length|apply bytes_of_range]. }
    split; [split; [exact Hok|rewrite bytes_eval_of; lia]|].
    rewrite mont_felem_to_bytes_value by exact Hok.
    rewrite bytes_eval_of by lia. unfold u.
    rewrite mont_in_out, Z.mod_small by lia.
    replace 48%nat with (length (rev bs)) by now rewrite length_rev.
    rewrite bytes_of_eval by now apply Forall_rev.
    now rewrite rev_involutive.
Qed.

(** ** Zero scalars *)




(** ** The affine addition law: algebra *)

(** Side conditions of [field]: a hypothesis, or a constant that is not
    zero. *)
Ltac Fp_side :=
  repeat split; try assumption;
  try (let Hc := fresh in
       intros Hc; apply (f_equal Zmod.unsigned) in Hc;
       vm_compute in Hc; discriminate).

Lemma affine_add_opp P : affine_add P (affine_opp P) = None.
Proof.
  destruct P as [[x y]|]; [|reflexivity].
  unfold affine_opp, affine_add. rewrite Zmod.eqb_refl.
  destruct (Zmod.eqb_spec y (Zmod.opp y)) as [E|E]; [|reflexivity].
  unfold affine_double.
  destruct (Zmod.eqb_spec y Zmod.zero) as [E0|E0]; [reflexivity|].
  exfalso. apply E0.
  assert (H : Zmod.mul F_two y = Zmod.zero).
  { unfold F_two. transitivity (Zmod.add y y); [ring|].
    rewrite E at 1. ring. }
  apply Fp_mul_zero in H. destruct H as [H|H]; [|exact H].
  exfalso. now apply F_two_nz.
Qed.

Lemma affine_add_comm P Q : affine_add P Q = affine_add Q P.
Proof.
  destruct P as [[x1 y1]|], Q as [[x2 y2]|]; try reflexivity.
  unfold affine_add.
  destruct (Zmod.eqb_spec x1 x2) as [Ex|Ex];
    destruct (Zmod.eqb_spec x2 x1) as [Ex'|Ex']; try congruence.
  - destruct (Zmod.eqb_spec y1 y2) as [Ey|Ey];
      destruct (Zmod.eqb_spec y2 y1) as [Ey'|Ey']; try congruence.
  - assert (H12 : Zmod.sub x2 x1 <> Zmod.zero).
    { intros H. apply Ex'. transitivity (Zmod.add (Zmod.sub x2 x1) x1);
        [ring|rewrite H; ring]. }
    assert (H21 : Zmod.sub x1 x2 <> Zmod.zero).
    { intros H. apply Ex. transitivity (Zmod.add (Zmod.sub x1 x2) x2);
        [ring|rewrite H; ring]. }
    cbv zeta. f_equal. f_equal; field; split; assumption.
Qed.

Lemma affine_opp_on_curve b P : on_curve b P -> on_curve b (affine_opp P).
Proof.
  destruct P as [[x y]|]; [|trivial]. unfold on_curve, affine_opp.
  intros H. rewrite <- H. ring.
Qed.

Lemma affine_double_on_curve b P :
  on_curve b P -> on_curve b (affine_double P).
Proof.
  destruct P as [[x y]|]; [|trivial]. unfold affine_double.
  destruct (Zmod.eqb_spec y Zmod.zero) as [E|E]; [intros _; exact I|].
  unfold on_curve. cbv zeta. intros H.
  pose proof F_two_nz as H2.
  set (l := Zmod.mdiv (F_three * (x * x - 1))%Zmod (F_two * y)%Zmod).
  set (x3 := (l * l - x - x)%Zmod).
  assert (K : (x3 * x3 * x3 - F_three * x3 + b
               - (l * (x - x3) - y) * (l * (x - x3) - y))%Zmod
              = (x * x * x - F_three * x + b - y * y)%Zmod).
  { unfold x3, l, F_two, F_three in *. field. Fp_side. }
  rewrite <- H in K.
  transitivity ((x3 * x3 * x3 - F_three * x3 + b)
                - (x3 * x3 * x3 - F_three * x3 + b
                   - (l * (x - x3) - y) * (l * (x - x3) - y)))%Zmod;
    [ring|rewrite K; ring].
Qed.

Lemma affine_add_on_curve b P Q :
  on_curve b P -> on_curve b Q -> on_curve b (affine_add P Q).
Proof.
  destruct P as [[x1 y1]|], Q as [[x2 y2]|]; try (intros; assumption).
  intros H1 H2. unfold affine_add.
  destruct (Zmod.eqb_spec x1 x2) as [Ex|Ex].
  - destruct (Zmod.eqb_spec y1 y2); [|exact I].
    now apply affine_double_on_curve.
  - unfold on_curve in *. cbv zeta.
    assert (H21 : Zmod.sub x2 x1 <> Zmod.zero).
    { intros H. apply Ex. transitivity (Zmod.sub x2 (Zmod.sub x2 x1));
        [ring|rewrite H; ring]. }
    assert (H12 : Zmod.sub x1 x2 <> Zmod.zero).
    { intros H. apply Ex. transitivity (Zmod.add (Zmod.sub x1 x2) x2);
        [ring|rewrite H; ring]. }
    set (l := Zmod.mdiv (y2 - y1)%Zmod (x2 - x1)%Zmod).
    set (x3 := (l * l - x1 - x2)%Zmod).
    set (F1 := (x1 * x1 * x1 - F_three * x1 + b - y1 * y1)%Zmod).
    set (F2 := (x2 * x2 * x2 - F_three * x2 + b - y2 * y2)%Zmod).
    assert (K : (x3 * x3 * x3 - F_three * x3 + b
                 - (l * (x1 - x3) - y1) * (l * (x1 - x3) - y1))%Zmod
                = Zmod.mdiv ((x3 - x2) * F1 - (x3 - x1) * F2)%Zmod
                            (x1 - x2)%Zmod).
    { unfold F1, F2, x3, l, F_three. field. Fp_side. }
    assert (Z1 : F1 = Zmod.zero) by (unfold F1; rewrite H1; ring).
    assert (Z2 : F2 = Zmod.zero) by (unfold F2; rewrite H2; ring).
    rewrite Z1, Z2 in K.
    assert (K0 : (x3 * x3 * x3 - F_three * x3 + b
                  - (l * (x1 - x3) - y1) * (l * (x1 - x3) - y1))%Zmod
                 = Zmod.zero).
    { rewrite K. field. assumption. }
    transitivity ((x3 * x3 * x3 - F_three * x3 + b)
                  - (x3 * x3 * x3 - F_three * x3 + b
                     - (l * (x1 - x3) - y1) * (l * (x1 - x3) - y1)))%Zmod;
      [ring|rewrite K0; ring].
Qed.

(** ** The wrappers and the addition law *)

(** X16: [ec_GFp_nistp384_add] is commutative on the points its arguments
    stand for: the two orders of the operands give Jacobian triples of the
    same affine point. *)
Theorem add_commutes group a b :
  point_ok a -> point_ok b ->
  affine_of (ec_GFp_nistp384_add group a b)
  = affine_of (ec_GFp_nistp384_add group b a).
Proof.
  intros Ha Hb.
  destruct (add_refines group a b Ha Hb) as [_ ->].
  destruct (add_refines group b a Hb Ha) as [_ ->].
  apply affine_add_comm.
Qed.

(** X17: [ec_GFp_nistp384_add] of a point and any Jacobian triple of its
    negative [(x, -y)] is the point at infinity: [Z = 0] in the result. *)
Theorem add_opposite group a b :
  point_ok a -> point_ok b ->
  affine_of b = affine_opp (affine_of a) ->
  bytes_eval (Z_ (ec_GFp_nistp384_add group a b)) = 0.
Proof.
  intros Ha Hb Hopp.
  destruct (add_refines group a b Ha Hb) as [Hok Haff].
  apply (affine_of_infinity _ Hok). rewrite Haff, Hopp.
  apply affine_add_opp.
Qed.

(** X18: for every coefficient [b], [ec_GFp_nistp384_dbl] and
    [ec_GFp_nistp384_add] map points of the curve [y^2 = x^3 - 3 x + b] to
    points of the same curve. *)
Theorem add_dbl_on_curve (b : Fp) group a c :
  point_ok a -> point_ok c ->
  on_curve b (affine_of a) -> on_curve b (affine_of c) ->
  on_curve b (affine_of (ec_GFp_nistp384_dbl group a)) /\
  on_curve b (affine_of (ec_GFp_nistp384_add group a c)).
Proof.
  intros Ha Hc Oa Oc. split.
  - destruct (dbl_refines group a) as [_ ->].
    now apply affine_double_on_curve.
  - destruct (add_refines group a c Ha Hc) as [_ ->].
    now apply affine_add_on_curve.
Qed.

(** *** The ladder stays on the curve *)

Lemma affine_multiples_on_curve b n : forall P2 prev,
  on_curve b P2 -> on_curve b prev ->
  Forall (on_curve b) (affine_multiples n P2 prev).
Proof.
  induction n as [|n IH]; intros P2 prev H2 Hp; [constructor|].
  cbn [affine_multiples]. cbv zeta.
  assert (He : on_curve b (affine_add P2 prev))
    by now apply affine_add_on_curve.
  constructor; [exact He|]. now apply IH.
Qed.

Lemma affine_pre_comp_on_curve b P :
  on_curve b P -> Forall (on_curve b) (affine_pre_comp P).
Proof.
  intros HP. unfold affine_pre_comp. constructor; [exact HP|].
  apply affine_multiples_on_curve; [|exact HP].
  now apply affine_double_on_curve.
Qed.

Lemma affine_digit_on_curve b (T : list affine) d :
  Forall (on_curve b) T -> on_curve b (affine_digit T d).
Proof.
  intros HT. unfold affine_digit. cbv zeta.
  assert (H : on_curve b (nth (Z.to_nat ((Z.abs d - 1) / 2)) T (None : affine))).
  { destruct (nth_in_or_default (Z.to_nat ((Z.abs d - 1) / 2)) T
                (None : affine)) as [Hin|E].
    - rewrite Forall_forall in HT. now apply HT.
    - rewrite E. exact I. }
  destruct (d <? 0); [now apply affine_opp_on_curve|exact H].
Qed.

Lemma affine_double_n_on_curve b n : forall P,
  on_curve b P -> on_curve b (affine_double_n n P).
Proof.
  induction n as [|n IH]; intros P HP; [exact HP|].
  cbn [affine_double_n]. apply IH. now apply affine_double_on_curve.
Qed.

Lemma affine_ladder_on_curve b (T : list affine) ds n : forall acc,
  Forall (on_curve b) T -> on_curve b acc ->
  on_curve b (affine_ladder T ds n acc).
Proof.
  induction n as [|n IH]; intros acc HT Hacc; [exact Hacc|].
  cbn [affine_ladder]. apply IH; [exact HT|].
  apply affine_add_on_curve.
  - now apply affine_double_n_on_curve.
  - now apply affine_digit_on_curve.
Qed.

Lemma affine_point_mul_on_curve b P s :
  on_curve b P -> on_curve b (affine_point_mul P s).
Proof.
  intros HP. unfold affine_point_mul. cbv zeta.
  pose proof (affine_pre_comp_on_curve b P HP) as HT.
  assert (Hacc : on_curve b
            (affine_ladder (affine_pre_comp P) (rwnaf_digits s) 76
               (affine_digit (affine_pre_comp P) (nth 76 (rwnaf_digits s) 0)))).
  { apply affine_ladder_on_curve; [exact HT|].
    apply affine_digit_on_curve. exact HT. }
  destruct (Z.odd s); [exact Hacc|].
  apply affine_add_on_curve; [exact Hacc|].
  apply affine_opp_on_curve. exact HP.
Qed.

(** X19: for every coefficient [b] and every 48-byte scalar,
    [ec_GFp_nistp384_point_mul] maps a point of the curve
    [y^2 = x^3 - 3 x + b] to a point of the same curve. *)
Theorem point_mul_on_curve (b : Fp) group p scalar :
  scalar_ok scalar -> point_ok p -> on_curve b (affine_of p) ->
  exists r,
    ec_GFp_nistp384_point_mul group p scalar = Some r /\
    point_ok r /\ on_curve b (affine_of r).
Proof.
  intros Hs Hp Hon.
  destruct (point_mul_refines group p scalar Hs Hp) as (r & E & Hok & Haff).
  exists r. split; [exact E|]. split; [exact Hok|].
  rewrite Haff. apply affine_point_mul_on_curve. exact Hon.
Qed.

(** *** The compensation for an even scalar *)

Lemma rwnaf_digits_even s :
  Z.even s = true -> rwnaf_digits s = rwnaf_digits (s + 1).
Proof.
  intros He.
  assert (Hw : forall i, 0 <= i -> rwnaf_window s i = rwnaf_window (s + 1) i).
  { intros i Hi. unfold rwnaf_window.
    replace (5 * i + 1) with (1 + 5 * i) by lia.
    rewrite !Z.pow_add_r, <- !Z.div_div by lia.
    change (2 ^ 1) with 2.
    apply Z.even_spec in He. destruct He as [k ->].
    replace (2 * k + 1) with (1 + k * 2) by lia.
    rewrite Z.div_add by lia. rewrite (Z.mul_comm 2 k), Z.div_mul by lia.
    reflexivity. }
  unfold rwnaf_digits. f_equal.
  - apply map_ext. intros k. unfold rwnaf_digit. rewrite Hw by lia.
    reflexivity.
  - f_equal. apply Hw. lia.
Qed.

(** X20: the compensation for an even scalar: for an even scalar [s],
    [ec_GFp_nistp384_point_mul] returns the result for the odd scalar
    [s + 1], which has the same regular-wNAF digits, with [- P] added. *)
Theorem point_mul_even_scalar group p scalar scalar' :
  scalar_ok scalar -> scalar_ok scalar' -> point_ok p ->
  Z.even (bytes_eval scalar) = true ->
  bytes_eval scalar' = bytes_eval scalar + 1 ->
  exists r r',
    ec_GFp_nistp384_point_mul group p scalar = Some r /\
    ec_GFp_nistp384_point_mul group p scalar' = Some r' /\
    affine_of r = affine_add (affine_of r') (affine_opp (affine_of p)).
Proof.
  intros Hs Hs' Hp He Hs1.
  destruct (point_mul_refines group p scalar Hs Hp) as (r & E & _ & Haff).
  destruct (point_mul_refines group p scalar' Hs' Hp) as (r' & E' & _ & Haff').
  exists r, r'. split; [exact E|]. split; [exact E'|].
  rewrite Haff, Haff', Hs1. unfold affine_point_mul. cbv zeta.
  rewrite <- (rwnaf_digits_even _ He).
  rewrite <- Z.negb_even, He. cbn [negb].
  replace (Z.odd (bytes_eval scalar + 1)) with true; [reflexivity|].
  rewrite Z.odd_add, <- Z.negb_even, He. reflexivity.
Qed.

(** ** Examples *)

Lemma generator_ok : point_ok generator.
Proof.
  split; [|split]; apply felem_bytes_okb_ok; vm_compute; reflexivity.
Defined.

Lemma generator_neg_ok : point_ok generator_neg.
Proof.
  split; [|split]; apply felem_bytes_okb_ok; vm_compute; reflexivity.
Defined.

Lemma infinity_point_ok : point_ok infinity_point.
Proof.
  split; [|split]; apply felem_bytes_okb_ok; vm_compute; reflexivity.
Defined.

Lemma sample_table_ok : g_pre_comp_ok 20 sample_table.
Proof.
  split; [reflexivity|]. apply Forall_forall. intros sub Hin.
  apply repeat_spec in Hin. subst sub. split; [reflexivity|].
  apply Forall_forall. intros e He. apply repeat_spec in He. subst e.
  split; apply fe_ok.
Defined.

Lemma cavp_scalar_ok : scalar_ok cavp_scalar.
Proof. apply scalar_okb_ok. vm_compute. reflexivity. Defined.

Lemma even_scalar_ok : scalar_ok even_scalar.
Proof. apply scalar_okb_ok. vm_compute. reflexivity. Defined.

Lemma generator_on_curve :
  on_curve (Zmod.of_Z p384 p384_b) (affine_of generator).
Proof. vm_compute. reflexivity. Defined.

Lemma add_affine_witness :
  point_ok (ec_GFp_nistp384_add p384_group generator sample_point) /\
  affine_of (ec_GFp_nistp384_add p384_group generator sample_point)
  = affine_add (affine_of generator) (affine_of sample_point).
Proof.
  apply (add_affine p384_group generator sample_point generator_ok
           sample_point_ok).
Defined.

Lemma point_add_mixed_is_full_witness :
  fiat_p384_point_add (fe 5) (fe 7) (fe 3) 1 (fe 11) (fe 13) fiat_p384_one
  = fiat_p384_point_add (fe 5) (fe 7) (fe 3) 0 (fe 11) (fe 13) fiat_p384_one.
Proof.
  apply (point_add_mixed_is_full (fe 5) (fe 7) (fe 3) (fe 11) (fe 13)
           (fe_ok 5) (fe_ok 7)).
Defined.

Lemma point_add_swap_witness :
  fiat_p384_point_add (fe 11) (fe 13) (fe 2) 0 (fe 5) (fe 7) (fe 3)
  = let '(x3, y3, z3) :=
      fiat_p384_point_add (fe 5) (fe 7) (fe 3) 0 (fe 11) (fe 13) (fe 2) in
    (x3, fiat_p384_opp y3, fiat_p384_opp z3).
Proof.
  apply (point_add_swap (fe 5) (fe 7) (fe 3) (fe 11) (fe 13) (fe 2)
           (fe_ok 3) (fe_ok 2)).
  - vm_compute. discriminate.
  - vm_compute. discriminate.
  - left. vm_compute. discriminate.
Defined.

Lemma point_mul_affine_witness :
  exists r,
    ec_GFp_nistp384_point_mul p384_group generator cavp_scalar = Some r /\
    point_ok r /\
    affine_of r
    = affine_point_mul (affine_of generator) (bytes_eval cavp_scalar).
Proof.
  apply (point_mul_affine p384_group generator cavp_scalar cavp_scalar_ok
           generator_ok).
Defined.

Lemma point_mul_infinity_witness :
  exists r,
    ec_GFp_nistp384_point_mul p384_group infinity_point cavp_scalar
      = Some r /\
    bytes_eval (Z_ r) = 0.
Proof.
  apply (point_mul_infinity p384_group infinity_point cavp_scalar
           cavp_scalar_ok infinity_point_ok).
  reflexivity.
Defined.

Lemma point_mul_base_affine_witness :
  exists r,
    ec_GFp_nistp384_point_mul_base sample_table p384_group cavp_scalar
      = Some r /\
    point_ok r /\
    affine_of r
    = affine_point_mul_base (map (map affine_of_aff) sample_table)
        (bytes_eval cavp_scalar).
Proof.
  apply (point_mul_base_affine sample_table p384_group cavp_scalar
           sample_table_ok cavp_scalar_ok).
Defined.

Lemma wnaf_top_digit_positive_witness :
  exists ds,
    fiat_p384_mul_scalar_wnaf (repeat 0 385%nat) cavp_scalar = Some ds /\
    forall k, (k < 385)%nat ->
      (forall j, (k < j < 385)%nat -> nth j ds 0 = 0) ->
      0 <= nth k ds 0.
Proof.
  apply (wnaf_top_digit_positive (repeat 0 385%nat) cavp_scalar
           cavp_scalar_ok).
  reflexivity.
Defined.

Lemma digit_decode_witness :
  digit_sign_idx (-31) = digit_sign_idx_vartime (-31) /\
  let '(is_neg, idx) := digit_sign_idx (-31) in
  is_neg = (if -31 <? 0 then 1 else 0) /\
  0 <= idx < 16 /\
  -31 = (1 - 2 * is_neg) * (2 * idx + 1).
Proof.
  apply (digit_decode (-31)).
  - reflexivity.
  - lia.
Defined.

Lemma point_mul_public_affine_witness :
  exists r,
    ec_GFp_nistp384_point_mul_public sample_table p384_group even_scalar
      generator cavp_scalar = Some r /\
    point_ok r /\
    affine_of r
    = affine_point_mul_public (map (map affine_of_aff) sample_table)
        (bytes_eval even_scalar) (affine_of generator)
        (bytes_eval cavp_scalar).
Proof.
  apply (point_mul_public_affine sample_table p384_group even_scalar
           generator cavp_scalar sample_table_ok even_scalar_ok generator_ok
           cavp_scalar_ok).
Defined.

Lemma get_affine_z_one_witness :
  ec_GFp_nistp384_point_get_affine_coordinates p384_group generator true true
  = inr (Some (X generator), Some (Y generator)).
Proof.
  exact (get_affine_z_one p384_group generator (proj1 generator_ok)
           (proj1 (proj2 generator_ok)) eq_refl true true).
Defined.

Lemma add_infinity_bytes_witness :
  ec_GFp_nistp384_add p384_group generator infinity_point = generator /\
  ec_GFp_nistp384_add p384_group infinity_point generator = generator.
Proof.
  split.
  - apply (add_infinity_bytes p384_group generator infinity_point
             generator_ok infinity_point_ok).
    reflexivity.
  - apply (add_infinity_bytes p384_group infinity_point generator
             infinity_point_ok generator_ok).
    + reflexivity.
    + vm_compute. discriminate.
Defined.

Lemma mont_felem_bytes_round_trip_witness :
  exists bs,
    ec_GFp_nistp384_mont_felem_to_bytes p384_group (X generator)
      = Some (bs, 48) /\
    length bs = 48%nat /\
    bytes_eval (rev bs) = (bytes_eval (X generator) * mont_Rinv) mod p384 /\
    ec_GFp_nistp384_mont_felem_from_bytes p384_group bs 48
      = Some (X generator).
Proof.
  apply (proj1 mont_felem_bytes_round_trip (X generator)).
  exact (proj1 generator_ok).
Defined.

Lemma add_commutes_witness :
  affine_of (ec_GFp_nistp384_add p384_group generator sample_point)
  = affine_of (ec_GFp_nistp384_add p384_group sample_point generator).
Proof.
  apply (add_commutes p384_group generator sample_point generator_ok
           sample_point_ok).
Defined.

Lemma add_opposite_witness :
  bytes_eval (Z_ (ec_GFp_nistp384_add p384_group generator generator_neg))
  = 0.
Proof.
  apply (add_opposite p384_group generator generator_neg generator_ok
           generator_neg_ok).
  vm_compute. reflexivity.
Defined.

Lemma add_dbl_on_curve_witness :
  on_curve (Zmod.of_Z p384 p384_b)
    (affine_of (ec_GFp_nistp384_dbl p384_group generator)) /\
  on_curve (Zmod.of_Z p384 p384_b)
    (affine_of (ec_GFp_nistp384_add p384_group generator generator)).
Proof.
  apply (add_dbl_on_curve (Zmod.of_Z p384 p384_b) p384_group generator
           generator generator_ok generator_ok generator_on_curve
           generator_on_curve).
Defined.

Lemma point_mul_on_curve_witness :
  exists r,
    ec_GFp_nistp384_point_mul p384_group generator cavp_scalar = Some r /\
    point_ok r /\ on_curve (Zmod.of_Z p384 p384_b) (affine_of r).
Proof.
  apply (point_mul_on_curve (Zmod.of_Z p384 p384_b) p384_group generator
           cavp_scalar cavp_scalar_ok generator_ok generator_on_curve).
Defined.

Lemma point_mul_even_scalar_witness :
  exists r r',
    ec_GFp_nistp384_point_mul p384_group generator even_scalar = Some r /\
    ec_GFp_nistp384_point_mul p384_group generator cavp_scalar = Some r' /\
    affine_of r = affine_add (affine_of r') (affine_opp (affine_of generator)).
Proof.
  apply (point_mul_even_scalar p384_group generator even_scalar cavp_scalar
           even_scalar_ok cavp_scalar_ok generator_ok).
  - vm_compute. reflexivity.
  - vm_compute. reflexivity.
Defined.
